(** * universal-api-retry-interceptor: the retry/queue engine

    A shallow embedding of [src/index.ts] (class
    [UniversalApiRetryInterceptor]) and [src/types.ts].

    Conventions of the embedding.
    - JavaScript numbers that the engine handles (status codes, retry counts,
      millisecond timestamps and delays) are integers, modelled as [Z].
    - An error value is an object with an optional [name] and an optional
      string [message]; [null]/[undefined] is [None] at type [option JsError].
    - The engine is single threaded and runs to completion between [await]s.
      Each method is a computation in the monad [Eng] (state plus JavaScript
      exceptions); an [async] method is cut at its [await], the part before
      and the part after being separate computations.
    - Everything the engine does to the outside (user callbacks, the transport,
      the continuations of queued requests, the console) is recorded in a
      trace of events. *)

From Stdlib Require Import ZArith List String Ascii Bool Lia DecimalString.
Import ListNotations.
Local Open Scope string_scope.
Local Open Scope list_scope.
Local Open Scope Z_scope.

(* ------------------------------------------------------------------------- *)
(** ** Values exchanged with the transport *)

(** An error object as the engine inspects it: [error.name], [error.message]. *)
Record JsError : Type := mkError {
  name : option string;
  message : option string
}.

(** [new Error(msg)]. *)
Definition new_Error (msg : string) : JsError :=
  {| name := Some "Error"; message := Some msg |}.

(** A response as the engine inspects it.  For a response produced by the
    platform [ok] is [200 <= status <= 299]; the XHR path passes the bare
    object [{ status }], whose [ok] is absent (falsy). *)
Record Response : Type := mkResponse {
  status : Z;
  statusText : string;
  ok : bool
}.

(** [RequestInit], reduced to the fields the engine itself writes. *)
Record RequestInit : Type := mkInit {
  method : option string;
  body : option string;
  headers : list (string * string)
}.

(** types.ts: [RequestMetadata]. *)
Record RequestMetadata : Type := mkMeta {
  meta_url : string;
  meta_options : RequestInit
}.

(** How a call of user code or of the transport completes. *)
Inductive Completion (A : Type) : Type :=
| Normal (a : A)
| Throw (e : JsError).
Arguments Normal {A} a.
Arguments Throw {A} e.

(* ------------------------------------------------------------------------- *)
(** ** Strings *)

(** [s.includes(sub)]: [sub] occurs in [s] at some position. *)
Fixpoint includes (s sub : string) : bool :=
  if prefix sub s then true
  else match s with
       | EmptyString => false
       | String _ s' => includes s' sub
       end.

Definition opt_string_eqb (o : option string) (s : string) : bool :=
  match o with
  | Some x => String.eqb x s
  | None => false
  end.

(* ------------------------------------------------------------------------- *)
(** ** The default retry condition (index.ts, [defaultRetryCondition]) *)

(** [error?.name === "TypeError" || error?.message?.includes("fetch")] *)
Definition connectivity_class (error : option JsError) : bool :=
  match error with
  | None => false
  | Some e =>
      opt_string_eqb (name e) "TypeError"
      || match message e with
         | Some m => includes m "fetch"
         | None => false
         end
  end.

Definition defaultRetryCondition
    (error : option JsError) (response : option Response) : bool :=
  if (match response with None => true | Some _ => false end)
     && connectivity_class error
  then true
  else match response with
       | Some r =>
           (status r >=? 500) || (status r =? 408) || (status r =? 429)
           || (status r =? 0)
       | None => false
       end.

(* ------------------------------------------------------------------------- *)
(** ** Configuration (types.ts, [RetryConfig]; index.ts, the constructor) *)

(** The user callbacks are arbitrary code: each either returns or throws. *)
Definition RetryCondition : Type :=
  option JsError -> option Response -> Completion bool.
Definition OnRetry : Type :=
  option JsError -> Z -> RequestMetadata -> Completion unit.
Definition OnMaxRetriesExceeded : Type :=
  option JsError -> RequestMetadata -> Completion unit.

(** [RetryConfig]: every field optional ([None] is an absent field). *)
Module RetryConfig.
Record t : Type := mk {
  delayTime : option Z;
  retryInterval : option Z;
  maxRetries : option Z;
  retryCondition : option RetryCondition;
  onRetry : option OnRetry;
  onMaxRetriesExceeded : option OnMaxRetriesExceeded;
  enableLogging : option bool
}.
Definition empty : t := mk None None None None None None None.
End RetryConfig.

(** [Required<RetryConfig>], the type of [this.config]. *)
Record Config : Type := mkConfig {
  delayTime : Z;
  retryInterval : Z;
  maxRetries : Z;
  retryCondition : RetryCondition;
  onRetry : OnRetry;
  onMaxRetriesExceeded : OnMaxRetriesExceeded;
  enableLogging : bool
}.

(** [a ?? b] *)
Definition nullish {A : Type} (a : option A) (b : A) : A :=
  match a with
  | Some x => x
  | None => b
  end.

(** The [config] object the constructor builds. *)
Definition constructor_config (c : RetryConfig.t) : Config :=
  {| delayTime := nullish (RetryConfig.delayTime c) 1000;
     retryInterval := nullish (RetryConfig.retryInterval c) 5000;
     maxRetries := nullish (RetryConfig.maxRetries c) 3;
     retryCondition :=
       nullish (RetryConfig.retryCondition c)
               (fun e r => Normal (defaultRetryCondition e r));
     onRetry := nullish (RetryConfig.onRetry c) (fun _ _ _ => Normal tt);
     onMaxRetriesExceeded :=
       nullish (RetryConfig.onMaxRetriesExceeded c) (fun _ _ => Normal tt);
     enableLogging := nullish (RetryConfig.enableLogging c) false |}.

(** [{ ...config, ...newConfig }] *)
Definition spread (c : Config) (n : RetryConfig.t) : Config :=
  {| delayTime := nullish (RetryConfig.delayTime n) (delayTime c);
     retryInterval := nullish (RetryConfig.retryInterval n) (retryInterval c);
     maxRetries := nullish (RetryConfig.maxRetries n) (maxRetries c);
     retryCondition :=
       nullish (RetryConfig.retryCondition n) (retryCondition c);
     onRetry := nullish (RetryConfig.onRetry n) (onRetry c);
     onMaxRetriesExceeded :=
       nullish (RetryConfig.onMaxRetriesExceeded n) (onMaxRetriesExceeded c);
     enableLogging := nullish (RetryConfig.enableLogging n) (enableLogging c) |}.

(* ------------------------------------------------------------------------- *)
(** ** Queued requests, promises, events *)

(** The pair of closures [resolve]/[reject] stored in a [PendingRequest].
    Both close over the [resolve]/[reject] of one promise [p];
    [handleFailedXHRRequest] also closes over the original XHR object. *)
Inductive Continuations : Type :=
| ForFetch (p : nat)
| ForXHR (p : nat) (xhr : nat).

Definition promise_of (k : Continuations) : nat :=
  match k with
  | ForFetch p => p
  | ForXHR p _ => p
  end.

(** types.ts: [PendingRequest]. *)
Record PendingRequest : Type := mkPending {
  id : string;
  url : string;
  options : RequestInit;
  retryCount : Z;
  timestamp : Z;
  continuations : Continuations
}.

Definition metadata (r : PendingRequest) : RequestMetadata :=
  {| meta_url := url r; meta_options := options r |}.

(** State of a promise; settling a settled promise does nothing. *)
Inductive Promise : Type :=
| Pending
| Fulfilled (r : option Response)
| Rejected (e : JsError).

(** The call sites of [this.log]. *)
Inductive LogMessage : Type :=
| LogAlreadyActive
| LogStarted
| LogStopped
| LogStoredXHR (rid : string)
| LogStored (rid : string) (u : string)
| LogOnline
| LogOffline
| LogRetrying (rid : string) (attempt : Z) (max : Z)
| LogSucceeded (rid : string) (attempt : Z)
| LogFailedAfter (rid : string) (attempt : Z) (error : option JsError)
| LogNonRetryable (rid : string) (error : JsError)
| LogCleared
| LogConfigUpdated (newConfig : RetryConfig.t).

(** What the wrapped [fetch] hands back to the application: a settled
    outcome, or the promise of a queued request.  [guarded] tells whether the
    promise is awaited inside the wrapper's inner [try]/[catch] (the error
    path) or returned as it is (the response path). *)
Inductive FetchResult : Type :=
| Immediate (c : Completion Response)
| Deferred (p : nat) (guarded : bool).

(** Everything the engine does to its environment.  A request object is
    named by its address [a] in the heap of the state below. *)
Inductive Event : Type :=
| EvLog (m : LogMessage)
| EvOnRetry (attempt : Z) (info : RequestMetadata)
| EvOnMaxRetriesExceeded (error : option JsError) (info : RequestMetadata)
| EvDispatch (a : nat) (u : string) (o : RequestInit)
| EvResolve (a : nat) (request : PendingRequest) (response : Response)
| EvReject (a : nat) (request : PendingRequest) (error : JsError)
| EvXhrReplayLoad (xhr : nat) (response : Response)
| EvXhrOriginalOnError (xhr : nat)
| EvXhrOriginalOnLoad (xhr : nat)
| EvFetchReturns (r : FetchResult)
| EvUncaught (e : JsError).

(** A sweep ([retryPendingRequests]) suspended at its [await]: the request
    whose dispatch it waits for and the rest of its snapshot. *)
Record Sweep : Type := mkSweep {
  current : nat;
  remaining : list nat
}.

(* ------------------------------------------------------------------------- *)
(** ** The state of one interceptor

    [pendingRequests] is the JavaScript [Map], in insertion order, from ids to
    request objects; the objects live in [heap] and are named by their index,
    because the snapshot of a suspended sweep shares them with the map. *)
Record State : Type := mkState {
  config : Config;
  pendingRequests : list (string * nat);
  isOnline : bool;
  retryTimer : bool;
  isActive : bool;
  heap : list PendingRequest;
  promises : list Promise;
  sweeps : list (option Sweep);
  clock : Z;
  trace : list Event
}.

Definition set_config (c : Config) (s : State) : State :=
  mkState c (pendingRequests s) (isOnline s) (retryTimer s) (isActive s)
          (heap s) (promises s) (sweeps s) (clock s) (trace s).
Definition set_pendingRequests (m : list (string * nat)) (s : State) : State :=
  mkState (config s) m (isOnline s) (retryTimer s) (isActive s)
          (heap s) (promises s) (sweeps s) (clock s) (trace s).
Definition set_isOnline (b : bool) (s : State) : State :=
  mkState (config s) (pendingRequests s) b (retryTimer s) (isActive s)
          (heap s) (promises s) (sweeps s) (clock s) (trace s).
Definition set_retryTimer (b : bool) (s : State) : State :=
  mkState (config s) (pendingRequests s) (isOnline s) b (isActive s)
          (heap s) (promises s) (sweeps s) (clock s) (trace s).
Definition set_isActive (b : bool) (s : State) : State :=
  mkState (config s) (pendingRequests s) (isOnline s) (retryTimer s) b
          (heap s) (promises s) (sweeps s) (clock s) (trace s).
Definition set_heap (h : list PendingRequest) (s : State) : State :=
  mkState (config s) (pendingRequests s) (isOnline s) (retryTimer s)
          (isActive s) h (promises s) (sweeps s) (clock s) (trace s).
Definition set_promises (p : list Promise) (s : State) : State :=
  mkState (config s) (pendingRequests s) (isOnline s) (retryTimer s)
          (isActive s) (heap s) p (sweeps s) (clock s) (trace s).
Definition set_sweeps (w : list (option Sweep)) (s : State) : State :=
  mkState (config s) (pendingRequests s) (isOnline s) (retryTimer s)
          (isActive s) (heap s) (promises s) w (clock s) (trace s).
Definition set_clock (t : Z) (s : State) : State :=
  mkState (config s) (pendingRequests s) (isOnline s) (retryTimer s)
          (isActive s) (heap s) (promises s) (sweeps s) t (trace s).
Definition set_trace (t : list Event) (s : State) : State :=
  mkState (config s) (pendingRequests s) (isOnline s) (retryTimer s)
          (isActive s) (heap s) (promises s) (sweeps s) (clock s) t.

(** [new UniversalApiRetryInterceptor(config)]; [online] is [navigator.onLine]
    and [now] the wall clock at that moment. *)
Definition constructor (c : RetryConfig.t) (online : bool) (now : Z) : State :=
  {| config := constructor_config c;
     pendingRequests := [];
     isOnline := online;
     retryTimer := false;
     isActive := false;
     heap := [];
     promises := [];
     sweeps := [];
     clock := now;
     trace := [] |}.

(* ------------------------------------------------------------------------- *)
(** ** The engine monad: state and JavaScript exceptions *)

Definition Eng (A : Type) : Type := State -> Completion A * State.

Definition ret {A : Type} (a : A) : Eng A := fun s => (Normal a, s).

Definition bind {A B : Type} (m : Eng A) (k : A -> Eng B) : Eng B :=
  fun s =>
    match m s with
    | (Normal a, s') => k a s'
    | (Throw e, s') => (Throw e, s')
    end.

Notation "x <- m ;; k" := (bind m (fun x => k))
  (at level 61, m at next level, right associativity).
Notation "m ;; k" := (bind m (fun _ => k))
  (at level 61, right associativity).

(** [try { body } catch (error) { handler }] *)
Definition try_catch {A : Type} (body : Eng A) (handler : JsError -> Eng A)
  : Eng A :=
  fun s =>
    match body s with
    | (Normal a, s') => (Normal a, s')
    | (Throw e, s') => handler e s'
    end.

(** The outcome of a call of user code, or of an awaited promise. *)
Definition complete {A : Type} (c : Completion A) : Eng A := fun s => (c, s).

Definition gets {A : Type} (f : State -> A) : Eng A := fun s => (Normal (f s), s).

Definition modify (f : State -> State) : Eng unit := fun s => (Normal tt, f s).

Definition when (b : bool) (m : Eng unit) : Eng unit :=
  if b then m else ret tt.

Definition emit (e : Event) : Eng unit :=
  modify (fun s => set_trace (trace s ++ [e]) s).

(** [Date.now()]; the clock stands still while the engine runs. *)
Definition Date_now : Eng Z := gets clock.

(** index.ts, [log]. *)
Definition log (m : LogMessage) : Eng unit :=
  logging <- gets (fun s => enableLogging (config s)) ;;
  when logging (emit (EvLog m)).

(* ------------------------------------------------------------------------- *)
(** ** Request objects and the map of pending requests *)

Fixpoint update_nth {A : Type} (n : nat) (f : A -> A) (l : list A) : list A :=
  match l, n with
  | [], _ => []
  | x :: l', O => f x :: l'
  | x :: l', S n' => x :: update_nth n' f l'
  end.

(** Never read: every address the engine holds comes from [allocate]. *)
Definition blank : PendingRequest :=
  mkPending "" "" (mkInit None None []) 0 0 (ForFetch 0).

Definition object (s : State) (a : nat) : PendingRequest := nth a (heap s) blank.

(** Read the object [a] points to. *)
Definition deref (a : nat) : Eng PendingRequest := gets (fun s => object s a).

(** A new request object; its address. *)
Definition allocate (r : PendingRequest) : Eng nat :=
  fun s => (Normal (List.length (heap s)), set_heap (heap s ++ [r]) s).

Definition set_retryCount (n : Z) (r : PendingRequest) : PendingRequest :=
  mkPending (id r) (url r) (options r) n (timestamp r) (continuations r).
Definition set_timestamp (t : Z) (r : PendingRequest) : PendingRequest :=
  mkPending (id r) (url r) (options r) (retryCount r) t (continuations r).

(** Assignment to a field of the object [a] points to. *)
Definition mutate (a : nat) (f : PendingRequest -> PendingRequest) : Eng unit :=
  modify (fun s => set_heap (update_nth a f (heap s)) s).

(** [Map.prototype.set]: an existing key keeps its place. *)
Fixpoint map_set (k : string) (v : nat) (m : list (string * nat))
  : list (string * nat) :=
  match m with
  | [] => [(k, v)]
  | (k', v') :: m' =>
      if String.eqb k' k then (k, v) :: m' else (k', v') :: map_set k v m'
  end.

(** [Map.prototype.delete] *)
Definition map_delete (k : string) (m : list (string * nat))
  : list (string * nat) :=
  filter (fun kv => negb (String.eqb (fst kv) k)) m.

(** [Array.from(map.values())] *)
Definition map_values (m : list (string * nat)) : list nat := map snd m.

Definition pendingRequests_set (k : string) (a : nat) : Eng unit :=
  modify (fun s => set_pendingRequests (map_set k a (pendingRequests s)) s).

Definition pendingRequests_delete (k : string) : Eng unit :=
  modify (fun s => set_pendingRequests (map_delete k (pendingRequests s)) s).

(** [new Promise(...)]: a fresh pending promise. *)
Definition new_Promise : Eng nat :=
  fun s => (Normal (List.length (promises s)), set_promises (promises s ++ [Pending]) s).

(** The [resolve]/[reject] functions of promise [p]. *)
Definition settle_promise (p : nat) (v : Promise) : Eng unit :=
  modify (fun s =>
    set_promises
      (update_nth p (fun old => match old with Pending => v | _ => old end)
                  (promises s)) s).

(** [error.message !== "INTERCEPTOR_CLEARED"] *)
Definition is_cleared (e : JsError) : bool :=
  opt_string_eqb (message e) "INTERCEPTOR_CLEARED".

(** [request.resolve(response)].  For a request queued by
    [handleFailedRequest] it is the promise's own [resolve].  For one queued
    by [handleFailedXHRRequest] it reads the body, replays [onload] on the
    original XHR and then resolves with no value; reading the body is taken
    to succeed at once. *)
Definition call_resolve (a : nat) (response : Response) : Eng unit :=
  request <- deref a ;;
  emit (EvResolve a request response) ;;
  match continuations request with
  | ForFetch p => settle_promise p (Fulfilled (Some response))
  | ForXHR p xhr =>
      emit (EvXhrReplayLoad xhr response) ;;
      settle_promise p (Fulfilled None)
  end.

(** [request.reject(error)]: the wrapper both handlers install,
    [if (error.message !== "INTERCEPTOR_CLEARED") reject(error)]. *)
Definition call_reject (a : nat) (error : JsError) : Eng unit :=
  request <- deref a ;;
  emit (EvReject a request error) ;;
  when (negb (is_cleared error))
       (settle_promise (promise_of (continuations request)) (Rejected error)).

(** Calls of the configured callbacks, through [this.config]. *)
Definition call_retryCondition (error : option JsError)
    (response : option Response) : Eng bool :=
  f <- gets (fun s => retryCondition (config s)) ;;
  complete (f error response).

Definition call_onRetry (attempt : Z) (info : RequestMetadata) : Eng unit :=
  f <- gets (fun s => onRetry (config s)) ;;
  emit (EvOnRetry attempt info) ;;
  complete (f None attempt info).

Definition call_onMaxRetriesExceeded (error : option JsError)
    (info : RequestMetadata) : Eng unit :=
  f <- gets (fun s => onMaxRetriesExceeded (config s)) ;;
  emit (EvOnMaxRetriesExceeded error info) ;;
  complete (f error info).

(* ------------------------------------------------------------------------- *)
(** ** Queuing a failed request *)

(** index.ts, [handleFailedRequest].  [rid] is the value of
    [generateRequestId()], which draws on [Math.random()].  The result is the
    promise handed to the caller. *)
Definition handleFailedRequest (u : string) (o : RequestInit) (rid : string)
  : Eng nat :=
  p <- new_Promise ;;
  now <- Date_now ;;
  a <- allocate {| id := rid; url := u; options := o; retryCount := 0;
                   timestamp := now; continuations := ForFetch p |} ;;
  pendingRequests_set rid a ;;
  log (LogStored rid u) ;;
  ret p.

(** index.ts, [handleFailedXHRRequest]. *)
Definition handleFailedXHRRequest (u : string) (o : RequestInit) (xhr : nat)
    (rid : string) : Eng nat :=
  p <- new_Promise ;;
  now <- Date_now ;;
  a <- allocate {| id := rid; url := u; options := o; retryCount := 0;
                   timestamp := now; continuations := ForXHR p xhr |} ;;
  pendingRequests_set rid a ;;
  log (LogStoredXHR rid) ;;
  ret p.

(** index.ts, [extractXHRHeaders]. *)
Definition extractXHRHeaders : list (string * string) :=
  [("Content-Type", "application/json")].

(* ------------------------------------------------------------------------- *)
(** ** The sweep (index.ts, [retryPendingRequests]) *)

(** The [catch] block of the loop body. *)
Definition catch_block (a : nat) (error : JsError) : Eng unit :=
  request <- deref a ;;
  max <- gets (fun s => maxRetries (config s)) ;;
  if retryCount request >=? max then
    pendingRequests_delete (id request) ;;
    call_onMaxRetriesExceeded (Some error) (metadata request) ;;
    call_reject a error ;;
    log (LogFailedAfter (id request) (retryCount request) (Some error))
  else
    retryable <- call_retryCondition (Some error) None ;;
    if negb retryable then
      pendingRequests_delete (id request) ;;
      call_reject a error ;;
      log (LogNonRetryable (id request) error)
    else ret tt.

(** How the loop body leaves its first half. *)
Inductive Attempt : Type :=
| NotDue      (* [continue] *)
| Caught      (* [onRetry] threw; the [catch] block ran *)
| Dispatched. (* suspended at [await this.originalMethods.fetch(...)] *)

(** The loop body for the request at [a], up to the [await]. *)
Definition attempt (a : nat) : Eng Attempt :=
  request <- deref a ;;
  now <- Date_now ;;
  delay <- gets (fun s => delayTime (config s)) ;;
  if now - timestamp request <? delay then ret NotDue
  else
    try_catch
      (mutate a (fun r => set_retryCount (retryCount r + 1) r) ;;
       now <- Date_now ;;
       mutate a (set_timestamp now) ;;
       request <- deref a ;;
       call_onRetry (retryCount request) (metadata request) ;;
       max <- gets (fun s => maxRetries (config s)) ;;
       log (LogRetrying (id request) (retryCount request) max) ;;
       emit (EvDispatch a (url request) (options request)) ;;
       ret Dispatched)
      (fun error => catch_block a error ;; ret Caught).

(** The loop body from the [await] on: [outcome] is what the transport
    delivered, a response or a rejection. *)
Definition settle (a : nat) (outcome : Completion Response) : Eng unit :=
  try_catch
    (response <- complete outcome ;;
     request <- deref a ;;
     final <- (if ok response then ret true
               else retryable <- call_retryCondition None (Some response) ;;
                    ret (negb retryable)) ;;
     if final then
       pendingRequests_delete (id request) ;;
       call_resolve a response ;;
       log (LogSucceeded (id request) (retryCount request))
     else
       max <- gets (fun s => maxRetries (config s)) ;;
       if retryCount request >=? max then
         pendingRequests_delete (id request) ;;
         call_onMaxRetriesExceeded None (metadata request) ;;
         call_reject a (new_Error (String.append "Max retries exceeded for " (url request))) ;;
         log (LogFailedAfter (id request) (retryCount request) None)
       else ret tt)
    (catch_block a).

(** The [for] loop over the snapshot, until it suspends or ends. *)
Fixpoint sweep_loop (requestsToRetry : list nat) : Eng (option Sweep) :=
  match requestsToRetry with
  | [] => ret None
  | a :: rest =>
      r <- attempt a ;;
      match r with
      | Dispatched => ret (Some {| current := a; remaining := rest |})
      | NotDue | Caught => sweep_loop rest
      end
  end.

(** An [async] call nobody awaits: a suspended sweep is parked in [slot] (a
    new one at the end when [slot] is [None]); an exception that escapes
    rejects the promise of the call, which nobody handles. *)
Definition park (slot : option nat) (w : option Sweep) (s : State) : State :=
  match slot with
  | None => match w with
            | Some _ => set_sweeps (sweeps s ++ [w]) s
            | None => s
            end
  | Some i => set_sweeps (update_nth i (fun _ => w) (sweeps s)) s
  end.

Definition detached (slot : option nat) (m : Eng (option Sweep)) : Eng unit :=
  fun s =>
    match m s with
    | (Normal w, s') => (Normal tt, park slot w s')
    | (Throw e, s') =>
        (Normal tt,
         park slot None (set_trace (trace s' ++ [EvUncaught e]) s'))
    end.

Definition retryPendingRequests : Eng unit :=
  requestsToRetry <- gets (fun s => map_values (pendingRequests s)) ;;
  detached None (sweep_loop requestsToRetry).

(** The transport settles the dispatch that the sweep in slot [i] awaits. *)
Definition resume (i : nat) (outcome : Completion Response) : Eng unit :=
  w <- gets (fun s => nth i (sweeps s) None) ;;
  match w with
  | None => ret tt
  | Some sw =>
      detached (Some i) (settle (current sw) outcome ;; sweep_loop (remaining sw))
  end.

(* ------------------------------------------------------------------------- *)
(** ** The public methods and the event handlers *)

Fixpoint for_each (l : list nat) (f : nat -> Eng unit) : Eng unit :=
  match l with
  | [] => ret tt
  | a :: l' => f a ;; for_each l' f
  end.

(** index.ts, [clearPendingRequests]. *)
Definition clearPendingRequests : Eng unit :=
  requests <- gets (fun s => map_values (pendingRequests s)) ;;
  for_each requests (fun a => call_reject a (new_Error "INTERCEPTOR_CLEARED")) ;;
  modify (set_pendingRequests []) ;;
  log LogCleared.

(** index.ts, [getPendingRequestsCount]. *)
Definition getPendingRequestsCount (s : State) : nat :=
  List.length (pendingRequests s).

(** types.ts: [InterceptorStatus]. *)
Module InterceptorStatus.
Record t : Type := mk {
  isActive : bool;
  isOnline : bool;
  pendingRequests : nat
}.
End InterceptorStatus.

(** index.ts, [getStatus]. *)
Definition getStatus (s : State) : InterceptorStatus.t :=
  {| InterceptorStatus.isActive := isActive s;
     InterceptorStatus.isOnline := isOnline s;
     InterceptorStatus.pendingRequests := List.length (pendingRequests s) |}.

(** index.ts, [updateConfig]. *)
Definition updateConfig (newConfig : RetryConfig.t) : Eng unit :=
  modify (fun s => set_config (spread (config s) newConfig) s) ;;
  log (LogConfigUpdated newConfig).

(** The closure [retryLoop] of [startRetryLoop]; [setTimeout] arms the timer. *)
Definition retryLoop : Eng unit :=
  online <- gets isOnline ;;
  size <- gets getPendingRequestsCount ;;
  when (online && Nat.ltb 0 size) retryPendingRequests ;;
  modify (set_retryTimer true).

(** index.ts, [start].  Installing the two wrappers and the two listeners
    leaves the state of the engine as it is; they are in place exactly while
    the engine is active. *)
Definition start : Eng unit :=
  active <- gets isActive ;;
  if active then log LogAlreadyActive
  else
    retryLoop ;;
    modify (set_isActive true) ;;
    log LogStarted.

(** index.ts, [stop]. *)
Definition stop : Eng unit :=
  active <- gets isActive ;;
  if negb active then ret tt
  else
    modify (set_retryTimer false) ;;
    clearPendingRequests ;;
    modify (set_isActive false) ;;
    log LogStopped.

(** index.ts, [handleOnline] and [handleOffline]. *)
Definition handleOnline : Eng unit :=
  log LogOnline ;;
  modify (set_isOnline true) ;;
  retryPendingRequests.

Definition handleOffline : Eng unit :=
  log LogOffline ;;
  modify (set_isOnline false).

(** The wrapper [interceptFetch] installs, from the point where the original
    [fetch] has settled with [outcome]. *)
Definition intercepted_fetch (u : string) (init : RequestInit)
    (outcome : Completion Response) (rid : string) : Eng FetchResult :=
  try_catch
    (response <- complete outcome ;;
     retry <- (if negb (ok response)
               then call_retryCondition None (Some response)
               else ret false) ;;
     if retry then
       p <- handleFailedRequest u init rid ;;
       ret (Deferred p false)
     else ret (Immediate (Normal response)))
    (fun error =>
       retry <- call_retryCondition (Some error) None ;;
       if retry then
         p <- handleFailedRequest u init rid ;;
         ret (Deferred p true)
       else complete (Throw error)).

(** What the application that called the wrapped [fetch] has got so far
    ([None]: its promise is still pending).  The guarded case is the inner
    [try { return await ... } catch (retryError) { ... }] of the wrapper. *)
Definition caller_outcome (s : State) (r : FetchResult)
  : option (Completion (option Response)) :=
  match r with
  | Immediate (Normal response) => Some (Normal (Some response))
  | Immediate (Throw e) => Some (Throw e)
  | Deferred p guarded =>
      match nth p (promises s) Pending with
      | Pending => None
      | Fulfilled v => Some (Normal v)
      | Rejected e =>
          if guarded then
            if is_cleared e then
              Some (Normal (Some (mkResponse 499 "Request Cleared" false)))
            else if opt_string_eqb (name e) "MaxRetriesExceeded" then
              Some (Throw (new_Error
                (String.append "Request failed after "
                  (String.append
                     (NilZero.string_of_int (Z.to_int (maxRetries (config s))))
                     " retry attempts"))))
            else Some (Throw e)
          else Some (Throw e)
      end
  end.

(** The [onerror] and [onload] handlers that the wrapped [send] installs on
    the XHR object [xhr]. *)
Definition xhr_onerror (xhr : nat) (requestMethod requestUrl : string)
    (requestData : option string) (rid : string) : Eng unit :=
  retry <- call_retryCondition
             (Some {| name := Some "NetworkError"; message := None |}) None ;;
  if retry then
    handleFailedXHRRequest requestUrl
      {| method := Some requestMethod; body := requestData;
         headers := extractXHRHeaders |} xhr rid ;;
    ret tt
  else emit (EvXhrOriginalOnError xhr).

Definition xhr_onload (xhr : nat) (xhr_status : Z)
    (requestMethod requestUrl : string) (requestData : option string)
    (rid : string) : Eng unit :=
  retry <- (if xhr_status >=? 400
            then call_retryCondition None
                   (Some {| status := xhr_status; statusText := ""; ok := false |})
            else ret false) ;;
  if retry then
    handleFailedXHRRequest requestUrl
      {| method := Some requestMethod; body := requestData;
         headers := extractXHRHeaders |} xhr rid ;;
    ret tt
  else emit (EvXhrOriginalOnLoad xhr).

(* ------------------------------------------------------------------------- *)
(** ** Executions

    One label is one run-to-completion turn of the event loop: a call of a
    public method, a window event, the timer, the settling of a request the
    wrappers or a sweep wait for, or time passing.  The wrappers are closures:
    a request that went through them while the interceptor was active may
    settle after [stop()], so their labels carry no guard. *)
Inductive Label : Type :=
| CallStart
| CallStop
| CallUpdateConfig (newConfig : RetryConfig.t)
| CallClearPendingRequests
| WindowOnline
| WindowOffline
| TimerFires
| TimePasses (d : Z)
| FetchSettles (u : string) (init : RequestInit)
               (outcome : Completion Response) (rid : string)
| XhrError (xhr : nat) (requestMethod requestUrl : string)
           (requestData : option string) (rid : string)
| XhrLoad (xhr : nat) (xhr_status : Z) (requestMethod requestUrl : string)
          (requestData : option string) (rid : string)
| DispatchSettles (i : nat) (outcome : Completion Response).

(** A turn that ends in an exception leaves it to the platform. *)
Definition turn (m : Eng unit) (s : State) : State :=
  match m s with
  | (Normal _, s') => s'
  | (Throw e, s') => set_trace (trace s' ++ [EvUncaught e]) s'
  end.

Definition step (l : Label) (s : State) : State :=
  match l with
  | CallStart => turn start s
  | CallStop => turn stop s
  | CallUpdateConfig newConfig => turn (updateConfig newConfig) s
  | CallClearPendingRequests => turn clearPendingRequests s
  | WindowOnline => if isActive s then turn handleOnline s else s
  | WindowOffline => if isActive s then turn handleOffline s else s
  | TimerFires => if retryTimer s then turn retryLoop s else s
  | TimePasses d => set_clock (clock s + d) s
  | FetchSettles u init outcome rid =>
      turn (try_catch
              (r <- intercepted_fetch u init outcome rid ;;
               emit (EvFetchReturns r))
              (fun e => emit (EvFetchReturns (Immediate (Throw e))))) s
  | XhrError xhr m u d rid => turn (xhr_onerror xhr m u d rid) s
  | XhrLoad xhr st m u d rid => turn (xhr_onload xhr st m u d rid) s
  | DispatchSettles i outcome => turn (resume i outcome) s
  end.

Fixpoint run (ls : list Label) (s : State) : State :=
  match ls with
  | [] => s
  | l :: ls' => run ls' (step l s)
  end.

(* ------------------------------------------------------------------------- *)
(** ** Vocabulary of the properties *)

(** A continuation of a queued request firing. *)
Inductive Fired : Type :=
| Success (response : Response)
| Failure (error : JsError).

(** A firing: the request object, its fields at that moment, the
    continuation and its argument. *)
Definition Firing : Type := (nat * PendingRequest * Fired)%type.

Definition firing (e : Event) : list Firing :=
  match e with
  | EvResolve a request response => [(a, request, Success response)]
  | EvReject a request error => [(a, request, Failure error)]
  | _ => []
  end.

(** The continuations fired along a trace, oldest first. *)
Definition firings (tr : list Event) : list Firing := flat_map firing tr.



(** What [this.log(m)] prints in state [s]. *)
Definition logged (s : State) (m : LogMessage) : list Event :=
  if enableLogging (config s) then [EvLog m] else [].

(** What [request.resolve(response)] does besides settling the promise. *)
Definition replayed (k : Continuations) (response : Response) : list Event :=
  match k with
  | ForFetch _ => []
  | ForXHR _ xhr => [EvXhrReplayLoad xhr response]
  end.

(** What [request.resolve(response)] does to the promises. *)
Definition fulfilled_by (k : Continuations) (response : Response)
    (ps : list Promise) : list Promise :=
  match k with
  | ForFetch p =>
      update_nth p (fun old => match old with
                               | Pending => Fulfilled (Some response)
                               | _ => old
                               end) ps
  | ForXHR p _ =>
      update_nth p (fun old => match old with
                               | Pending => Fulfilled None
                               | _ => old
                               end) ps
  end.

Definition has_key (k : string) (m : list (string * nat)) : bool :=
  existsb (fun kv => String.eqb (fst kv) k) m.

Definition cleared_error : JsError := new_Error "INTERCEPTOR_CLEARED".

Definition network_error : JsError :=
  {| name := Some "NetworkError"; message := None |}.

(** [s.includes(sub)] in words. *)
Definition occurs_in (sub s : string) : Prop :=
  exists pre post, s = String.append pre (String.append sub post).

(** Whether some sweep is suspended at a dispatch. *)
Definition idle (s : State) : bool :=
  forallb (fun w => match w with None => true | Some _ => false end) (sweeps s).

(* ------------------------------------------------------------------------- *)
(** ** Scenarios *)

Definition type_error : JsError :=
  {| name := Some "TypeError"; message := Some "Failed to fetch" |}.
Definition abort_error : JsError :=
  {| name := Some "AbortError"; message := Some "The user aborted a request." |}.
Definition response_404 : Response := mkResponse 404 "Not Found" false.
Definition response_500 : Response := mkResponse 500 "Internal Server Error" false.
Definition response_503 : Response := mkResponse 503 "Service Unavailable" false.
Definition no_init : RequestInit := mkInit None None [].

(** A new interceptor with the default configuration, online, at time 0. *)
Definition fresh : State := constructor RetryConfig.empty true 0.

(** [maxRetries: 1] and nothing else. *)
Definition ceiling_1 : RetryConfig.t :=
  RetryConfig.mk None None (Some 1) None None None None.

(** The interceptor is started and one [fetch] fails with a [TypeError]: the
    request is queued and the caller holds promise 0. *)
Definition one_queued : list Label :=
  [CallStart; FetchSettles "/api/users" no_init (Throw type_error) "r1"].

(** ... then the first sweep dispatches the request. *)
Definition one_in_flight : list Label :=
  one_queued ++ [TimePasses 5000; TimerFires].

(** ... then the attempt answers 500 and the request stays queued with
    [retryCount = 1]. *)
Definition one_retried : list Label :=
  one_in_flight ++ [DispatchSettles 0 (Normal response_500)].




(* ------------------------------------------------------------------------- *)
(** ** Two executions that differ in logging only *)

Definition is_log (e : Event) : bool :=
  match e with
  | EvLog _ => true
  | _ => false
  end.

Definition without_logs (tr : list Event) : list Event :=
  filter (fun e => negb (is_log e)) tr.

(** The configuration with the flag forced off. *)
Definition quiet (c : Config) : Config :=
  mkConfig (delayTime c) (retryInterval c) (maxRetries c) (retryCondition c)
           (onRetry c) (onMaxRetriesExceeded c) false.

(** A state with the flag forced off and what was printed forgotten. *)
Definition unlog (s : State) : State :=
  mkState (quiet (config s)) (pendingRequests s) (isOnline s) (retryTimer s)
          (isActive s) (heap s) (promises s) (sweeps s) (clock s)
          (without_logs (trace s)).

(** A configuration object with the flag left out. *)
Definition flagless (c : RetryConfig.t) : RetryConfig.t :=
  RetryConfig.mk (RetryConfig.delayTime c) (RetryConfig.retryInterval c)
                 (RetryConfig.maxRetries c) (RetryConfig.retryCondition c)
                 (RetryConfig.onRetry c) (RetryConfig.onMaxRetriesExceeded c)
                 None.

Definition flagless_label (l : Label) : Label :=
  match l with
  | CallUpdateConfig newConfig => CallUpdateConfig (flagless newConfig)
  | _ => l
  end.

(** Two computations that, from states equal up to logging, complete alike
    and reach states equal up to logging. *)
Definition Blind {A : Type} (m1 m2 : Eng A) : Prop :=
  forall s1 s2,
    unlog s1 = unlog s2 ->
    fst (m1 s1) = fst (m2 s2) /\ unlog (snd (m1 s1)) = unlog (snd (m2 s2)).

(** [enableLogging: true] and nothing else. *)
Definition logging_on : RetryConfig.t :=
  RetryConfig.mk None None None None None None (Some true).

(* ------------------------------------------------------------------------- *)
(** ** What one request's turn of a sweep may change *)

(** The parts of the state that say which requests are queued, which have
    been settled and how often each was tried are the same. *)
Definition same_view (s s' : State) : Prop :=
  config s' = config s /\ sweeps s' = sweeps s /\ heap s' = heap s
  /\ pendingRequests s' = pendingRequests s
  /\ firings (trace s') = firings (trace s).

(** The request at [a] has been through the end of the loop body: either it
    is kept, untouched and under the ceiling, or its id has been deleted from
    the map and at most one of its continuations has fired. *)
Definition handled (a : nat) (s s' : State) : Prop :=
  config s' = config s /\ sweeps s' = sweeps s /\ heap s' = heap s
  /\ ((pendingRequests s' = pendingRequests s
       /\ firings (trace s') = firings (trace s)
       /\ retryCount (object s a) < maxRetries (config s))
      \/ (pendingRequests s' = map_delete (id (object s a)) (pendingRequests s)
          /\ (firings (trace s') = firings (trace s)
              \/ exists how,
                   firings (trace s')
                   = firings (trace s) ++ [(a, object s a, how)]))).

(** [request.retryCount++; request.timestamp = Date.now()] *)
Definition bump (now : Z) (r : PendingRequest) : PendingRequest :=
  set_timestamp now (set_retryCount (retryCount r + 1) r).

Definition bumped (a : nat) (s : State) : State :=
  set_heap (update_nth a (bump (clock s)) (heap s)) s.

(** A request has been queued under [rid]. *)
Definition enqueued (rid : string) (s s' : State) : Prop :=
  exists r,
    id r = rid /\ retryCount r = 0
    /\ heap s' = heap s ++ [r]
    /\ pendingRequests s'
       = map_set rid (List.length (heap s)) (pendingRequests s)
    /\ config s' = config s /\ sweeps s' = sweeps s
    /\ firings (trace s') = firings (trace s).

(* ------------------------------------------------------------------------- *)
(** ** Executions in which sweeps do not overlap *)

(** The sweeps that are suspended at a dispatch. *)
Definition active (s : State) : list Sweep :=
  flat_map (fun w => match w with Some sw => [sw] | None => [] end) (sweeps s).

(** The requests a suspended sweep still holds. *)
Definition snapshot (w : Sweep) : list nat := current w :: remaining w.














(** The map, the heap, the suspended sweeps and the continuations fired are
    the same. *)
Definition same_shape (s s' : State) : Prop :=
  heap s' = heap s /\ sweeps s' = sweeps s
  /\ pendingRequests s' = pendingRequests s
  /\ firings (trace s') = firings (trace s).












(* ------------------------------------------------------------------------- *)
(** ** Scenarios with overlap *)





(* ------------------------------------------------------------------------- *)
(** ** What reaches the caller of a cleared request *)

(** No promise has been rejected with the [INTERCEPTOR_CLEARED] error. *)
Definition never_cleared (s : State) : Prop :=
  forall p e, nth_error (promises s) p = Some (Rejected e) -> is_cleared e = false.

(** A computation that keeps a property of the state, however it completes. *)
Definition Keeps {A : Type} (P : State -> Prop) (m : Eng A) : Prop :=
  forall s, P s -> P (snd (m s)).


(* ------------------------------------------------------------------------- *)
(** ** The module-level interceptor (index.ts, [globalInterceptor])

    The module keeps one interceptor in the variable [globalInterceptor]
    ([None] is [null]).  The variable refers to an object; the object is
    named here by its state, so a method called on the reference that
    [startGlobalInterceptor] returns acts on the state held here. *)

(** index.ts, [createApiInterceptor]; an absent [config] is [{}]. *)
Definition createApiInterceptor (config : option RetryConfig.t)
    (online : bool) (now : Z) : State :=
  constructor (nullish config RetryConfig.empty) online now.

(** index.ts, [startGlobalInterceptor]: the new value of [globalInterceptor],
    which is also the interceptor returned. *)
Definition startGlobalInterceptor (config : option RetryConfig.t)
    (online : bool) (now : Z) (globalInterceptor : option State)
  : option State :=
  let interceptor :=
    match globalInterceptor with
    | None => constructor (nullish config RetryConfig.empty) online now
    | Some i => i
    end in
  Some (step CallStart interceptor).

(** index.ts, [stopGlobalInterceptor]. *)
Definition stopGlobalInterceptor (globalInterceptor : option State)
  : option State :=
  match globalInterceptor with
  | Some i => Some (step CallStop i)
  | None => None
  end.

(** index.ts, [getGlobalInterceptor]. *)
Definition getGlobalInterceptor (globalInterceptor : option State)
  : option State :=
  globalInterceptor.

(* ------------------------------------------------------------------------- *)
(** ** Further vocabulary *)



(** The retry condition in force is [defaultRetryCondition]. *)
Definition default_policy (s : State) : Prop :=
  forall e r, retryCondition (config s) e r = Normal (defaultRetryCondition e r).

(** The calls of the transport made by sweeps, oldest first: the request,
    the url and the options. *)
Definition dispatch (e : Event) : list (nat * string * RequestInit) :=
  match e with
  | EvDispatch a u o => [(a, u, o)]
  | _ => []
  end.

Definition dispatches (tr : list Event) : list (nat * string * RequestInit) :=
  flat_map dispatch tr.

(** How often the request at [a] has been dispatched. *)
Definition attempts (a : nat) (tr : list Event) : nat :=
  List.length (filter (fun d => Nat.eqb (fst (fst d)) a) (dispatches tr)).

(** The calls of [onRetry] and [onMaxRetriesExceeded], oldest first. *)
Definition callback (e : Event) : list Event :=
  match e with
  | EvOnRetry _ _ => [e]
  | EvOnMaxRetriesExceeded _ _ => [e]
  | _ => []
  end.

Definition callbacks (tr : list Event) : list Event := flat_map callback tr.

(** The request at [a] is due: its last attempt is [delayTime] ago or more. *)
Definition due (s : State) (a : nat) : bool :=
  negb (clock s - timestamp (object s a) <? delayTime (config s)).

(** The request object that both handlers build for a failed request. *)
Definition new_request (rid u : string) (o : RequestInit) (now : Z)
    (k : Continuations) : PendingRequest :=
  {| id := rid; url := u; options := o; retryCount := 0; timestamp := now;
     continuations := k |}.

(** The options the XHR handlers give a queued request. *)
Definition xhr_options (requestMethod : string) (requestData : option string)
  : RequestInit :=
  {| method := Some requestMethod; body := requestData;
     headers := [("Content-Type", "application/json")] |}.

(** A computation that leaves a view of the state as it was, however it
    completes. *)
Definition Stable {X A : Type} (view : State -> X) (m : Eng A) : Prop :=
  forall s, view (snd (m s)) = view s.

(** What a turn that runs no sweep leaves alone: the calls of the transport,
    the calls of the two retry callbacks and the suspended sweeps. *)
Definition retry_view (s : State)
  : list (nat * string * RequestInit) * list Event * list (option Sweep) :=
  (dispatches (trace s), callbacks (trace s), sweeps s).

(** The calls of the transport and the suspended sweeps. *)
Definition transport_view (s : State)
  : list (nat * string * RequestInit) * list (option Sweep) :=
  (dispatches (trace s), sweeps s).

(** From [s] to [s'] the transport has been called at most once, and if it
    has, a sweep is suspended in [s']. *)
Definition at_most_once (s s' : State) : Prop :=
  exists ds,
    dispatches (trace s') = dispatches (trace s) ++ ds
    /\ (List.length ds <= 1)%nat
    /\ (ds <> [] -> idle s' = false).

(** By how much the counter of the request at [b] is ahead of the number of
    times it has been dispatched. *)
Definition slack (s : State) (b : nat) : Z :=
  retryCount (object s b) - Z.of_nat (attempts b (trace s)).

(** The map and the suspended sweeps hold addresses of request objects. *)
Definition Allocated (s : State) : Prop :=
  (forall a, In a (map_values (pendingRequests s)) ->
             (a < List.length (heap s))%nat)
  /\ (forall w, In w (active s) ->
      forall a, In a (snapshot w) -> (a < List.length (heap s))%nat).

(** No request has been dispatched more often than its counter says. *)
Definition Counted (s : State) : Prop := forall b, 0 <= slack s b.

(** What a turn that is neither [start], [stop], a window event nor the
    timer leaves alone besides. *)
Definition quiet_view (s : State)
  : list (nat * string * RequestInit) * list Event * list (option Sweep)
    * bool * bool * bool :=
  (retry_view s, isActive s, retryTimer s, isOnline s).

(** The interceptor is stopped and no sweep is suspended. *)
Definition at_rest (s : State) : Prop :=
  isActive s = false /\ retryTimer s = false /\ idle s = true.

(** The interceptor believes the network is down and no sweep is suspended. *)
Definition cut_off (s : State) : Prop :=
  isOnline s = false /\ idle s = true.

(** The configuration and the belief about the network. *)
Definition settings (s : State) : Config * bool := (config s, isOnline s).

(* ------------------------------------------------------------------------- *)
(** ** Requests and the promises of their callers *)

(** What [resolve] and [reject] do to a promise: one that is settled stays
    as it is. *)
Definition settled_with (v : Promise) (old : Promise) : Promise :=
  match old with
  | Pending => v
  | _ => old
  end.

(** The promise that the continuations of the request at [a] settle. *)
Definition promise (s : State) (a : nat) : nat :=
  promise_of (continuations (object s a)).

(** The request objects, the map and the promises. *)
Definition store_view (s : State)
  : list PendingRequest * list (string * nat) * list Promise :=
  (heap s, pendingRequests s, promises s).

(** The end of the loop body for the request at [a], as the store sees it:
    nothing changes; or the id of the request is deleted from the map and at
    most its own promise is settled. *)
Definition resolved (a : nat) (s s' : State) : Prop :=
  heap s' = heap s
  /\ ((pendingRequests s' = pendingRequests s /\ promises s' = promises s)
      \/ (pendingRequests s' = map_delete (id (object s a)) (pendingRequests s)
          /\ (promises s' = promises s
              \/ exists v,
                   promises s'
                   = update_nth (promise s a) (settled_with v) (promises s)))).

(** A request has been queued under [rid] with a new promise. *)
Definition queued (rid : string) (s s' : State) : Prop :=
  exists r,
    id r = rid
    /\ promise_of (continuations r) = List.length (promises s)
    /\ heap s' = heap s ++ [r]
    /\ pendingRequests s'
       = map_set rid (List.length (heap s)) (pendingRequests s)
    /\ promises s' = promises s ++ [Pending].

(** Every request in the map is an object that carries the id it is filed
    under; every object has a promise of its own; and the promise of a
    request in the map is pending. *)
Definition Held (s : State) : Prop :=
  (forall k a, In (k, a) (pendingRequests s) ->
               (a < List.length (heap s))%nat /\ id (object s a) = k)
  /\ (forall a, (a < List.length (heap s))%nat ->
                (promise s a < List.length (promises s))%nat)
  /\ (forall a b, (a < List.length (heap s))%nat ->
                  (b < List.length (heap s))%nat ->
                  promise s a = promise s b -> a = b)
  /\ (forall k a, In (k, a) (pendingRequests s) ->
                  nth_error (promises s) (promise s a) = Some Pending).

(** The promise [p] has been settled as [v]. *)
Definition settled_as (p : nat) (v : Promise) (s : State) : Prop :=
  v <> Pending /\ nth_error (promises s) p = Some v.

(** The event [e] has happened. *)
Definition happened (e : Event) (s : State) : Prop := In e (trace s).



(* ------------------------------------------------------------------------- *)
(** ** Strings *)

Lemma prefix_true_iff (p s : string) :
  prefix p s = true <-> exists post, s = String.append p post.
Proof.
  revert s; induction p as [|c p IH]; intros s; simpl.
  - split; [intros _; now exists s | now destruct s].
  - destruct s as [|d s]; simpl.
    + split; [discriminate | intros [post H]; discriminate].
    + destruct (Ascii.ascii_dec c d) as [Hcd|Hcd].
      * subst d. rewrite IH. split; intros [post H]; exists post.
        -- now rewrite H.
        -- now inversion H.
      * split; [discriminate | intros [post H]; inversion H; congruence].
Qed.

Lemma includes_true_iff (s sub : string) :
  includes s sub = true <-> occurs_in sub s.
Proof.
  unfold occurs_in.
  induction s as [|c s IH].
  - change (includes "" sub) with (if prefix sub "" then true else false).
    destruct (prefix sub "") eqn:Hp.
    + split; [intros _ | reflexivity].
      apply prefix_true_iff in Hp as [post Hp]. now exists "", post.
    + split; [discriminate |].
      intros [pre [post H]].
      destruct pre; simpl in H; [|discriminate].
      assert (prefix sub "" = true) by (apply prefix_true_iff; now exists post).
      congruence.
  - change (includes (String c s) sub)
      with (if prefix sub (String c s) then true else includes s sub).
    destruct (prefix sub (String c s)) eqn:Hp.
    + split; [intros _ | reflexivity].
      apply prefix_true_iff in Hp as [post Hp]. now exists "", post.
    + rewrite IH. split.
      * intros [pre [post H]]. exists (String c pre), post. simpl. now rewrite H.
      * intros [pre [post H]].
        destruct pre as [|d pre]; simpl in H.
        -- assert (prefix sub (String c s) = true)
             by (apply prefix_true_iff; now exists post).
           congruence.
        -- inversion H; subst. now exists pre, post.
Qed.

Lemma includes_false_iff (s sub : string) :
  includes s sub = false <-> ~ occurs_in sub s.
Proof.
  rewrite <- includes_true_iff. destruct (includes s sub); split; congruence.
Qed.

(* ------------------------------------------------------------------------- *)
(** ** The default retry condition *)

Lemma default_on_response (e : option JsError) (r : Response) :
  defaultRetryCondition e (Some r)
  = (status r >=? 500) || (status r =? 408) || (status r =? 429)
    || (status r =? 0).
Proof. reflexivity. Qed.

Lemma default_without_response (e : option JsError) :
  defaultRetryCondition e None = connectivity_class e.
Proof. unfold defaultRetryCondition. simpl. now destruct (connectivity_class e). Qed.

Lemma constructor_default_condition (c : RetryConfig.t) :
  RetryConfig.retryCondition c = None ->
  retryCondition (constructor_config c)
  = fun e r => Normal (defaultRetryCondition e r).
Proof. intros H. unfold constructor_config. simpl. now rewrite H. Qed.

(** C5.  With no [retryCondition] configured, the predicate in force is the
    default one; it accepts every response whose status is at least 500, or
    408, 429 or 0 (so 503), refuses status 404, and accepts a failure without
    response whose error is named [TypeError] or whose message contains
    [fetch]. *)
Theorem C5_default_retry_condition (c : RetryConfig.t) :
  RetryConfig.retryCondition c = None ->
  let policy := retryCondition (constructor_config c) in
  (forall e r,
      status r >= 500 \/ status r = 408 \/ status r = 429 \/ status r = 0 ->
      policy e (Some r) = Normal true)
  /\ (forall e r, status r = 503 -> policy e (Some r) = Normal true)
  /\ (forall e r, status r = 404 -> policy e (Some r) = Normal false)
  /\ (forall e,
        name e = Some "TypeError"
        \/ (exists m, message e = Some m /\ occurs_in "fetch" m) ->
        policy (Some e) None = Normal true).
Proof.
  intros Hc policy. unfold policy. rewrite (constructor_default_condition c Hc).
  repeat split.
  - intros e r H. f_equal. rewrite default_on_response.
    repeat rewrite orb_true_iff.
    rewrite Z.geb_le, !Z.eqb_eq. lia.
  - intros e r H. f_equal. rewrite default_on_response, H. reflexivity.
  - intros e r H. f_equal. rewrite default_on_response, H. reflexivity.
  - intros e H. f_equal. rewrite default_without_response. simpl.
    destruct H as [H | [m [Hm Hocc]]].
    + rewrite H. reflexivity.
    + rewrite Hm. apply includes_true_iff in Hocc. rewrite Hocc.
      apply orb_true_r.
Qed.

Lemma C5_default_retry_condition_witness :
  retryCondition (constructor_config RetryConfig.empty) None
                 (Some (mkResponse 503 "Service Unavailable" false))
  = Normal true
  /\ retryCondition (constructor_config RetryConfig.empty) None
                    (Some (mkResponse 404 "Not Found" false))
     = Normal false
  /\ retryCondition (constructor_config RetryConfig.empty)
                    (Some (mkError (Some "TypeError") (Some "Failed to fetch")))
                    None
     = Normal true.
Proof.
  destruct (C5_default_retry_condition RetryConfig.empty eq_refl)
    as [_ [H503 [H404 Hnet]]].
  split; [apply H503; reflexivity |].
  split; [apply H404; reflexivity |].
  apply Hnet. left. reflexivity.
Defined.

(** C10.  With no [retryCondition] configured, an error without response
    that is not named [TypeError] and whose message does not contain [fetch]
    is refused; so is the value [{ name: "NetworkError" }] that the XHR
    [onerror] handler passes; and under that policy the handler queues
    nothing: it leaves the state as it is and calls the original handler. *)
Theorem C10_default_refuses_other_errors (c : RetryConfig.t) :
  RetryConfig.retryCondition c = None ->
  let policy := retryCondition (constructor_config c) in
  (forall e,
      name e <> Some "TypeError" ->
      (forall m, message e = Some m -> ~ occurs_in "fetch" m) ->
      policy (Some e) None = Normal false)
  /\ policy (Some network_error) None = Normal false
  /\ (forall s xhr m u d rid,
        retryCondition (config s) = policy ->
        xhr_onerror xhr m u d rid s
        = (Normal tt, set_trace (trace s ++ [EvXhrOriginalOnError xhr]) s)
        /\ pendingRequests (step (XhrError xhr m u d rid) s) = pendingRequests s).
Proof.
  intros Hc policy. unfold policy. rewrite (constructor_default_condition c Hc).
  split; [|split].
  - intros e Hname Hmsg. f_equal. rewrite default_without_response. simpl.
    apply orb_false_iff. split.
    + destruct (name e) as [n|]; simpl; [|reflexivity].
      apply String.eqb_neq. congruence.
    + destruct (message e) as [m|] eqn:Hm; [|reflexivity].
      apply includes_false_iff. now apply Hmsg.
  - reflexivity.
  - intros s xhr m u d rid Hs.
    assert (Hrun : xhr_onerror xhr m u d rid s
                   = (Normal tt, set_trace (trace s ++ [EvXhrOriginalOnError xhr]) s)).
    { unfold xhr_onerror, call_retryCondition, bind, gets, complete.
      rewrite Hs. reflexivity. }
    split; [exact Hrun |].
    unfold step, turn. rewrite Hrun. reflexivity.
Qed.

Lemma C10_default_refuses_other_errors_witness :
  retryCondition (constructor_config RetryConfig.empty)
                 (Some (mkError (Some "AbortError") (Some "The user aborted a request.")))
                 None
  = Normal false
  /\ pendingRequests
       (step (XhrError 0 "GET" "/api/comments" None "k3x9")
             (constructor RetryConfig.empty true 0))
     = [].
Proof.
  destruct (C10_default_refuses_other_errors RetryConfig.empty eq_refl)
    as [Hother [_ Hxhr]].
  split.
  - apply Hother.
    + discriminate.
    + intros m Hm. apply includes_false_iff. inversion Hm. reflexivity.
  - apply (Hxhr (constructor RetryConfig.empty true 0)). reflexivity.
Defined.

(* ------------------------------------------------------------------------- *)
(** ** One request in a sweep *)

(** C6.  A request whose last attempt is less than [delayTime] ago is skipped
    by the sweep that reaches it: the state, hence its [retryCount], its
    [timestamp] and the trace (no [onRetry], no dispatch), stays as it was and
    the loop goes on with the next request.  A request the sweep does dispatch
    was due. *)
Theorem C6_not_due_is_skipped (s : State) (a : nat) :
  (clock s - timestamp (object s a) < delayTime (config s) ->
   attempt a s = (Normal NotDue, s)
   /\ forall rest, sweep_loop (a :: rest) s = sweep_loop rest s)
  /\ (forall s', attempt a s = (Normal Dispatched, s') ->
      clock s - timestamp (object s a) >= delayTime (config s)).
Proof.
  split.
  - intros H. apply Z.ltb_lt in H.
    assert (Ha : attempt a s = (Normal NotDue, s)).
    { unfold attempt, bind, deref, Date_now, gets. rewrite H. reflexivity. }
    split; [exact Ha |].
    intros rest. simpl. unfold bind at 1. rewrite Ha. reflexivity.
  - intros s' H.
    destruct (clock s - timestamp (object s a) <? delayTime (config s)) eqn:E.
    + unfold attempt, bind, deref, Date_now, gets in H. rewrite E in H.
      discriminate.
    + apply Z.ltb_ge in E. lia.
Qed.

Lemma C6_not_due_is_skipped_witness :
  attempt 0 (run one_queued fresh) = (Normal NotDue, run one_queued fresh).
Proof.
  apply (C6_not_due_is_skipped (run one_queued fresh) 0).
  vm_compute. reflexivity.
Defined.

(** Unfolds the engine's primitives so that a computation can be run on a
    symbolic state. *)
Ltac run_engine :=
  unfold settle, catch_block, attempt, call_resolve, call_reject,
    call_retryCondition, call_onRetry, call_onMaxRetriesExceeded,
    pendingRequests_delete, pendingRequests_set, settle_promise, mutate, log,
    emit, when, try_catch, bind, complete, deref, Date_now, gets, modify, ret,
    object, logged.

Lemma nth_error_update_nth_eq {A : Type} (f : A -> A) (l : list A) (n : nat) (x : A) :
  nth_error l n = Some x -> nth_error (update_nth n f l) n = Some (f x).
Proof.
  revert n; induction l as [|y l IH]; intros [|n] H; simpl in *;
    try discriminate.
  - now inversion H.
  - now apply IH.
Qed.

Lemma nth_error_update_nth_neq {A : Type} (f : A -> A) (l : list A) (n m : nat) :
  n <> m -> nth_error (update_nth n f l) m = nth_error l m.
Proof.
  revert n m; induction l as [|y l IH]; intros [|n] [|m] H; simpl;
    try reflexivity; try congruence.
  apply IH. congruence.
Qed.

Lemma length_update_nth {A : Type} (f : A -> A) (l : list A) (n : nat) :
  List.length (update_nth n f l) = List.length l.
Proof.
  revert n; induction l as [|y l IH]; intros [|n]; simpl; try reflexivity.
  now rewrite IH.
Qed.

Lemma nth_update_nth_eq {A : Type} (f : A -> A) (l : list A) (n : nat) (d : A) :
  (n < List.length l)%nat -> nth n (update_nth n f l) d = f (nth n l d).
Proof.
  revert n; induction l as [|y l IH]; intros [|n] H; simpl in *;
    try lia; try reflexivity.
  apply IH. lia.
Qed.

Lemma nth_update_nth_neq {A : Type} (f : A -> A) (l : list A) (n m : nat) (d : A) :
  n <> m -> nth m (update_nth n f l) d = nth m l d.
Proof.
  revert n m; induction l as [|y l IH]; intros [|n] [|m] H; simpl;
    try reflexivity; try congruence.
  apply IH. congruence.
Qed.

Lemma has_key_map_delete (k : string) (m : list (string * nat)) :
  has_key k (map_delete k m) = false.
Proof.
  unfold has_key, map_delete.
  induction m as [|[k' v] m IH]; simpl; [reflexivity |].
  destruct (String.eqb k' k) eqn:E; simpl; [exact IH |].
  now rewrite E.
Qed.

(** Whether the response makes the sweep hand the request back:
    [response.ok || !this.config.retryCondition(null, response)]. *)
Lemma final_response (s : State) (response : Response) :
  ok response = true \/
  retryCondition (config s) None (Some response) = Normal false ->
  (if ok response then ret true
   else retryable <- call_retryCondition None (Some response) ;;
        ret (negb retryable)) s = (Normal true, s).
Proof.
  intros H. destruct (ok response); [reflexivity |].
  destruct H as [H | H]; [discriminate |].
  unfold call_retryCondition, bind, gets, complete, ret. now rewrite H.
Qed.

Lemma retryable_response (s : State) (response : Response) :
  ok response = false ->
  retryCondition (config s) None (Some response) = Normal true ->
  (if ok response then ret true
   else retryable <- call_retryCondition None (Some response) ;;
        ret (negb retryable)) s = (Normal false, s).
Proof.
  intros Hok H. rewrite Hok.
  unfold call_retryCondition, bind, gets, complete, ret. now rewrite H.
Qed.

Lemma firings_app (t u : list Event) : firings (t ++ u) = firings t ++ firings u.
Proof. unfold firings. apply flat_map_app. Qed.

Lemma firings_logged (s : State) (m : LogMessage) : firings (logged s m) = [].
Proof. unfold logged. now destruct (enableLogging (config s)). Qed.

(** The second half of the loop body, for a response that ends the retries. *)
Lemma settle_final (s : State) (a : nat) (response : Response) :
  ok response = true \/
  retryCondition (config s) None (Some response) = Normal false ->
  let request := object s a in
  exists s',
    settle a (Normal response) s = (Normal tt, s')
    /\ pendingRequests s' = map_delete (id request) (pendingRequests s)
    /\ trace s'
       = trace s ++ EvResolve a request response
                 :: replayed (continuations request) response
                 ++ logged s (LogSucceeded (id request) (retryCount request))
    /\ promises s' = fulfilled_by (continuations request) response (promises s)
    /\ heap s' = heap s /\ config s' = config s /\ sweeps s' = sweeps s.
Proof.
  intros H request. subst request.
  pose proof (final_response s response H) as E.
  unfold settle, try_catch. unfold bind at 1. unfold complete at 1.
  unfold bind at 1. unfold deref at 1, gets at 1.
  unfold bind at 1. rewrite E.
  run_engine. simpl.
  destruct (continuations (nth a (heap s) blank)) as [p | p xhr] eqn:K; simpl;
    destruct (enableLogging (config s)); simpl;
    eexists; (split; [reflexivity |]); simpl;
    repeat split; rewrite <- ?app_assoc; reflexivity.
Qed.

Lemma firings_replayed (k : Continuations) (response : Response) :
  firings (replayed k response) = [].
Proof. now destruct k. Qed.

(** C7.  When the dispatch of a sweep returns a response that is [ok], or one
    for which the retry condition returns false, the request is deleted from
    the map and its success continuation fires with that response, nothing
    else being called; the promise of a request queued by the fetch wrapper, if
    still pending, is fulfilled with that response. *)
Theorem C7_final_response_resolves (s : State) (a : nat) (response : Response) :
  ok response = true \/
  retryCondition (config s) None (Some response) = Normal false ->
  let request := object s a in
  exists s',
    settle a (Normal response) s = (Normal tt, s')
    /\ pendingRequests s' = map_delete (id request) (pendingRequests s)
    /\ has_key (id request) (pendingRequests s') = false
    /\ trace s'
       = trace s ++ EvResolve a request response
                 :: replayed (continuations request) response
                 ++ logged s (LogSucceeded (id request) (retryCount request))
    /\ firings (trace s') = firings (trace s) ++ [(a, request, Success response)]
    /\ (forall p, continuations request = ForFetch p ->
                  nth_error (promises s) p = Some Pending ->
                  nth_error (promises s') p = Some (Fulfilled (Some response))).
Proof.
  intros H request.
  destruct (settle_final s a response H)
    as [s' [Hrun [Hmap [Htr [Hpr _]]]]].
  fold request in Hmap, Htr, Hpr.
  exists s'. split; [exact Hrun |]. split; [exact Hmap |].
  split; [rewrite Hmap; apply has_key_map_delete |].
  split; [exact Htr |]. split.
  - rewrite Htr, firings_app. simpl.
    now rewrite firings_app, firings_replayed, firings_logged.
  - intros p Hk Hp. rewrite Hpr, Hk. simpl.
    now rewrite (nth_error_update_nth_eq _ _ _ _ Hp).
Qed.





Lemma settle_throw (s : State) (a : nat) (error : JsError) :
  settle a (Throw error) s = catch_block a error s.
Proof. reflexivity. Qed.





Lemma C7_final_response_resolves_witness :
  exists s',
    settle 0 (Normal response_404) (run one_in_flight fresh) = (Normal tt, s')
    /\ has_key "r1" (pendingRequests s') = false
    /\ firings (trace s')
       = [(0%nat, object (run one_in_flight fresh) 0, Success response_404)].
Proof.
  destruct (C7_final_response_resolves (run one_in_flight fresh) 0 response_404)
    as [s' [Hrun [_ [Hkey [_ [Hfir _]]]]]].
  - right. reflexivity.
  - exists s'. split; [exact Hrun |]. split; [exact Hkey | exact Hfir].
Defined.


(* ------------------------------------------------------------------------- *)
(** ** Clearing *)

Lemma set_trace_same (s : State) : set_trace (trace s) s = s.
Proof. now destruct s. Qed.

Lemma for_each_reject_cleared (l : list nat) (s : State) :
  for_each l (fun a => call_reject a cleared_error) s
  = (Normal tt,
     set_trace (trace s ++ map (fun a => EvReject a (object s a) cleared_error) l) s).
Proof.
  revert s; induction l as [|a l IH]; intros s; simpl.
  - unfold ret. now rewrite app_nil_r, set_trace_same.
  - unfold bind at 1.
    assert (E : call_reject a cleared_error s
                = (Normal tt,
                   set_trace (trace s ++ [EvReject a (object s a) cleared_error]) s))
      by reflexivity.
    rewrite E, IH. simpl. now rewrite <- app_assoc.
Qed.


(** C1, at the failing input.  One request queued by the fetch wrapper, then
    [clearPendingRequests()]: the count is 0 and the request's failure
    continuation has been called with the [INTERCEPTOR_CLEARED] error and
    nothing else, but the continuation swallows that error: the promise the
    caller awaits is still pending, so the caller has no outcome, and the
    sweep will never settle it since the map is empty.  [stop()] leaves the
    caller in the same position. *)
Theorem C1_cleared_caller_left_pending :
  let before := run one_queued fresh in
  let after := step CallClearPendingRequests before in
  getPendingRequestsCount before = 1%nat
  /\ getPendingRequestsCount after = 0%nat
  /\ firings (trace after) = [(0%nat, object before 0, Failure cleared_error)]
  /\ In (EvFetchReturns (Deferred 0 true)) (trace before)
  /\ nth_error (promises after) 0 = Some Pending
  /\ caller_outcome after (Deferred 0 true) = None
  /\ caller_outcome (step CallStop before) (Deferred 0 true) = None.
Proof. vm_compute. repeat split. now left. Qed.

(* ------------------------------------------------------------------------- *)
(** ** Lowering the ceiling *)





(* ------------------------------------------------------------------------- *)
(** ** The cleared error never reaches a promise *)

Section Keeping.

Variable P : State -> Prop.

Lemma Keeps_ret {A : Type} (a : A) : Keeps P (ret a).
Proof. intros s H. exact H. Qed.

Lemma Keeps_bind {A B : Type} (m : Eng A) (k : A -> Eng B) :
  Keeps P m -> (forall a, Keeps P (k a)) -> Keeps P (bind m k).
Proof.
  intros Hm Hk s H. unfold bind. specialize (Hm s H).
  destruct (m s) as [[a|e] s1]; simpl in *; [now apply Hk | exact Hm].
Qed.

Lemma Keeps_try_catch {A : Type} (m : Eng A) (h : JsError -> Eng A) :
  Keeps P m -> (forall e, Keeps P (h e)) -> Keeps P (try_catch m h).
Proof.
  intros Hm Hh s H. unfold try_catch. specialize (Hm s H).
  destruct (m s) as [[a|e] s1]; simpl in *; [exact Hm | now apply Hh].
Qed.

Lemma Keeps_complete {A : Type} (c : Completion A) : Keeps P (complete c).
Proof. intros s H. exact H. Qed.

Lemma Keeps_gets {A : Type} (f : State -> A) : Keeps P (gets f).
Proof. intros s H. exact H. Qed.

Lemma Keeps_when (b : bool) (m : Eng unit) : Keeps P m -> Keeps P (when b m).
Proof. intros H. destruct b; [exact H | apply Keeps_ret]. Qed.

Lemma Keeps_for_each (l : list nat) (f : nat -> Eng unit) :
  (forall a, Keeps P (f a)) -> Keeps P (for_each l f).
Proof.
  intros Hf. induction l as [|a l IH]; simpl.
  - apply Keeps_ret.
  - apply Keeps_bind; [apply Hf | intros _; exact IH].
Qed.

Lemma Keeps_detached (slot : option nat) (m : Eng (option Sweep)) :
  (forall s w, P s -> P (park slot w s)) ->
  (forall s e, P s -> P (set_trace (trace s ++ [EvUncaught e]) s)) ->
  Keeps P m -> Keeps P (detached slot m).
Proof.
  intros Hpark Hev Hm s H. unfold detached. specialize (Hm s H).
  destruct (m s) as [[w|e] s1]; simpl in *; auto.
Qed.

End Keeping.

Lemma nth_error_update_nth_None {A : Type} (f : A -> A) (l : list A) (n m : nat) :
  nth_error l m = None -> nth_error (update_nth n f l) m = None.
Proof.
  rewrite !nth_error_None, length_update_nth. tauto.
Qed.

Lemma never_cleared_settle (p : nat) (v : Promise) :
  (forall e, v = Rejected e -> is_cleared e = false) ->
  Keeps never_cleared (settle_promise p v).
Proof.
  intros Hv s H q e. unfold settle_promise, modify. simpl.
  destruct (Nat.eq_dec p q) as [<- | Hpq].
  - destruct (nth_error (promises s) p) as [x|] eqn:E.
    + rewrite (nth_error_update_nth_eq _ _ _ _ E).
      destruct x; intros Hq; inversion Hq; subst;
        [now apply Hv | now apply (H p)].
    + now rewrite nth_error_update_nth_None.
  - rewrite nth_error_update_nth_neq by exact Hpq. apply H.
Qed.

Lemma never_cleared_new_Promise : Keeps never_cleared new_Promise.
Proof.
  intros s H q e. unfold new_Promise. simpl.
  destruct (Nat.lt_ge_cases q (List.length (promises s))) as [Hq | Hq].
  - rewrite nth_error_app1 by exact Hq. apply H.
  - rewrite nth_error_app2 by exact Hq.
    destruct (q - List.length (promises s))%nat as [|[|n]]; discriminate.
Qed.

(** Decomposes a computation along its syntax; what is left are the
    assignments, which do not touch the promises. *)
Ltac keeps_step :=
  match goal with
  | |- Keeps _ (bind _ _) => apply Keeps_bind; [| intro]
  | |- Keeps _ (try_catch _ _) => apply Keeps_try_catch; [| intro]
  | |- Keeps _ (ret _) => apply Keeps_ret
  | |- Keeps _ (complete _) => apply Keeps_complete
  | |- Keeps _ (gets _) => apply Keeps_gets
  | |- Keeps _ (when _ _) => apply Keeps_when
  | |- Keeps _ (for_each _ _) => apply Keeps_for_each; intro
  | |- Keeps _ new_Promise => apply never_cleared_new_Promise
  | |- Keeps _ (settle_promise _ (Fulfilled _)) =>
      apply never_cleared_settle; discriminate
  | |- Keeps _ (modify _) => let H := fresh in intros ? H; exact H
  | |- Keeps _ (allocate _) => let H := fresh in intros ? H; exact H
  | |- Keeps _ (if ?b then _ else _) => destruct b
  | |- Keeps _ (match ?x with _ => _ end) => destruct x
  end.

Ltac keeps :=
  unfold call_retryCondition, call_onRetry, call_onMaxRetriesExceeded,
    pendingRequests_set, pendingRequests_delete, mutate, deref, Date_now;
  unfold log; unfold emit;
  repeat keeps_step.

Lemma never_cleared_call_reject (a : nat) (e : JsError) :
  Keeps never_cleared (call_reject a e).
Proof.
  unfold call_reject.
  apply Keeps_bind; [keeps | intros request].
  apply Keeps_bind; [keeps | intros _].
  destruct (is_cleared e) eqn:E; unfold when; simpl; [apply Keeps_ret |].
  apply never_cleared_settle. intros e' He'. now injection He' as <-.
Qed.

Lemma never_cleared_call_resolve (a : nat) (r : Response) :
  Keeps never_cleared (call_resolve a r).
Proof. unfold call_resolve. keeps. Qed.

Lemma never_cleared_catch_block (a : nat) (e : JsError) :
  Keeps never_cleared (catch_block a e).
Proof. unfold catch_block. keeps; apply never_cleared_call_reject. Qed.

Lemma never_cleared_attempt (a : nat) : Keeps never_cleared (attempt a).
Proof. unfold attempt. keeps; apply never_cleared_catch_block. Qed.

Lemma never_cleared_settle_request (a : nat) (o : Completion Response) :
  Keeps never_cleared (settle a o).
Proof.
  unfold settle. keeps;
    first [apply never_cleared_catch_block | apply never_cleared_call_resolve
          | apply never_cleared_call_reject].
Qed.

Lemma never_cleared_sweep_loop (l : list nat) : Keeps never_cleared (sweep_loop l).
Proof.
  induction l as [|a l IH]; simpl.
  - apply Keeps_ret.
  - apply Keeps_bind; [apply never_cleared_attempt |].
    intros [| |]; try exact IH. apply Keeps_ret.
Qed.

Lemma never_cleared_detached (slot : option nat) (m : Eng (option Sweep)) :
  Keeps never_cleared m -> Keeps never_cleared (detached slot m).
Proof.
  apply Keeps_detached.
  - intros s w H. now destruct slot, w.
  - intros s e H. exact H.
Qed.

Lemma never_cleared_retryPendingRequests : Keeps never_cleared retryPendingRequests.
Proof.
  unfold retryPendingRequests. keeps.
  apply never_cleared_detached, never_cleared_sweep_loop.
Qed.

Lemma never_cleared_resume (i : nat) (o : Completion Response) :
  Keeps never_cleared (resume i o).
Proof.
  unfold resume. keeps.
  apply never_cleared_detached, Keeps_bind; [apply never_cleared_settle_request |].
  intros _. apply never_cleared_sweep_loop.
Qed.

Lemma never_cleared_clearPendingRequests : Keeps never_cleared clearPendingRequests.
Proof. unfold clearPendingRequests. keeps. apply never_cleared_call_reject. Qed.

Lemma never_cleared_turn (m : Eng unit) (s : State) :
  Keeps never_cleared m -> never_cleared s -> never_cleared (turn m s).
Proof.
  intros Hm H. unfold turn. specialize (Hm s H).
  destruct (m s) as [[[]|e] s1]; exact Hm.
Qed.

Lemma never_cleared_step (l : Label) (s : State) :
  never_cleared s -> never_cleared (step l s).
Proof.
  intros H. destruct l; unfold step.
  - apply never_cleared_turn; [| exact H].
    unfold start, retryLoop. keeps. apply never_cleared_retryPendingRequests.
  - apply never_cleared_turn; [| exact H].
    unfold stop. keeps. apply never_cleared_clearPendingRequests.
  - apply never_cleared_turn; [| exact H]. unfold updateConfig. keeps.
  - apply never_cleared_turn; [| exact H]. apply never_cleared_clearPendingRequests.
  - destruct (isActive s); [| exact H].
    apply never_cleared_turn; [| exact H].
    unfold handleOnline. keeps. apply never_cleared_retryPendingRequests.
  - destruct (isActive s); [| exact H].
    apply never_cleared_turn; [| exact H]. unfold handleOffline. keeps.
  - destruct (retryTimer s); [| exact H].
    apply never_cleared_turn; [| exact H].
    unfold retryLoop. keeps. apply never_cleared_retryPendingRequests.
  - exact H.
  - apply never_cleared_turn; [| exact H].
    unfold intercepted_fetch, handleFailedRequest. keeps.
  - apply never_cleared_turn; [| exact H].
    unfold xhr_onerror, handleFailedXHRRequest. keeps.
  - apply never_cleared_turn; [| exact H].
    unfold xhr_onload, handleFailedXHRRequest. keeps.
  - apply never_cleared_turn; [| exact H]. apply never_cleared_resume.
Qed.

(** X23.  In no execution is a promise rejected with the
    [INTERCEPTOR_CLEARED] error: the branch of the fetch wrapper that would
    turn that rejection into a synthetic 499 response is never taken. *)
Lemma cleared_never_rejects (c : RetryConfig.t) (online : bool) (now : Z)
    (ls : list Label) :
  never_cleared (run ls (constructor c online now)).
Proof.
  assert (H : never_cleared (constructor c online now)).
  { intros [|p] e; discriminate. }
  revert H. generalize (constructor c online now).
  induction ls as [|l ls IH]; intros s H; simpl; [exact H |].
  apply IH. now apply never_cleared_step.
Qed.

(* ------------------------------------------------------------------------- *)
(** ** Logging *)

Section Blindness.

Lemma Blind_ret {A : Type} (a : A) : Blind (ret a) (ret a).
Proof. intros s1 s2 H. now split. Qed.

Lemma Blind_bind {A B : Type} (m1 m2 : Eng A) (k1 k2 : A -> Eng B) :
  Blind m1 m2 -> (forall a, Blind (k1 a) (k2 a)) ->
  Blind (bind m1 k1) (bind m2 k2).
Proof.
  intros Hm Hk s1 s2 H. unfold bind.
  destruct (Hm s1 s2 H) as [Hr Hs].
  destruct (m1 s1) as [[a1|e1] t1], (m2 s2) as [[a2|e2] t2]; simpl in *;
    try discriminate.
  - inversion Hr; subst. now apply Hk.
  - inversion Hr; subst. now split.
Qed.

Lemma Blind_try_catch {A : Type} (m1 m2 : Eng A) (h1 h2 : JsError -> Eng A) :
  Blind m1 m2 -> (forall e, Blind (h1 e) (h2 e)) ->
  Blind (try_catch m1 h1) (try_catch m2 h2).
Proof.
  intros Hm Hh s1 s2 H. unfold try_catch.
  destruct (Hm s1 s2 H) as [Hr Hs].
  destruct (m1 s1) as [[a1|e1] t1], (m2 s2) as [[a2|e2] t2]; simpl in *;
    try discriminate.
  - now split.
  - inversion Hr; subst. now apply Hh.
Qed.

Lemma Blind_complete {A : Type} (c : Completion A) :
  Blind (complete c) (complete c).
Proof. intros s1 s2 H. now split. Qed.

Lemma Blind_gets {A : Type} (f : State -> A) :
  (forall s1 s2, unlog s1 = unlog s2 -> f s1 = f s2) ->
  Blind (gets f) (gets f).
Proof. intros Hf s1 s2 H. unfold gets; simpl. split; [f_equal; auto | exact H]. Qed.

Lemma Blind_modify (f : State -> State) :
  (forall s, unlog (f s) = f (unlog s)) ->
  Blind (modify f) (modify f).
Proof.
  intros Hf s1 s2 H. unfold modify; simpl. split; [reflexivity |].
  now rewrite !Hf, H.
Qed.

Lemma without_logs_app (t u : list Event) :
  without_logs (t ++ u) = without_logs t ++ without_logs u.
Proof. apply filter_app. Qed.

Lemma unlog_emit (e : Event) (s1 s2 : State) :
  unlog s1 = unlog s2 ->
  unlog (set_trace (trace s1 ++ [e]) s1) = unlog (set_trace (trace s2 ++ [e]) s2).
Proof.
  intros H.
  assert (E : forall s, unlog (set_trace (trace s ++ [e]) s)
                        = set_trace (trace (unlog s) ++ without_logs [e]) (unlog s)).
  { intros s. unfold unlog, set_trace. simpl. now rewrite without_logs_app. }
  now rewrite !E, H.
Qed.

Lemma Blind_emit (e : Event) : Blind (emit e) (emit e).
Proof.
  intros s1 s2 H. unfold emit, modify; simpl. split; [reflexivity |].
  now apply unlog_emit.
Qed.

Lemma unlog_log (m : LogMessage) (s : State) :
  fst (log m s) = Normal tt /\ unlog (snd (log m s)) = unlog s.
Proof.
  unfold log, bind, gets, when, emit, modify, ret.
  destruct (enableLogging (config s)); simpl; split; try reflexivity.
  unfold unlog. simpl. rewrite without_logs_app. simpl.
  now rewrite app_nil_r.
Qed.

(** [log] is the one place where the flag is read. *)
Lemma Blind_log (m1 m2 : LogMessage) : Blind (log m1) (log m2).
Proof.
  intros s1 s2 H.
  destruct (unlog_log m1 s1) as [-> ->], (unlog_log m2 s2) as [-> ->].
  now split.
Qed.

Lemma Blind_when (b : bool) (m1 m2 : Eng unit) :
  Blind m1 m2 -> Blind (when b m1) (when b m2).
Proof. intros H. destruct b; [exact H | apply Blind_ret]. Qed.

Lemma Blind_allocate (r : PendingRequest) : Blind (allocate r) (allocate r).
Proof.
  intros s1 s2 H. unfold allocate; simpl.
  pose proof (f_equal heap H) as Hh. simpl in Hh. rewrite Hh.
  split; [reflexivity |].
  change (set_heap (heap s2 ++ [r]) (unlog s1) = set_heap (heap s2 ++ [r]) (unlog s2)).
  now rewrite H.
Qed.

Lemma Blind_new_Promise : Blind new_Promise new_Promise.
Proof.
  intros s1 s2 H. unfold new_Promise; simpl.
  pose proof (f_equal promises H) as Hp. simpl in Hp. rewrite Hp.
  split; [reflexivity |].
  change (set_promises (promises s2 ++ [Pending]) (unlog s1)
          = set_promises (promises s2 ++ [Pending]) (unlog s2)).
  now rewrite H.
Qed.

End Blindness.

(** Decomposes a computation along its syntax. *)
Ltac blind_step :=
  match goal with
  | |- Blind (bind _ _) _ => apply Blind_bind; [| intro]
  | |- Blind (try_catch _ _) _ => apply Blind_try_catch; [| intro]
  | |- Blind (ret _) _ => apply Blind_ret
  | |- Blind (complete _) _ => apply Blind_complete
  | |- Blind (log _) _ => apply Blind_log
  | |- Blind (emit _) _ => apply Blind_emit
  | |- Blind (when _ _) _ => apply Blind_when
  | |- Blind (allocate _) _ => apply Blind_allocate
  | |- Blind new_Promise _ => apply Blind_new_Promise
  | |- Blind (gets ?f) _ =>
      apply (Blind_gets f);
      let H := fresh in intros ? ? H; exact (f_equal f H)
  | |- Blind (modify _) _ => apply Blind_modify; intro; reflexivity
  | |- Blind (if ?b then _ else _) _ => destruct b
  | |- Blind (match ?x with _ => _ end) _ => destruct x
  end.

Ltac blind := repeat blind_step.

Lemma Blind_call_resolve (a : nat) (r : Response) :
  Blind (call_resolve a r) (call_resolve a r).
Proof.
  unfold call_resolve, settle_promise, deref. blind.
Qed.

Ltac blind_unfold :=
  unfold call_reject, call_retryCondition, call_onRetry,
    call_onMaxRetriesExceeded, pendingRequests_set, pendingRequests_delete,
    settle_promise, mutate, deref, Date_now.

Lemma Blind_call_reject (a : nat) (e : JsError) :
  Blind (call_reject a e) (call_reject a e).
Proof. blind_unfold. blind. Qed.

Lemma Blind_handleFailedRequest (u : string) (o : RequestInit) (rid : string) :
  Blind (handleFailedRequest u o rid) (handleFailedRequest u o rid).
Proof. unfold handleFailedRequest. blind_unfold. blind. Qed.

Lemma Blind_handleFailedXHRRequest (u : string) (o : RequestInit) (xhr : nat)
    (rid : string) :
  Blind (handleFailedXHRRequest u o xhr rid) (handleFailedXHRRequest u o xhr rid).
Proof. unfold handleFailedXHRRequest. blind_unfold. blind. Qed.

Lemma Blind_catch_block (a : nat) (e : JsError) :
  Blind (catch_block a e) (catch_block a e).
Proof.
  unfold catch_block. blind_unfold. blind; apply Blind_call_reject.
Qed.

Lemma Blind_attempt (a : nat) : Blind (attempt a) (attempt a).
Proof.
  unfold attempt. blind_unfold. blind; apply Blind_catch_block.
Qed.

Lemma Blind_settle (a : nat) (o : Completion Response) :
  Blind (settle a o) (settle a o).
Proof.
  unfold settle. blind_unfold.
  blind; first [apply Blind_catch_block | apply Blind_call_resolve
               | apply Blind_call_reject].
Qed.

Lemma Blind_sweep_loop (l : list nat) : Blind (sweep_loop l) (sweep_loop l).
Proof.
  induction l as [|a l IH]; simpl.
  - apply Blind_ret.
  - apply Blind_bind; [apply Blind_attempt |].
    intros [| |]; try exact IH. apply Blind_ret.
Qed.

Lemma unlog_park (slot : option nat) (w : option Sweep) (s : State) :
  unlog (park slot w s) = park slot w (unlog s).
Proof. destruct slot; [reflexivity |]. now destruct w. Qed.

Lemma Blind_detached (slot : option nat) (m1 m2 : Eng (option Sweep)) :
  Blind m1 m2 -> Blind (detached slot m1) (detached slot m2).
Proof.
  intros Hm s1 s2 H. unfold detached.
  destruct (Hm s1 s2 H) as [Hr Hs].
  destruct (m1 s1) as [[w1|e1] t1], (m2 s2) as [[w2|e2] t2]; simpl in *;
    try discriminate; inversion Hr; subst; (split; [reflexivity |]).
  - now rewrite !unlog_park, Hs.
  - rewrite !unlog_park. f_equal. now apply unlog_emit.
Qed.

Lemma Blind_retryPendingRequests : Blind retryPendingRequests retryPendingRequests.
Proof.
  unfold retryPendingRequests. blind.
  apply Blind_detached, Blind_sweep_loop.
Qed.

Lemma Blind_resume (i : nat) (o : Completion Response) :
  Blind (resume i o) (resume i o).
Proof.
  unfold resume. blind.
  apply Blind_detached, Blind_bind; [apply Blind_settle |].
  intros _. apply Blind_sweep_loop.
Qed.

Lemma Blind_for_each (l : list nat) (f : nat -> Eng unit) :
  (forall a, Blind (f a) (f a)) -> Blind (for_each l f) (for_each l f).
Proof.
  intros Hf. induction l as [|a l IH]; simpl.
  - apply Blind_ret.
  - apply Blind_bind; [apply Hf | intros _; exact IH].
Qed.

Lemma Blind_clearPendingRequests : Blind clearPendingRequests clearPendingRequests.
Proof.
  unfold clearPendingRequests. blind.
  apply Blind_for_each. intros b. apply Blind_call_reject.
Qed.

(** Two updates that differ in the flag only. *)
Lemma Blind_updateConfig (n1 n2 : RetryConfig.t) :
  flagless n1 = flagless n2 -> Blind (updateConfig n1) (updateConfig n2).
Proof.
  intros Hn. unfold updateConfig.
  apply Blind_bind; [| intros _; apply Blind_log].
  intros s1 s2 H. unfold modify; simpl. split; [reflexivity |].
  assert (E : forall n s, unlog (set_config (spread (config s) n) s)
                          = set_config (quiet (spread (config (unlog s)) (flagless n)))
                                       (unlog s)) by reflexivity.
  now rewrite !E, H, Hn.
Qed.

Lemma Blind_retryLoop : Blind retryLoop retryLoop.
Proof. unfold retryLoop. blind. apply Blind_retryPendingRequests. Qed.

Lemma Blind_start : Blind start start.
Proof. unfold start. blind. apply Blind_retryLoop. Qed.

Lemma Blind_stop : Blind stop stop.
Proof. unfold stop. blind. apply Blind_clearPendingRequests. Qed.

Lemma Blind_handleOnline : Blind handleOnline handleOnline.
Proof. unfold handleOnline. blind. apply Blind_retryPendingRequests. Qed.

Lemma Blind_handleOffline : Blind handleOffline handleOffline.
Proof. unfold handleOffline. blind. Qed.

Lemma Blind_intercepted_fetch (u : string) (init : RequestInit)
    (o : Completion Response) (rid : string) :
  Blind (intercepted_fetch u init o rid) (intercepted_fetch u init o rid).
Proof.
  unfold intercepted_fetch. blind_unfold.
  blind; apply Blind_handleFailedRequest.
Qed.

Lemma Blind_xhr_onerror (xhr : nat) (m u : string) (d : option string)
    (rid : string) :
  Blind (xhr_onerror xhr m u d rid) (xhr_onerror xhr m u d rid).
Proof.
  unfold xhr_onerror. blind_unfold. blind; apply Blind_handleFailedXHRRequest.
Qed.

Lemma Blind_xhr_onload (xhr : nat) (st : Z) (m u : string) (d : option string)
    (rid : string) :
  Blind (xhr_onload xhr st m u d rid) (xhr_onload xhr st m u d rid).
Proof.
  unfold xhr_onload. blind_unfold. blind; apply Blind_handleFailedXHRRequest.
Qed.

Lemma unlog_turn (m1 m2 : Eng unit) (s1 s2 : State) :
  Blind m1 m2 -> unlog s1 = unlog s2 -> unlog (turn m1 s1) = unlog (turn m2 s2).
Proof.
  intros Hm H. unfold turn.
  destruct (Hm s1 s2 H) as [Hr Hs].
  destruct (m1 s1) as [[[]|e1] t1], (m2 s2) as [[[]|e2] t2]; simpl in *;
    try discriminate.
  - exact Hs.
  - inversion Hr; subst. now apply unlog_emit.
Qed.

(** One turn of the event loop cannot tell the two executions apart. *)
Lemma unlog_step (l1 l2 : Label) (s1 s2 : State) :
  flagless_label l1 = flagless_label l2 ->
  unlog s1 = unlog s2 ->
  unlog (step l1 s1) = unlog (step l2 s2).
Proof.
  intros Hl H.
  pose proof (f_equal isActive H) as Hactive.
  pose proof (f_equal retryTimer H) as Htimer.
  pose proof (f_equal clock H) as Hclock.
  simpl in Hactive, Htimer, Hclock.
  destruct l1, l2; cbn [flagless_label] in Hl; try discriminate;
    inversion Hl; subst; unfold step.
  - apply unlog_turn; [apply Blind_start | exact H].
  - apply unlog_turn; [apply Blind_stop | exact H].
  - apply unlog_turn; [apply Blind_updateConfig; congruence | exact H].
  - apply unlog_turn; [apply Blind_clearPendingRequests | exact H].
  - rewrite Hactive. destruct (isActive s2); [| exact H].
    apply unlog_turn; [apply Blind_handleOnline | exact H].
  - rewrite Hactive. destruct (isActive s2); [| exact H].
    apply unlog_turn; [apply Blind_handleOffline | exact H].
  - rewrite Htimer. destruct (retryTimer s2); [| exact H].
    apply unlog_turn; [apply Blind_retryLoop | exact H].
  - rewrite Hclock.
    change (set_clock (clock s2 + d0) (unlog s1) = set_clock (clock s2 + d0) (unlog s2)).
    now rewrite H.
  - apply unlog_turn; [| exact H].
    apply Blind_try_catch; [| intros e; apply Blind_emit].
    apply Blind_bind; [apply Blind_intercepted_fetch | intros r; apply Blind_emit].
  - apply unlog_turn; [apply Blind_xhr_onerror | exact H].
  - apply unlog_turn; [apply Blind_xhr_onload | exact H].
  - apply unlog_turn; [apply Blind_resume | exact H].
Qed.

Lemma unlog_run (ls1 ls2 : list Label) (s1 s2 : State) :
  map flagless_label ls1 = map flagless_label ls2 ->
  unlog s1 = unlog s2 ->
  unlog (run ls1 s1) = unlog (run ls2 s2).
Proof.
  revert ls2 s1 s2. induction ls1 as [|l1 ls1 IH]; intros [|l2 ls2] s1 s2 Hl H;
    simpl in *; try discriminate.
  - exact H.
  - inversion Hl. apply IH; [assumption |]. now apply unlog_step.
Qed.

(** C9.  Two executions whose initial configurations, and whose
    [updateConfig] arguments, differ at most in [enableLogging], and which
    otherwise receive the same calls and events, agree on everything but
    what is printed: same status and counts, same map of pending requests,
    same request objects, same promises, same suspended sweeps, same
    continuations fired and, leaving out the console, the same calls of the
    callbacks and of the transport in the same order. *)
Theorem C9_logging_has_no_effect
    (c1 c2 : RetryConfig.t) (online : bool) (now : Z) (ls1 ls2 : list Label) :
  flagless c1 = flagless c2 ->
  map flagless_label ls1 = map flagless_label ls2 ->
  let s1 := run ls1 (constructor c1 online now) in
  let s2 := run ls2 (constructor c2 online now) in
  getStatus s1 = getStatus s2
  /\ getPendingRequestsCount s1 = getPendingRequestsCount s2
  /\ pendingRequests s1 = pendingRequests s2
  /\ heap s1 = heap s2
  /\ promises s1 = promises s2
  /\ sweeps s1 = sweeps s2
  /\ without_logs (trace s1) = without_logs (trace s2)
  /\ firings (trace s1) = firings (trace s2)
  /\ quiet (config s1) = quiet (config s2).
Proof.
  intros Hc Hl s1 s2.
  assert (H0 : unlog (constructor c1 online now) = unlog (constructor c2 online now)).
  { unfold unlog, constructor. simpl. f_equal.
    change (quiet (constructor_config c1)) with (quiet (constructor_config (flagless c1))).
    now rewrite Hc. }
  pose proof (unlog_run ls1 ls2 _ _ Hl H0) as H. fold s1 s2 in H.
  assert (Hf : forall tr, firings (without_logs tr) = firings tr).
  { induction tr as [|e tr IH]; [reflexivity |].
    unfold without_logs, firings in *. simpl.
    destruct e; simpl; now rewrite IH. }
  pose proof (f_equal trace H) as Htr. simpl in Htr.
  repeat split.
  - unfold getStatus.
    pose proof (f_equal isActive H) as Ha.
    pose proof (f_equal isOnline H) as Ho.
    pose proof (f_equal pendingRequests H) as Hp.
    simpl in Ha, Ho, Hp. now rewrite Ha, Ho, Hp.
  - unfold getPendingRequestsCount.
    pose proof (f_equal pendingRequests H) as Hp. simpl in Hp. now rewrite Hp.
  - exact (f_equal pendingRequests H).
  - exact (f_equal heap H).
  - exact (f_equal promises H).
  - exact (f_equal sweeps H).
  - exact Htr.
  - now rewrite <- (Hf (trace s1)), <- (Hf (trace s2)), Htr.
  - exact (f_equal config H).
Qed.

Lemma C9_logging_has_no_effect_witness :
  without_logs (trace (run (one_retried ++ [CallUpdateConfig logging_on; CallStop])
                           (constructor logging_on true 0)))
  = without_logs (trace (run (one_retried ++ [CallUpdateConfig RetryConfig.empty; CallStop])
                             (constructor RetryConfig.empty true 0))).
Proof.
  apply (C9_logging_has_no_effect logging_on RetryConfig.empty true 0
           (one_retried ++ [CallUpdateConfig logging_on; CallStop])
           (one_retried ++ [CallUpdateConfig RetryConfig.empty; CallStop])).
  - reflexivity.
  - reflexivity.
Defined.

(* ------------------------------------------------------------------------- *)
(** ** Summaries of the loop body, whatever the callbacks do *)

Ltac firings_norm :=
  rewrite ?firings_app; simpl; rewrite ?app_nil_r, <- ?app_assoc; simpl.

Ltac handled_kept :=
  left; split; [reflexivity | split; [firings_norm; reflexivity | lia]].

Ltac handled_removed :=
  right; split;
  [ reflexivity
  | first [ left; firings_norm; reflexivity
          | right; eexists; firings_norm; reflexivity ] ].

Lemma catch_block_handled (a : nat) (e : JsError) (s s' : State)
    (r : Completion unit) :
  catch_block a e s = (r, s') -> handled a s s'.
Proof.
  unfold catch_block. unfold bind at 1. unfold deref at 1, gets at 1.
  unfold bind at 1. unfold gets at 1.
  destruct (retryCount (object s a) >=? maxRetries (config s)) eqn:E.
  - run_engine. simpl. fold (object s a).
    destruct (onMaxRetriesExceeded (config s) (Some e) (metadata (object s a)))
      as [[]|e'];
      destruct (is_cleared e); simpl;
      destruct (enableLogging (config s)); simpl;
      intros H; injection H as Hr Hs; subst r s';
      unfold handled; simpl; fold (object s a);
      (split; [reflexivity |]); (split; [reflexivity |]);
      (split; [reflexivity |]); handled_removed.
  - rewrite Z.geb_leb in E. apply Z.leb_gt in E.
    run_engine. simpl. fold (object s a).
    destruct (retryCondition (config s) (Some e) None) as [[|]|e']; simpl;
      destruct (is_cleared e); simpl;
      destruct (enableLogging (config s)); simpl;
      intros H; injection H as Hr Hs; subst r s';
      unfold handled; simpl; fold (object s a);
      (split; [reflexivity |]); (split; [reflexivity |]);
      (split; [reflexivity |]);
      first [handled_kept | handled_removed].
Qed.

Lemma map_delete_idem (k : string) (m : list (string * nat)) :
  map_delete k (map_delete k m) = map_delete k m.
Proof.
  unfold map_delete. induction m as [|[k' v] m IH]; simpl; [reflexivity |].
  destruct (String.eqb k' k) eqn:E; simpl; [exact IH |].
  rewrite E. simpl. now rewrite IH.
Qed.

(** A request whose id has just been deleted and that then goes through the
    [catch] block. *)
Lemma handled_after_delete (a : nat) (s s1 s' : State) :
  config s1 = config s -> sweeps s1 = sweeps s -> heap s1 = heap s ->
  pendingRequests s1 = map_delete (id (object s a)) (pendingRequests s) ->
  firings (trace s1) = firings (trace s) ->
  handled a s1 s' -> handled a s s'.
Proof.
  intros Hc Hw Hh Hm Hf [Hc' [Hw' [Hh' H]]].
  assert (Ho : object s1 a = object s a) by (unfold object; now rewrite Hh).
  unfold handled. rewrite Ho in H.
  split; [congruence |]. split; [congruence |]. split; [congruence |].
  right. destruct H as [[Hm' [Hf' _]] | [Hm' Hf']].
  - split; [congruence |]. left. congruence.
  - split; [rewrite Hm', Hm; apply map_delete_idem |].
    rewrite Hf in Hf'. exact Hf'.
Qed.

Ltac run_settle :=
  unfold settle, call_resolve, call_reject, call_retryCondition,
    call_onRetry, call_onMaxRetriesExceeded, pendingRequests_delete,
    pendingRequests_set, settle_promise, mutate, log, emit, when, try_catch,
    bind, complete, deref, Date_now, gets, modify, ret, object.

Ltac finish_handled :=
  let H := fresh "H" in
  intros H;
  first
    [ injection H as ? ?; subst;
      unfold handled, object; simpl;
      (split; [reflexivity |]); (split; [reflexivity |]);
      (split; [reflexivity |]);
      first [handled_kept | handled_removed]
    | apply catch_block_handled in H; exact H
    | apply catch_block_handled in H;
      revert H; apply handled_after_delete; try reflexivity;
      simpl; firings_norm; reflexivity ].

Lemma settle_handled (a : nat) (o : Completion Response) (s s' : State)
    (r : Completion unit) :
  settle a o s = (r, s') -> handled a s s'.
Proof.
  destruct o as [response | e]; [| apply catch_block_handled].
  run_settle. simpl.
  destruct (ok response); simpl.
  - destruct (continuations (nth a (heap s) blank)); simpl;
      destruct (enableLogging (config s)); simpl; finish_handled.
  - destruct (retryCondition (config s) None (Some response)) as [[|]|e']; simpl.
    + destruct (retryCount (nth a (heap s) blank) >=? maxRetries (config s))
        eqn:Erc; simpl.
      * destruct (onMaxRetriesExceeded (config s) None
                    (metadata (nth a (heap s) blank))) as [[]|e']; simpl.
        -- destruct (enableLogging (config s)); simpl; finish_handled.
        -- finish_handled.
      * rewrite Z.geb_leb in Erc. apply Z.leb_gt in Erc. finish_handled.
    + destruct (continuations (nth a (heap s) blank)); simpl;
        destruct (enableLogging (config s)); simpl; finish_handled.
    + finish_handled.
Qed.

Lemma update_nth_twice {A : Type} (f g : A -> A) (l : list A) (n : nat) :
  update_nth n g (update_nth n f l) = update_nth n (fun x => g (f x)) l.
Proof.
  revert n; induction l as [|x l IH]; intros [|n]; simpl; try reflexivity.
  now rewrite IH.
Qed.

Lemma handled_same_view (a : nat) (s0 s1 s' : State) :
  same_view s0 s1 -> handled a s1 s' -> handled a s0 s'.
Proof.
  intros [Hc [Hw [Hh [Hm Hf]]]]. unfold handled, object.
  now rewrite Hc, Hw, Hh, Hm, Hf.
Qed.

(** The first half of the loop body: the request is not due and nothing
    happens; or its counter and timestamp are bumped and it is dispatched; or
    they are bumped, [onRetry] throws and the [catch] block handles it. *)
Lemma attempt_summary (a : nat) (s s' : State) (r : Completion Attempt) :
  attempt a s = (r, s') ->
  (r = Normal NotDue /\ s' = s)
  \/ (r = Normal Dispatched /\ same_view (bumped a s) s')
  \/ (r <> Normal Dispatched /\ handled a (bumped a s) s').
Proof.
  unfold attempt. unfold bind at 1. unfold deref at 1, gets at 1.
  unfold bind at 1. unfold Date_now at 1, gets at 1.
  unfold bind at 1. unfold gets at 1.
  destruct (clock s - timestamp (object s a) <? delayTime (config s)).
  - unfold ret. intros H. injection H as <- <-. now left.
  - intros H. right. revert H.
    unfold try_catch, mutate, call_onRetry, log, emit, when, deref, Date_now,
      bind, gets, modify, complete, ret, object. simpl.
    rewrite update_nth_twice.
    change (fun x : PendingRequest =>
              set_timestamp (clock s) (set_retryCount (retryCount x + 1) x))
      with (bump (clock s)).
    repeat match goal with
           | |- context [set_heap ?X (set_heap ?Y s)] =>
               change (set_heap X (set_heap Y s)) with (bumped a s)
           end.
    change (nth a (update_nth a (bump (clock s)) (heap s)) blank)
      with (object (bumped a s) a).
    destruct (onRetry (config s) None (retryCount (object (bumped a s) a))
                      (metadata (object (bumped a s) a))) as [[]|e]; simpl.
    + destruct (enableLogging (config s)); simpl;
        intros H; injection H as <- <-; left;
        (split; [reflexivity |]); unfold same_view; simpl;
        repeat split; firings_norm; reflexivity.
    + destruct (catch_block a e
                  (set_trace
                     (trace s ++
                      [EvOnRetry (retryCount (object (bumped a s) a))
                                 (metadata (object (bumped a s) a))])
                     (bumped a s))) as [[[]|e'] s1] eqn:E;
        intros H; injection H as <- <-; right;
        (split; [discriminate |]);
        apply catch_block_handled in E;
        revert E; apply handled_same_view;
        unfold same_view; simpl; repeat split; firings_norm; reflexivity.
Qed.

Ltac run_all :=
  unfold intercepted_fetch, xhr_onerror, xhr_onload, handleFailedRequest,
    handleFailedXHRRequest, updateConfig, handleOffline, new_Promise, allocate,
    call_retryCondition, pendingRequests_set, log, emit, when, try_catch,
    bind, complete, deref, Date_now, gets, modify, ret.

Ltac solve_enqueued :=
  first
    [ left; unfold same_view; simpl; repeat split; firings_norm; reflexivity
    | right; unfold enqueued; simpl; eexists;
      (split; [| split; [| split; [reflexivity |]]]);
      [ reflexivity | reflexivity | ];
      (split; [reflexivity |]); (split; [reflexivity |]);
      (split; [reflexivity |]);
      firings_norm; reflexivity ].

(** The wrapped [fetch] either leaves map, heap and firings alone or queues
    one request. *)
Lemma intercepted_fetch_summary (u : string) (init : RequestInit)
    (o : Completion Response) (rid : string) (s s' : State)
    (r : Completion FetchResult) :
  intercepted_fetch u init o rid s = (r, s') ->
  same_view s s' \/ enqueued rid s s'.
Proof.
  run_all. simpl. destruct o as [response | e]; simpl.
  - destruct (ok response); simpl.
    + intros H; injection H as <- <-. solve_enqueued.
    + destruct (retryCondition (config s) None (Some response)) as [[|]|e'];
        simpl.
      * destruct (enableLogging (config s)); simpl;
          intros H; injection H as <- <-; solve_enqueued.
      * intros H; injection H as <- <-. solve_enqueued.
      * destruct (retryCondition (config s) (Some e') None) as [[|]|e'']; simpl;
          try (destruct (enableLogging (config s)); simpl);
          intros H; injection H as <- <-; solve_enqueued.
  - destruct (retryCondition (config s) (Some e) None) as [[|]|e'']; simpl;
      try (destruct (enableLogging (config s)); simpl);
      intros H; injection H as <- <-; solve_enqueued.
Qed.

Lemma xhr_onerror_summary (xhr : nat) (m u : string) (d : option string)
    (rid : string) (s s' : State) (r : Completion unit) :
  xhr_onerror xhr m u d rid s = (r, s') ->
  same_view s s' \/ enqueued rid s s'.
Proof.
  run_all. simpl.
  match goal with
  | |- context [retryCondition (config s) ?e ?o] =>
      destruct (retryCondition (config s) e o) as [[|]|e']
  end;
    simpl; try (destruct (enableLogging (config s)); simpl);
    intros H; injection H as <- <-; solve_enqueued.
Qed.

Lemma xhr_onload_summary (xhr : nat) (st : Z) (m u : string) (d : option string)
    (rid : string) (s s' : State) (r : Completion unit) :
  xhr_onload xhr st m u d rid s = (r, s') ->
  same_view s s' \/ enqueued rid s s'.
Proof.
  run_all. simpl. destruct (st >=? 400); simpl.
  - destruct (retryCondition (config s) None
                (Some {| status := st; statusText := ""; ok := false |}))
      as [[|]|e];
      simpl; try (destruct (enableLogging (config s)); simpl);
      intros H; injection H as <- <-; solve_enqueued.
  - intros H; injection H as <- <-; solve_enqueued.
Qed.

(* ------------------------------------------------------------------------- *)
(** ** The loop body when the callbacks return *)





(* ------------------------------------------------------------------------- *)
(** ** The map of pending requests as a list *)

Lemma map_delete_In (k : string) (m : list (string * nat)) (kv : string * nat) :
  In kv (map_delete k m) -> In kv m /\ fst kv <> k.
Proof.
  unfold map_delete. rewrite filter_In. intros [Hin Hk]. split; [exact Hin |].
  apply negb_true_iff in Hk. now apply String.eqb_neq.
Qed.

Lemma values_delete_In (k : string) (m : list (string * nat)) (a : nat) :
  In a (map_values (map_delete k m)) -> In a (map_values m).
Proof.
  unfold map_values. rewrite !in_map_iff. intros [kv [Ha Hin]].
  exists kv. split; [exact Ha |]. now apply map_delete_In in Hin.
Qed.


Lemma map_set_In (k : string) (v : nat) (m : list (string * nat))
    (kv : string * nat) :
  In kv (map_set k v m) -> kv = (k, v) \/ In kv m.
Proof.
  induction m as [|[k' v'] m IH]; simpl.
  - intros [H | []]. now left.
  - destruct (String.eqb k' k); simpl.
    + intros [H | H]; [now left | now right; right].
    + intros [H | H]; [now right; left |].
      destruct (IH H); [now left | now right; right].
Qed.

Lemma values_set_In (k : string) (v : nat) (m : list (string * nat)) (a : nat) :
  In a (map_values (map_set k v m)) -> a = v \/ In a (map_values m).
Proof.
  unfold map_values. rewrite !in_map_iff. intros [kv [Ha Hin]].
  destruct (map_set_In _ _ _ _ Hin) as [E | Hold].
  - left. subst kv. now simpl in Ha.
  - right. now exists kv.
Qed.


(* ------------------------------------------------------------------------- *)
(** ** Objects *)



Lemma object_bumped_other (s : State) (a b : nat) :
  a <> b -> object (bumped a s) b = object s b.
Proof. intros H. unfold object, bumped. simpl. now apply nth_update_nth_neq. Qed.

Lemma object_bumped_same (s : State) (a : nat) :
  (a < List.length (heap s))%nat ->
  object (bumped a s) a = bump (clock s) (object s a).
Proof. intros H. unfold object, bumped. simpl. now apply nth_update_nth_eq. Qed.

Lemma id_bumped (s : State) (a b : nat) :
  id (object (bumped a s) b) = id (object s b).
Proof.
  destruct (Nat.eq_dec a b) as [<- | Hab].
  - destruct (Nat.lt_ge_cases a (List.length (heap s))) as [Ha | Ha].
    + now rewrite object_bumped_same.
    + unfold object, bumped. simpl.
      rewrite !nth_overflow; rewrite ?length_update_nth; auto.
  - now rewrite object_bumped_other.
Qed.

Lemma length_bumped (s : State) (a : nat) :
  List.length (heap (bumped a s)) = List.length (heap s).
Proof. unfold bumped. simpl. apply length_update_nth. Qed.

(* ------------------------------------------------------------------------- *)
(** ** The consistency of map, heap and trace is kept *)











(* ------------------------------------------------------------------------- *)
(** ** Suspended sweeps *)


Lemma active_In (l : list (option Sweep)) (i : nat) (w : Sweep) :
  nth i l None = Some w ->
  In w (flat_map (fun o => match o with Some sw => [sw] | None => [] end) l).
Proof.
  revert i; induction l as [|[x|] l IH]; intros [|i] H; simpl in *;
    try discriminate.
  - left. congruence.
  - right. now apply (IH i).
  - now apply (IH i).
Qed.





(* ------------------------------------------------------------------------- *)
(** ** Consistency is kept by every method *)

Lemma same_view_shape (s s' : State) : same_view s s' -> same_shape s s'.
Proof. intros [_ [Hw [Hh [Hm Hf]]]]. now repeat split. Qed.




Lemma firings_rejects (s : State) (l : list nat) (e : JsError) :
  firings (map (fun a => EvReject a (object s a) e) l)
  = map (fun a => (a, object s a, Failure e)) l.
Proof. induction l as [|a l IH]; simpl; [reflexivity |]. now rewrite <- IH. Qed.






(* ------------------------------------------------------------------------- *)
(** ** The retry counts stay under the ceiling *)



Lemma retryCount_bumped (s : State) (a : nat) :
  (a < List.length (heap s))%nat ->
  retryCount (object (bumped a s) a) = retryCount (object s a) + 1.
Proof. intros H. now rewrite object_bumped_same. Qed.






Lemma handled_values (a b : nat) (s s' : State) :
  handled a s s' ->
  In b (map_values (pendingRequests s')) -> In b (map_values (pendingRequests s)).
Proof.
  intros [_ [_ [_ H]]] Hin.
  destruct H as [[Hm _] | [Hm _]]; rewrite Hm in Hin; [exact Hin |].
  now apply values_delete_In in Hin.
Qed.



(* ------------------------------------------------------------------------- *)
(** ** Every request is accounted for *)

















(* ------------------------------------------------------------------------- *)
(** ** The invariant is kept by every method *)

Lemma bind_normal {A B : Type} (m : Eng A) (k : A -> Eng B) (s : State) (a : A) :
  fst (m s) = Normal a -> bind m k s = k a (snd (m s)).
Proof. unfold bind. destruct (m s) as [[x|e] s1]; simpl; congruence. Qed.

Lemma same_view_trans (s1 s2 s3 : State) :
  same_view s1 s2 -> same_view s2 s3 -> same_view s1 s3.
Proof.
  intros [A1 [A2 [A3 [A4 A5]]]] [B1 [B2 [B3 [B4 B5]]]].
  repeat split; congruence.
Qed.




Lemma log_view (m : LogMessage) (s : State) :
  fst (log m s) = Normal tt /\ same_view s (snd (log m s)).
Proof.
  unfold log, bind, gets, when, emit, modify, ret.
  destruct (enableLogging (config s)); simpl; split; try reflexivity;
    unfold same_view; simpl; repeat split.
  firings_norm. reflexivity.
Qed.


(** A turn that ends in an exception only reports it. *)
Lemma turn_view (m : Eng unit) (s : State) : same_view (snd (m s)) (turn m s).
Proof.
  unfold turn. destruct (m s) as [[[]|e] s1]; simpl; unfold same_view; simpl.
  - now repeat split.
  - repeat split. firings_norm. reflexivity.
Qed.













Lemma updateConfig_shape (n : RetryConfig.t) (s : State) :
  same_shape s (snd (updateConfig n s)).
Proof.
  unfold updateConfig. rewrite (bind_normal _ _ _ tt) by reflexivity.
  unfold modify. cbn [snd].
  destruct (log_view (LogConfigUpdated n) (set_config (spread (config s) n) s))
    as [_ Hv].
  apply same_view_shape in Hv. destruct Hv as [A1 [A2 [A3 A4]]].
  split; [rewrite A1 | split; [rewrite A2 | split; [rewrite A3 | rewrite A4]]];
    reflexivity.
Qed.








Lemma handleOffline_view (s : State) : same_view s (snd (handleOffline s)).
Proof.
  unfold handleOffline.
  destruct (log_view LogOffline s) as [Hr Hs].
  rewrite (bind_normal _ _ _ tt Hr). unfold modify. cbn [snd].
  apply (same_view_trans _ _ _ Hs). now repeat split.
Qed.





(* ------------------------------------------------------------------------- *)
(** ** Whole executions *)








(* ------------------------------------------------------------------------- *)
(** ** Merging configurations *)






(* ------------------------------------------------------------------------- *)
(** ** The fetch wrapper *)

(** X2.  The fetch wrapper is transparent whenever the request is not to be
    retried: a response that is [ok], a response the retry condition
    declines, and an error it declines are handed to the caller as the
    transport delivered them, and the engine is left exactly as it was
    (nothing queued, nothing logged). *)
Theorem intercepted_fetch_transparent (u : string) (init : RequestInit)
    (outcome : Completion Response) (rid : string) (s : State) :
  match outcome with
  | Normal response =>
      ok response = true
      \/ retryCondition (config s) None (Some response) = Normal false
  | Throw error => retryCondition (config s) (Some error) None = Normal false
  end ->
  intercepted_fetch u init outcome rid s
  = (match outcome with
     | Normal response => Normal (Immediate (Normal response))
     | Throw error => Throw error
     end, s).
Proof.
  destruct outcome as [response | error]; intros H;
    unfold intercepted_fetch, try_catch, call_retryCondition, bind, complete,
      gets, ret.
  - destruct (ok response); simpl; [reflexivity |].
    destruct H as [H | H]; [discriminate |]. now rewrite H.
  - now rewrite H.
Qed.

Lemma intercepted_fetch_transparent_witness :
  intercepted_fetch "/api/users" no_init (Normal response_404) "r1" fresh
  = (Normal (Immediate (Normal response_404)), fresh)
  /\ intercepted_fetch "/api/users" no_init (Throw abort_error) "r1" fresh
     = (Throw abort_error, fresh).
Proof.
  split.
  - apply (intercepted_fetch_transparent "/api/users" no_init
             (Normal response_404) "r1" fresh).
    right. reflexivity.
  - apply (intercepted_fetch_transparent "/api/users" no_init
             (Throw abort_error) "r1" fresh).
    reflexivity.
Defined.

(** X3.  The retry condition is called inside the wrapper's [try]: when it
    throws while it is asked about a failure response, the wrapper goes on
    exactly as if the transport itself had thrown that error (the condition
    is asked again, about the error, and the response is lost). *)
Theorem intercepted_fetch_condition_throws (u : string) (init : RequestInit)
    (response : Response) (error : JsError) (rid : string) (s : State) :
  ok response = false ->
  retryCondition (config s) None (Some response) = Throw error ->
  intercepted_fetch u init (Normal response) rid s
  = intercepted_fetch u init (Throw error) rid s.
Proof.
  intros Hok H.
  unfold intercepted_fetch, try_catch, call_retryCondition, bind, complete,
    gets, ret.
  rewrite Hok. simpl. now rewrite H.
Qed.

(** A condition that throws on responses and accepts every error. *)
Lemma intercepted_fetch_condition_throws_witness :
  let c := RetryConfig.mk None None None
             (Some (fun e r => match r with
                               | Some _ => Throw type_error
                               | None => Normal true
                               end))
             None None None in
  intercepted_fetch "/api/users" no_init (Normal response_404) "r1"
                    (constructor c true 0)
  = intercepted_fetch "/api/users" no_init (Throw type_error) "r1"
                      (constructor c true 0).
Proof.
  intros c.
  apply (intercepted_fetch_condition_throws "/api/users" no_init response_404
           type_error "r1" (constructor c true 0)); reflexivity.
Defined.

(** What queuing a failed request does, whichever handler does it. *)
Lemma queue_request (rid u : string) (o : RequestInit) (k : nat -> Continuations)
    (m : LogMessage) (s : State) :
  (p <- new_Promise ;;
   now <- Date_now ;;
   a <- allocate {| id := rid; url := u; options := o; retryCount := 0;
                    timestamp := now; continuations := k p |} ;;
   pendingRequests_set rid a ;;
   log m ;;
   ret p) s
  = (Normal (List.length (promises s)),
     set_trace (trace s ++ logged s m)
       (set_pendingRequests
          (map_set rid (List.length (heap s)) (pendingRequests s))
          (set_heap (heap s ++ [new_request rid u o (clock s)
                                  (k (List.length (promises s)))])
             (set_promises (promises s ++ [Pending]) s)))).
Proof.
  unfold new_Promise, Date_now, allocate, pendingRequests_set, log, emit, when,
    bind, gets, modify, ret, logged, new_request. simpl.
  destruct (enableLogging (config s)); simpl; [reflexivity |].
  now rewrite app_nil_r.
Qed.

Lemma map_set_has_key (k : string) (v : nat) (m : list (string * nat)) :
  In (k, v) (map_set k v m) /\ has_key k (map_set k v m) = true.
Proof.
  unfold has_key. induction m as [|[k' v'] m IH]; simpl.
  - rewrite String.eqb_refl. auto.
  - destruct (String.eqb k' k) eqn:E; simpl.
    + rewrite String.eqb_refl. auto.
    + rewrite E. simpl. destruct IH as [H1 H2]. auto.
Qed.

Lemma map_set_length (k : string) (v : nat) (m : list (string * nat)) :
  List.length (map_set k v m)
  = if has_key k m then List.length m else S (List.length m).
Proof.
  unfold has_key. induction m as [|[k' v'] m IH]; simpl; [reflexivity |].
  destruct (String.eqb k' k); simpl; [reflexivity |].
  rewrite IH. now destruct (existsb _ m).
Qed.

(** X4.  A fetch that fails in a way the retry condition accepts (an error,
    or a response that is not [ok]) is queued, whether or not the interceptor
    is active: the caller gets a new promise, still pending; the request
    object holds the url and the options of the call, [retryCount = 0] and
    the current time; it is in the map under its id, and the count has grown
    by one unless the id was in the map already, in which case the count
    stays and the older entry is replaced. *)
Theorem failed_fetch_is_queued (u : string) (init : RequestInit)
    (outcome : Completion Response) (rid : string) (s : State) :
  match outcome with
  | Normal response =>
      ok response = false
      /\ retryCondition (config s) None (Some response) = Normal true
  | Throw error => retryCondition (config s) (Some error) None = Normal true
  end ->
  let p := List.length (promises s) in
  let a := List.length (heap s) in
  let guarded := match outcome with Normal _ => false | Throw _ => true end in
  let s' := snd (intercepted_fetch u init outcome rid s) in
  fst (intercepted_fetch u init outcome rid s) = Normal (Deferred p guarded)
  /\ caller_outcome s' (Deferred p guarded) = None
  /\ object s' a = new_request rid u init (clock s) (ForFetch p)
  /\ In (rid, a) (pendingRequests s')
  /\ has_key rid (pendingRequests s') = true
  /\ getPendingRequestsCount s'
     = (if has_key rid (pendingRequests s) then getPendingRequestsCount s
        else S (getPendingRequestsCount s))
  /\ dispatches (trace s') = dispatches (trace s).
Proof.
  intros H p a guarded s'.
  assert (E : intercepted_fetch u init outcome rid s
              = (Normal (Deferred p guarded),
                 set_trace (trace s ++ logged s (LogStored rid u))
                   (set_pendingRequests (map_set rid a (pendingRequests s))
                      (set_heap (heap s ++ [new_request rid u init (clock s)
                                              (ForFetch p)])
                         (set_promises (promises s ++ [Pending]) s))))).
  { unfold intercepted_fetch, try_catch. unfold bind at 1.
    destruct outcome as [response | error]; unfold complete at 1.
    - destruct H as [Hok H]. rewrite Hok. simpl.
      unfold bind at 1. unfold call_retryCondition, bind at 1, gets, complete.
      rewrite H. unfold handleFailedRequest. unfold bind at 1.
      now rewrite (queue_request rid u init ForFetch (LogStored rid u) s).
    - unfold bind at 1. unfold call_retryCondition, bind at 1, gets, complete.
      rewrite H. unfold handleFailedRequest. unfold bind at 1.
      now rewrite (queue_request rid u init ForFetch (LogStored rid u) s). }
  subst s'. rewrite E. cbn [fst snd].
  split; [reflexivity |]. split; [| split; [| split; [| split; [| split]]]].
  - unfold caller_outcome. simpl. subst p.
    now rewrite app_nth2, Nat.sub_diag by lia.
  - unfold object. simpl. subst a. now rewrite app_nth2, Nat.sub_diag by lia.
  - apply map_set_has_key.
  - apply map_set_has_key.
  - unfold getPendingRequestsCount. simpl. apply map_set_length.
  - simpl. unfold dispatches, logged. rewrite flat_map_app.
    destruct (enableLogging (config s)); simpl; now rewrite app_nil_r.
Qed.

Lemma failed_fetch_is_queued_witness :
  fst (intercepted_fetch "/api/users" no_init (Throw type_error) "r1" fresh)
  = Normal (Deferred 0 true)
  /\ getPendingRequestsCount
       (snd (intercepted_fetch "/api/users" no_init (Normal response_503) "r1"
                               fresh))
     = 1%nat.
Proof.
  split.
  - apply (failed_fetch_is_queued "/api/users" no_init (Throw type_error) "r1"
             fresh).
    reflexivity.
  - apply (failed_fetch_is_queued "/api/users" no_init (Normal response_503)
             "r1" fresh).
    split; reflexivity.
Defined.

(* ------------------------------------------------------------------------- *)
(** ** The XHR wrapper under the default policy *)

(** X5.  Under the default retry condition the [onload] handler of the XHR
    wrapper queues the request exactly when the status is 500 or more, 408 or
    429 (a status below 400, 0 included, never reaches the condition): the
    request is stored with the method, the url and the body of the original
    call and the fixed header [Content-Type: application/json], and the
    original [onload] is not called.  For every other status the original
    [onload] is called and nothing else happens. *)
Theorem xhr_onload_default (xhr : nat) (st : Z) (m u : string)
    (d : option string) (rid : string) (s : State) :
  default_policy s ->
  xhr_onload xhr st m u d rid s
  = (Normal tt,
     if (st >=? 500) || (st =? 408) || (st =? 429)
     then set_trace (trace s ++ logged s (LogStoredXHR rid))
            (set_pendingRequests
               (map_set rid (List.length (heap s)) (pendingRequests s))
               (set_heap (heap s ++ [new_request rid u (xhr_options m d)
                                       (clock s)
                                       (ForXHR (List.length (promises s)) xhr)])
                  (set_promises (promises s ++ [Pending]) s)))
     else set_trace (trace s ++ [EvXhrOriginalOnLoad xhr]) s).
Proof.
  intros Hpol. unfold xhr_onload. unfold bind at 1.
  assert (E : (if st >=? 400
               then call_retryCondition None
                      (Some {| status := st; statusText := ""; ok := false |})
               else ret false) s
              = (Normal ((st >=? 500) || (st =? 408) || (st =? 429)), s)).
  { destruct (st >=? 400) eqn:E4.
    - unfold call_retryCondition, bind, gets, complete. rewrite Hpol.
      unfold defaultRetryCondition. simpl.
      assert (E0 : (st =? 0) = false)
        by (apply Z.eqb_neq; rewrite Z.geb_leb in E4; apply Z.leb_le in E4; lia).
      now rewrite E0, orb_false_r.
    - rewrite Z.geb_leb in E4. apply Z.leb_gt in E4.
      assert (E5 : (st >=? 500) = false)
        by (rewrite Z.geb_leb; apply Z.leb_gt; lia).
      assert (E8 : (st =? 408) = false) by (apply Z.eqb_neq; lia).
      assert (E9 : (st =? 429) = false) by (apply Z.eqb_neq; lia).
      now rewrite E5, E8, E9. }
  rewrite E.
  destruct ((st >=? 500) || (st =? 408) || (st =? 429)); [| reflexivity].
  unfold handleFailedXHRRequest, extractXHRHeaders. unfold bind at 1.
  pose proof (queue_request rid u (xhr_options m d) (fun p => ForXHR p xhr)
                (LogStoredXHR rid) s) as Q.
  unfold xhr_options in Q at 1. rewrite Q. reflexivity.
Qed.

Lemma xhr_onload_default_witness :
  pendingRequests (snd (xhr_onload 0 503 "POST" "/api/orders" None "q7" fresh))
  = [("q7", 0%nat)]
  /\ xhr_onload 0 404 "POST" "/api/orders" None "q7" fresh
     = (Normal tt, set_trace [EvXhrOriginalOnLoad 0] fresh).
Proof.
  split.
  - rewrite (xhr_onload_default 0 503 "POST" "/api/orders" None "q7" fresh).
    + reflexivity.
    + intros e r. reflexivity.
  - rewrite (xhr_onload_default 0 404 "POST" "/api/orders" None "q7" fresh).
    + reflexivity.
    + intros e r. reflexivity.
Defined.

(* ------------------------------------------------------------------------- *)
(** ** Views of the state that a computation leaves alone *)

Section Stability.

Context {X : Type}.
Variable view : State -> X.

Lemma Stable_ret {A : Type} (a : A) : Stable view (ret a).
Proof. intros s. reflexivity. Qed.

Lemma Stable_complete {A : Type} (c : Completion A) : Stable view (complete c).
Proof. intros s. reflexivity. Qed.

Lemma Stable_gets {A : Type} (f : State -> A) : Stable view (gets f).
Proof. intros s. reflexivity. Qed.

Lemma Stable_modify (f : State -> State) :
  (forall s, view (f s) = view s) -> Stable view (modify f).
Proof. intros H s. apply H. Qed.

Lemma Stable_bind {A B : Type} (m : Eng A) (k : A -> Eng B) :
  Stable view m -> (forall a, Stable view (k a)) -> Stable view (bind m k).
Proof.
  intros Hm Hk s. unfold bind. specialize (Hm s).
  destruct (m s) as [[a|e] s1]; simpl in *; [| exact Hm].
  now rewrite Hk.
Qed.

Lemma Stable_try_catch {A : Type} (m : Eng A) (h : JsError -> Eng A) :
  Stable view m -> (forall e, Stable view (h e)) -> Stable view (try_catch m h).
Proof.
  intros Hm Hh s. unfold try_catch. specialize (Hm s).
  destruct (m s) as [[a|e] s1]; simpl in *; [exact Hm |].
  now rewrite Hh.
Qed.

Lemma Stable_when (b : bool) (m : Eng unit) :
  Stable view m -> Stable view (when b m).
Proof. intros H. destruct b; [exact H | apply Stable_ret]. Qed.

Lemma Stable_for_each (l : list nat) (f : nat -> Eng unit) :
  (forall a, Stable view (f a)) -> Stable view (for_each l f).
Proof.
  intros Hf. induction l as [|a l IH]; simpl.
  - apply Stable_ret.
  - apply Stable_bind; [apply Hf | intros _; exact IH].
Qed.

Lemma Stable_turn (m : Eng unit) (s : State) :
  Stable view m ->
  (forall s e, view (set_trace (trace s ++ [EvUncaught e]) s) = view s) ->
  view (turn m s) = view s.
Proof.
  intros Hm Hev. unfold turn. specialize (Hm s).
  destruct (m s) as [[[]|e] s1]; simpl in *; [exact Hm |].
  now rewrite Hev.
Qed.

End Stability.

Lemma dispatches_app (t u : list Event) :
  dispatches (t ++ u) = dispatches t ++ dispatches u.
Proof. unfold dispatches. apply flat_map_app. Qed.

Lemma callbacks_app (t u : list Event) :
  callbacks (t ++ u) = callbacks t ++ callbacks u.
Proof. unfold callbacks. apply flat_map_app. Qed.

Lemma attempts_app (a : nat) (t u : list Event) :
  attempts a (t ++ u) = (attempts a t + attempts a u)%nat.
Proof. unfold attempts. now rewrite dispatches_app, filter_app, length_app. Qed.

Lemma dispatches_logged (s : State) (m : LogMessage) : dispatches (logged s m) = [].
Proof. unfold logged. now destruct (enableLogging (config s)). Qed.

Lemma callbacks_logged (s : State) (m : LogMessage) : callbacks (logged s m) = [].
Proof. unfold logged. now destruct (enableLogging (config s)). Qed.

(** Unfolds the methods that run no sweep, and the two halves of the loop
    body, down to the assignments they are made of. *)
Ltac open_engine :=
  unfold intercepted_fetch, xhr_onerror, xhr_onload, handleFailedRequest,
    handleFailedXHRRequest, updateConfig, handleOffline, clearPendingRequests,
    settle, catch_block;
  unfold call_resolve, call_reject, call_retryCondition, call_onRetry,
    call_onMaxRetriesExceeded, pendingRequests_delete, pendingRequests_set,
    settle_promise, mutate, deref, Date_now;
  unfold log; unfold emit.

(** Decomposes a computation along its syntax; [leaf] shows that one
    assignment leaves the view alone. *)
Ltac stable_step leaf :=
  match goal with
  | |- Stable _ (bind _ _) => apply Stable_bind; [| intro]
  | |- Stable _ (try_catch _ _) => apply Stable_try_catch; [| intro]
  | |- Stable _ (ret _) => apply Stable_ret
  | |- Stable _ (complete _) => apply Stable_complete
  | |- Stable _ (gets _) => apply Stable_gets
  | |- Stable _ (when _ _) => apply Stable_when
  | |- Stable _ (for_each _ _) => apply Stable_for_each; intro
  | |- Stable _ (modify _) => apply Stable_modify; intro; leaf
  | |- Stable _ (allocate _) => intro; unfold allocate; cbn [snd]; leaf
  | |- Stable _ new_Promise => intro; unfold new_Promise; cbn [snd]; leaf
  | |- Stable _ (if ?b then _ else _) => destruct b
  | |- Stable _ (match ?x with _ => _ end) => destruct x
  end.

Ltac stable leaf := open_engine; repeat (cbv beta; stable_step leaf).

Ltac trace_leaf :=
  unfold quiet_view, retry_view, transport_view; simpl;
  rewrite ?dispatches_app, ?callbacks_app, ?firings_app; simpl;
  rewrite ?app_nil_r; reflexivity.

(* ------------------------------------------------------------------------- *)
(** ** Starting and stopping *)

Lemma retryPendingRequests_returns (s : State) :
  fst (retryPendingRequests s) = Normal tt.
Proof.
  unfold retryPendingRequests, bind, gets, detached.
  now destruct (sweep_loop (map_values (pendingRequests s)) s) as [[w|e] s1].
Qed.

Lemma retryLoop_returns (s : State) :
  fst (retryLoop s) = Normal tt /\ retryTimer (snd (retryLoop s)) = true.
Proof.
  unfold retryLoop.
  rewrite (bind_normal _ _ _ (isOnline s)) by reflexivity.
  rewrite (bind_normal _ _ _ (getPendingRequestsCount s)) by reflexivity.
  cbn [gets snd].
  destruct (isOnline s && Nat.ltb 0 (getPendingRequestsCount s)); unfold when.
  - rewrite (bind_normal _ _ _ tt (retryPendingRequests_returns s)).
    now split.
  - now split.
Qed.

Lemma start_returns (s : State) :
  fst (start s) = Normal tt /\ isActive (snd (start s)) = true.
Proof.
  unfold start. rewrite (bind_normal _ _ _ (isActive s)) by reflexivity.
  cbn [gets snd]. destruct (isActive s) eqn:Ha.
  - unfold log, bind, gets, when, emit, modify, ret.
    destruct (enableLogging (config s)); simpl; now split.
  - destruct (retryLoop_returns s) as [Hr _].
    rewrite (bind_normal _ _ _ tt Hr).
    rewrite (bind_normal _ _ _ tt) by reflexivity.
    unfold modify at 1. cbn [snd].
    unfold log, bind, gets, when, emit, modify, ret. simpl.
    destruct (enableLogging (config (snd (retryLoop s)))); simpl; now split.
Qed.

(** X6.  [start()] never throws, whatever the callbacks do in the sweep it
    may run, and leaves the interceptor active; a second [start()] does
    nothing but print a line: no second sweep is run, no second timer is
    armed, and up to the log the state is the one the first call left. *)
Theorem start_is_idempotent (s : State) :
  fst (start s) = Normal tt
  /\ isActive (step CallStart s) = true
  /\ step CallStart (step CallStart s)
     = snd (log LogAlreadyActive (step CallStart s))
  /\ unlog (step CallStart (step CallStart s)) = unlog (step CallStart s).
Proof.
  destruct (start_returns s) as [Hr Ha].
  assert (E1 : step CallStart s = snd (start s)).
  { unfold step, turn. destruct (start s) as [[[]|e] s1]; [reflexivity |].
    discriminate. }
  assert (E2 : step CallStart (step CallStart s)
               = snd (log LogAlreadyActive (step CallStart s))).
  { rewrite E1. unfold step at 1. unfold turn, start at 1.
    rewrite (bind_normal _ _ _ true) by (cbn [gets fst]; now rewrite Ha).
    cbn [gets snd].
    destruct (log_view LogAlreadyActive (snd (start s))) as [Hl _].
    destruct (log LogAlreadyActive (snd (start s))) as [[[]|e] s2];
      [reflexivity | discriminate]. }
  split; [exact Hr |]. split; [now rewrite E1 |]. split; [exact E2 |].
  rewrite E2. exact (proj2 (unlog_log _ _)).
Qed.

(** What [clearPendingRequests] leaves, field by field. *)
Lemma clearPendingRequests_run (s : State) :
  clearPendingRequests s
  = (Normal tt,
     set_trace (trace s
                ++ map (fun a => EvReject a (object s a) cleared_error)
                       (map_values (pendingRequests s))
                ++ logged s LogCleared)
               (set_pendingRequests [] s)).
Proof.
  unfold clearPendingRequests. unfold bind at 1. unfold gets at 1.
  unfold bind at 1. rewrite for_each_reject_cleared.
  run_engine. simpl.
  destruct (enableLogging (config s)); simpl;
    rewrite <- ?app_assoc, ?app_nil_r; reflexivity.
Qed.

Lemma firings_cleared (s : State) :
  firings (map (fun a => EvReject a (object s a) cleared_error)
               (map_values (pendingRequests s))
           ++ logged s LogCleared)
  = map (fun a => (a, object s a, Failure cleared_error))
        (map_values (pendingRequests s)).
Proof. now rewrite firings_app, firings_rejects, firings_logged, app_nil_r. Qed.

Lemma dispatches_rejects (s : State) (l : list nat) (e : JsError) :
  dispatches (map (fun a => EvReject a (object s a) e) l) = [].
Proof. induction l as [|a l IH]; simpl; [reflexivity | exact IH]. Qed.

Lemma callbacks_rejects (s : State) (l : list nat) (e : JsError) :
  callbacks (map (fun a => EvReject a (object s a) e) l) = [].
Proof. induction l as [|a l IH]; simpl; [reflexivity | exact IH]. Qed.

(** X7.  [clearPendingRequests()] in any state: it never throws; the map is
    empty afterwards; the failure continuation of every request that was in
    the map is called once with the [INTERCEPTOR_CLEARED] error, in the order
    of insertion; no promise changes state, so no caller of a queued request
    is told anything; the interceptor stays as active as it was, its timer
    as armed, and a sweep that is suspended at a dispatch is not cancelled. *)
Theorem clearPendingRequests_in_any_state (s : State) :
  let s' := step CallClearPendingRequests s in
  fst (clearPendingRequests s) = Normal tt
  /\ getPendingRequestsCount s' = 0%nat
  /\ firings (trace s')
     = firings (trace s)
       ++ map (fun a => (a, object s a, Failure cleared_error))
              (map_values (pendingRequests s))
  /\ promises s' = promises s
  /\ (forall r, caller_outcome s' r = caller_outcome s r)
  /\ isActive s' = isActive s /\ retryTimer s' = retryTimer s
  /\ retry_view s' = retry_view s.
Proof.
  intros s'. subst s'. unfold step, turn. rewrite clearPendingRequests_run.
  cbn [fst snd].
  split; [reflexivity |]. split; [reflexivity |]. split.
  { cbn [trace set_trace]. now rewrite firings_app, firings_cleared. }
  split; [reflexivity |]. split; [intros r; reflexivity |].
  split; [reflexivity |]. split; [reflexivity |].
  unfold retry_view. simpl.
  now rewrite !dispatches_app, !callbacks_app, dispatches_rejects,
    callbacks_rejects, dispatches_logged, callbacks_logged, !app_nil_r.
Qed.

Lemma stop_inactive (s : State) :
  isActive s = false -> stop s = (Normal tt, s).
Proof. intros H. unfold stop, bind, gets. now rewrite H. Qed.

Lemma stop_active (s : State) :
  isActive s = true ->
  stop s
  = (Normal tt,
     set_trace
       (trace s
        ++ (map (fun a => EvReject a (object s a) cleared_error)
                (map_values (pendingRequests s))
            ++ logged s LogCleared)
        ++ logged s LogStopped)
       (set_isActive false
          (set_pendingRequests [] (set_retryTimer false s)))).
Proof.
  intros Ha. unfold stop. unfold bind at 1. unfold gets at 1. rewrite Ha.
  cbn [negb]. unfold bind at 1. unfold modify at 1.
  unfold bind at 1. rewrite clearPendingRequests_run.
  unfold log, bind, gets, when, emit, modify, ret, logged. simpl.
  destruct (enableLogging (config s)); simpl;
    rewrite <- ?app_assoc, ?app_nil_r; reflexivity.
Qed.

Lemma stop_returns (s : State) :
  fst (stop s) = Normal tt /\ isActive (snd (stop s)) = false.
Proof.
  destruct (isActive s) eqn:Ha.
  - now rewrite (stop_active s Ha).
  - now rewrite (stop_inactive s Ha).
Qed.

(** X8.  [stop()] never throws and leaves the interceptor inactive.  On an
    active interceptor it disarms the timer and clears the map as
    [clearPendingRequests] does: every queued request's failure continuation
    is called with the [INTERCEPTOR_CLEARED] error.  On an inactive one it
    does nothing at all, so requests that were queued after an earlier
    [stop()] stay in the map.  In both cases no promise changes state, a
    sweep that is suspended at a dispatch is not cancelled, and a second
    [stop()] changes nothing. *)
Theorem stop_effect (s : State) :
  let s' := step CallStop s in
  fst (stop s) = Normal tt
  /\ isActive s' = false
  /\ (if isActive s
      then pendingRequests s' = [] /\ retryTimer s' = false
           /\ firings (trace s')
              = firings (trace s)
                ++ map (fun a => (a, object s a, Failure cleared_error))
                       (map_values (pendingRequests s))
      else s' = s)
  /\ promises s' = promises s
  /\ sweeps s' = sweeps s
  /\ step CallStop s' = s'.
Proof.
  intros s'. subst s'.
  destruct (isActive s) eqn:Ha.
  - pose proof (stop_active s Ha) as E.
    assert (Es : step CallStop s = snd (stop s))
      by (unfold step, turn; now rewrite E).
    rewrite Es, E. cbn [fst snd].
    split; [reflexivity |]. split; [reflexivity |].
    split; [| split; [reflexivity | split; [reflexivity |]]].
    + split; [reflexivity |]. split; [reflexivity |]. cbn [trace set_trace].
      now rewrite 2 firings_app, firings_cleared, firings_logged, app_nil_r.
    + unfold step, turn. rewrite stop_inactive; reflexivity.
  - unfold step, turn. rewrite (stop_inactive s Ha). cbn [fst snd].
    rewrite (stop_inactive s Ha). now repeat split.
Qed.

(* ------------------------------------------------------------------------- *)
(** ** More on the loop body *)



(** The first half of the loop body for a request that is due, in full. *)
Lemma attempt_run (a : nat) (s : State) :
  due s a = true ->
  let request := object (bumped a s) a in
  let s1 := set_trace (trace s ++ [EvOnRetry (retryCount request)
                                             (metadata request)])
                      (bumped a s) in
  attempt a s
  = match onRetry (config s) None (retryCount request) (metadata request) with
    | Normal _ =>
        (Normal Dispatched,
         set_trace (trace s1
                    ++ logged s (LogRetrying (id request) (retryCount request)
                                             (maxRetries (config s)))
                    ++ [EvDispatch a (url request) (options request)]) s1)
    | Throw e => (catch_block a e ;; ret Caught) s1
    end.
Proof.
  intros Hdue request s1. unfold due in Hdue. apply negb_true_iff in Hdue.
  unfold attempt. unfold bind at 1. unfold deref at 1, gets at 1.
  unfold bind at 1. unfold Date_now at 1, gets at 1.
  unfold bind at 1. unfold gets at 1. rewrite Hdue.
  unfold try_catch, mutate, call_onRetry, log, emit, when, deref, Date_now,
    bind, gets, modify, complete, ret, object, logged. simpl.
  rewrite update_nth_twice.
  change (fun x : PendingRequest =>
            set_timestamp (clock s) (set_retryCount (retryCount x + 1) x))
    with (bump (clock s)).
  repeat match goal with
         | |- context [set_heap ?X (set_heap ?Y s)] =>
             change (set_heap X (set_heap Y s)) with (bumped a s)
         end.
  change (nth a (update_nth a (bump (clock s)) (heap s)) blank)
    with (object (bumped a s) a).
  fold request.
  destruct (onRetry (config s) None (retryCount request) (metadata request))
    as [[]|e]; simpl.
  - subst s1. destruct (enableLogging (config s)); simpl;
      rewrite <- ?app_assoc; reflexivity.
  - subst s1. reflexivity.
Qed.

Lemma catch_block_transport (a : nat) (e : JsError) :
  Stable transport_view (catch_block a e).
Proof. stable ltac:(trace_leaf). Qed.

Lemma settle_transport (a : nat) (o : Completion Response) :
  Stable transport_view (settle a o).
Proof. stable ltac:(trace_leaf). Qed.

Lemma attempt_not_due (a : nat) (s : State) :
  due s a = false -> attempt a s = (Normal NotDue, s).
Proof.
  unfold due. intros H. apply negb_false_iff in H.
  unfold attempt, bind, deref, Date_now, gets. now rewrite H.
Qed.

(** X10.  When [onRetry] throws, the request is not dispatched, although its
    counter and its timestamp have been updated already; the error goes to
    the same [catch] block as an error of the transport, so the request is
    handled as if an attempt had been made and had failed with the error of
    the callback. *)
Theorem onRetry_throws_is_a_failed_attempt
    (s : State) (a : nat) (error : JsError) :
  (a < List.length (heap s))%nat ->
  due s a = true ->
  let request := object s a in
  onRetry (config s) None (retryCount request + 1) (metadata request)
  = Throw error ->
  let s1 := set_trace (trace s ++ [EvOnRetry (retryCount request + 1)
                                             (metadata request)])
                      (bumped a s) in
  attempt a s = (catch_block a error ;; ret Caught) s1
  /\ retryCount (object s1 a) = retryCount request + 1
  /\ timestamp (object s1 a) = clock s
  /\ fst (attempt a s) <> Normal Dispatched
  /\ dispatches (trace (snd (attempt a s))) = dispatches (trace s).
Proof.
  intros Ha Hdue request Hcb s1.
  pose proof (attempt_run a s Hdue) as E. cbv zeta in E.
  rewrite (object_bumped_same s a Ha) in E. fold request in E.
  change (retryCount (bump (clock s) request)) with (retryCount request + 1) in E.
  change (metadata (bump (clock s) request)) with (metadata request) in E.
  rewrite Hcb in E. fold s1 in E.
  assert (Ho : object s1 a = bump (clock s) request)
    by (exact (object_bumped_same s a Ha)).
  split; [exact E |]. split; [now rewrite Ho |]. split; [now rewrite Ho |].
  rewrite E. unfold bind, ret.
  pose proof (catch_block_transport a error s1) as Hst.
  destruct (catch_block a error s1) as [[[]|e] s2]; cbn [fst snd] in *;
    (split; [discriminate |]);
    unfold transport_view in Hst; injection Hst as Hd _; rewrite Hd;
    subst s1; cbn [trace set_trace]; rewrite dispatches_app; simpl;
    now rewrite app_nil_r.
Qed.

(** An [onRetry] that always throws, on a request that is due. *)
Lemma onRetry_throws_is_a_failed_attempt_witness :
  let c := RetryConfig.mk None None None None
             (Some (fun _ _ _ => Throw abort_error)) None None in
  let s := run (one_queued ++ [TimePasses 5000]) (constructor c true 0) in
  fst (attempt 0 s) <> Normal Dispatched
  /\ dispatches (trace (snd (attempt 0 s))) = dispatches (trace s).
Proof.
  intros c s.
  destruct (onRetry_throws_is_a_failed_attempt s 0 abort_error)
    as [_ [_ [_ [H1 H2]]]].
  - vm_compute. lia.
  - reflexivity.
  - reflexivity.
  - split; assumption.
Defined.

Lemma nth_Some_length {A : Type} (l : list (option A)) (i : nat) (x : A) :
  nth i l None = Some x -> (i < List.length l)%nat.
Proof.
  intros H. destruct (Nat.lt_ge_cases i (List.length l)) as [Hi | Hi];
    [exact Hi |].
  rewrite nth_overflow in H by exact Hi. discriminate.
Qed.

(** X11.  When [onMaxRetriesExceeded] throws while a request is being
    exhausted after an error of the transport, the request is lost: its id
    has been deleted from the map already, neither of its continuations is
    called and no promise changes state, so its caller is never told; the
    exception ends the sweep, which does not go on to the requests that
    remain in its snapshot, and is reported by nobody but the platform. *)
Theorem onMaxRetriesExceeded_throws_loses_the_request
    (s : State) (i : nat) (w : Sweep) (error thrown : JsError) :
  nth i (sweeps s) None = Some w ->
  let request := object s (current w) in
  retryCount request >= maxRetries (config s) ->
  onMaxRetriesExceeded (config s) (Some error) (metadata request) = Throw thrown ->
  let s' := step (DispatchSettles i (Throw error)) s in
  pendingRequests s' = map_delete (id request) (pendingRequests s)
  /\ has_key (id request) (pendingRequests s') = false
  /\ trace s'
     = trace s ++ [EvOnMaxRetriesExceeded (Some error) (metadata request);
                   EvUncaught thrown]
  /\ firings (trace s') = firings (trace s)
  /\ promises s' = promises s
  /\ nth i (sweeps s') None = None
  /\ dispatches (trace s') = dispatches (trace s).
Proof.
  intros Hw request Hrc Hcb s'.
  assert (Hge : (retryCount (object s (current w)) >=? maxRetries (config s))
                = true) by (apply Z.geb_le; fold request; lia).
  assert (E : s' = park (Some i) None
                     (set_trace (trace s
                                 ++ [EvOnMaxRetriesExceeded (Some error)
                                       (metadata request);
                                     EvUncaught thrown])
                        (set_pendingRequests
                           (map_delete (id request) (pendingRequests s)) s))).
  { subst s'. unfold step, turn, resume. unfold bind at 1. unfold gets at 1.
    rewrite Hw. unfold detached. unfold bind at 1. rewrite settle_throw.
    unfold catch_block. unfold bind at 1. unfold deref at 1, gets at 1.
    unfold bind at 1. unfold gets at 1. rewrite Hge.
    unfold call_onMaxRetriesExceeded, pendingRequests_delete, emit, bind, gets,
      modify, complete. simpl. fold request. rewrite Hcb. simpl.
    now rewrite <- app_assoc. }
  rewrite E. unfold park. cbn [pendingRequests set_sweeps set_trace
                               set_pendingRequests trace promises sweeps].
  split; [reflexivity |]. split; [apply has_key_map_delete |].
  split; [reflexivity |]. split.
  { rewrite firings_app. simpl. now rewrite app_nil_r. }
  split; [reflexivity |]. split.
  - rewrite nth_update_nth_eq; [reflexivity |].
    now apply (nth_Some_length _ _ w).
  - rewrite dispatches_app. simpl. now rewrite app_nil_r.
Qed.

(** An [onMaxRetriesExceeded] that always throws, under a ceiling of 1. *)
Lemma onMaxRetriesExceeded_throws_loses_the_request_witness :
  let c := RetryConfig.mk None None (Some 1) None None
             (Some (fun _ _ => Throw abort_error)) None in
  let s := run one_in_flight (constructor c true 0) in
  let s' := step (DispatchSettles 0 (Throw type_error)) s in
  has_key "r1" (pendingRequests s) = true
  /\ pendingRequests s' = []
  /\ firings (trace s') = []
  /\ nth_error (promises s') 0 = Some Pending.
Proof.
  intros c s s'.
  destruct (onMaxRetriesExceeded_throws_loses_the_request s 0
              {| current := 0; remaining := [] |} type_error abort_error)
    as [H1 [_ [_ [H2 [H3 _]]]]].
  - reflexivity.
  - vm_compute. discriminate.
  - reflexivity.
  - split; [reflexivity |]. split; [exact H1 |]. split; [exact H2 |].
    subst s'. rewrite H3. reflexivity.
Defined.

(* ------------------------------------------------------------------------- *)
(** ** The order of a sweep *)




(* ------------------------------------------------------------------------- *)
(** ** One call of the transport per turn *)

Lemma attempt_transport (a : nat) (s : State) :
  sweeps (snd (attempt a s)) = sweeps s
  /\ match fst (attempt a s) with
     | Normal Dispatched =>
         exists d, dispatches (trace (snd (attempt a s)))
                   = dispatches (trace s) ++ [d]
     | _ => dispatches (trace (snd (attempt a s))) = dispatches (trace s)
     end.
Proof.
  destruct (due s a) eqn:Hdue.
  - rewrite (attempt_run a s Hdue). cbv zeta.
    match goal with
    | |- context [onRetry (config s) None ?n ?m] =>
        destruct (onRetry (config s) None n m) as [[]|e]
    end.
    + cbn [fst snd]. split; [reflexivity |]. eexists.
      cbn [trace set_trace].
      rewrite !dispatches_app, dispatches_logged. simpl.
      now rewrite app_nil_r.
    + unfold bind, ret.
      match goal with
      | |- context [catch_block a e ?s1] =>
          pose proof (catch_block_transport a e s1) as Hst;
          destruct (catch_block a e s1) as [[[]|e'] s2]
      end; cbn [fst snd] in *; unfold transport_view in Hst;
        injection Hst as Hd Hw; rewrite Hd, Hw; cbn [trace set_trace];
        rewrite dispatches_app; simpl; rewrite app_nil_r; now split.
  - rewrite (attempt_not_due a s Hdue). now split.
Qed.

Lemma sweep_loop_transport (l : list nat) (s : State) :
  sweeps (snd (sweep_loop l s)) = sweeps s
  /\ match fst (sweep_loop l s) with
     | Normal (Some w) =>
         exists d, dispatches (trace (snd (sweep_loop l s)))
                   = dispatches (trace s) ++ [d]
     | _ => dispatches (trace (snd (sweep_loop l s))) = dispatches (trace s)
     end.
Proof.
  revert s. induction l as [|a rest IH]; intros s; simpl.
  - now split.
  - unfold bind. pose proof (attempt_transport a s) as [Hw Hd].
    destruct (attempt a s) as [[[| |]|e] s1]; cbn [fst snd] in *.
    + destruct (IH s1) as [Hw1 Hd1]. rewrite Hw1, Hw. split; [reflexivity |].
      now rewrite <- Hd.
    + destruct (IH s1) as [Hw1 Hd1]. rewrite Hw1, Hw. split; [reflexivity |].
      now rewrite <- Hd.
    + unfold ret. cbn [fst snd]. now split.
    + now split.
Qed.

Lemma at_most_once_stable (s s' : State) :
  transport_view s' = transport_view s -> at_most_once s s'.
Proof.
  unfold transport_view. intros H. injection H as Hd Hw.
  exists []. rewrite app_nil_r. split; [exact Hd |]. split; [simpl; lia |].
  congruence.
Qed.

Lemma at_most_once_before (s0 s s' : State) :
  transport_view s = transport_view s0 -> at_most_once s s' ->
  at_most_once s0 s'.
Proof.
  unfold transport_view. intros H [ds [Hd Hrest]]. injection H as Hd0 _.
  exists ds. split; [congruence | exact Hrest].
Qed.

Lemma at_most_once_after (s s' s'' : State) :
  at_most_once s s' -> transport_view s'' = transport_view s' ->
  at_most_once s s''.
Proof.
  unfold transport_view. intros [ds [Hd [Hlen Hidle]]] H. injection H as Hd' Hw'.
  exists ds. split; [congruence |]. split; [exact Hlen |].
  intros Hne. unfold idle. rewrite Hw'. now apply Hidle.
Qed.

Lemma idle_parked_new (w : Sweep) (s : State) :
  idle (park None (Some w) s) = false.
Proof.
  unfold idle, park. simpl. rewrite forallb_app. simpl.
  apply andb_false_r.
Qed.

Lemma idle_parked_slot (i : nat) (w0 w : Sweep) (s : State) :
  nth i (sweeps s) None = Some w0 ->
  idle (park (Some i) (Some w) s) = false.
Proof.
  unfold idle, park. simpl. generalize (sweeps s). intros l. revert i.
  induction l as [|x l IH]; intros [|i] H; simpl in *; try discriminate.
  - reflexivity.
  - rewrite (IH i H). apply andb_false_r.
Qed.

Lemma retryPendingRequests_once (s : State) :
  at_most_once s (snd (retryPendingRequests s)).
Proof.
  unfold retryPendingRequests, bind, gets, detached.
  pose proof (sweep_loop_transport (map_values (pendingRequests s)) s) as [Hw Hd].
  destruct (sweep_loop (map_values (pendingRequests s)) s) as [[[w|]|e] s1];
    cbn [fst snd] in *.
  - destruct Hd as [d Hd]. exists [d]. split; [exact Hd |].
    split; [simpl; lia |]. intros _. apply idle_parked_new.
  - apply at_most_once_stable. unfold transport_view. simpl. congruence.
  - apply at_most_once_stable. unfold transport_view, park. simpl.
    rewrite dispatches_app. simpl. rewrite app_nil_r. congruence.
Qed.

Lemma transport_view_closed (i : nat) (w : Sweep) (e : JsError) (s s1 : State) :
  nth i (sweeps s) None = Some w ->
  dispatches (trace s1) = dispatches (trace s) ->
  at_most_once s (park (Some i) None
                       (set_trace (trace s1 ++ [EvUncaught e]) s1)).
Proof.
  intros Hn Hd. exists []. rewrite app_nil_r. unfold park.
  cbn [trace set_trace set_sweeps]. rewrite dispatches_app. simpl.
  rewrite app_nil_r. split; [exact Hd |]. split; [simpl; lia |].
  intros H. now contradiction H.
Qed.

Lemma resume_once (i : nat) (o : Completion Response) (s : State) :
  fst (resume i o s) = Normal tt /\ at_most_once s (snd (resume i o s)).
Proof.
  unfold resume, bind, gets.
  destruct (nth i (sweeps s) None) as [w|] eqn:Hn.
  - unfold detached.
    pose proof (settle_transport (current w) o s) as Hst.
    destruct (settle (current w) o s) as [[[]|e] s1]; cbn [fst snd] in *;
      unfold transport_view in Hst; injection Hst as Hd1 Hw1.
    + pose proof (sweep_loop_transport (remaining w) s1) as [Hw2 Hd2].
      destruct (sweep_loop (remaining w) s1) as [[[w'|]|e] s2];
        cbn [fst snd] in *; (split; [reflexivity |]).
      * destruct Hd2 as [d Hd2]. exists [d].
        split; [unfold park; simpl; congruence |].
        split; [simpl; lia |]. intros _.
        apply (idle_parked_slot i w). congruence.
      * exists []. rewrite app_nil_r. unfold park. simpl.
        split; [congruence |]. split; [lia |]. intros H. now contradiction H.
      * apply (transport_view_closed i w); [exact Hn | congruence].
    + split; [reflexivity |]. now apply (transport_view_closed i w).
  - split; [reflexivity |]. now apply at_most_once_stable.
Qed.

Lemma retryLoop_state (s : State) :
  snd (retryLoop s)
  = set_retryTimer true
      (if isOnline s && Nat.ltb 0 (getPendingRequestsCount s)
       then snd (retryPendingRequests s) else s).
Proof.
  unfold retryLoop.
  rewrite (bind_normal _ _ _ (isOnline s)) by reflexivity.
  rewrite (bind_normal _ _ _ (getPendingRequestsCount s)) by reflexivity.
  cbn [gets snd].
  destruct (isOnline s && Nat.ltb 0 (getPendingRequestsCount s)); unfold when.
  - now rewrite (bind_normal _ _ _ tt (retryPendingRequests_returns s)).
  - reflexivity.
Qed.

Lemma retryLoop_once (s : State) : at_most_once s (snd (retryLoop s)).
Proof.
  rewrite retryLoop_state.
  destruct (isOnline s && Nat.ltb 0 (getPendingRequestsCount s)).
  - apply (at_most_once_after s (snd (retryPendingRequests s)));
      [apply retryPendingRequests_once | reflexivity].
  - now apply at_most_once_stable.
Qed.

Lemma log_transport (m : LogMessage) : Stable transport_view (log m).
Proof. stable ltac:(trace_leaf). Qed.

Lemma turn_returns (m : Eng unit) (s : State) :
  fst (m s) = Normal tt -> turn m s = snd (m s).
Proof. unfold turn. destruct (m s) as [[[]|e] s1]; simpl; congruence. Qed.

Lemma start_state (s : State) :
  snd (start s)
  = if isActive s then snd (log LogAlreadyActive s)
    else snd (log LogStarted (set_isActive true (snd (retryLoop s)))).
Proof.
  unfold start. rewrite (bind_normal _ _ _ (isActive s)) by reflexivity.
  cbn [gets snd]. destruct (isActive s); [reflexivity |].
  rewrite (bind_normal _ _ _ tt (proj1 (retryLoop_returns s))).
  now rewrite (bind_normal _ _ _ tt) by reflexivity.
Qed.

Lemma handleOnline_state (s : State) :
  fst (handleOnline s) = Normal tt
  /\ snd (handleOnline s)
     = snd (retryPendingRequests (set_isOnline true (snd (log LogOnline s)))).
Proof.
  unfold handleOnline.
  rewrite (bind_normal _ _ _ tt (proj1 (log_view LogOnline s))).
  rewrite (bind_normal _ _ _ tt) by reflexivity.
  unfold modify. cbn [snd]. split; [apply retryPendingRequests_returns | reflexivity].
Qed.

Ltac stable_turn :=
  apply at_most_once_stable, Stable_turn;
  [ stable ltac:(trace_leaf) | intros; trace_leaf ].

(** X13.  In one turn of the event loop, whatever the turn is and whatever
    the state and the callbacks are, the interceptor calls the transport at
    most once; and when it has called it, a sweep is left suspended at that
    call: the requests behind it wait until the call has settled. *)
Theorem one_dispatch_per_turn (l : Label) (s : State) :
  exists ds,
    dispatches (trace (step l s)) = dispatches (trace s) ++ ds
    /\ (List.length ds <= 1)%nat
    /\ (ds <> [] -> idle (step l s) = false).
Proof.
  change (at_most_once s (step l s)).
  destruct l; unfold step.
  - rewrite (turn_returns _ _ (proj1 (start_returns s))), start_state.
    destruct (isActive s).
    + apply at_most_once_stable, log_transport.
    + apply (at_most_once_after s (snd (retryLoop s)));
        [apply retryLoop_once |].
      now rewrite log_transport.
  - rewrite (turn_returns _ _ (proj1 (stop_returns s))).
    apply at_most_once_stable. unfold stop.
    apply Stable_bind; [apply Stable_gets | intros active].
    destruct (negb active); [apply Stable_ret |].
    stable ltac:(trace_leaf).
  - stable_turn.
  - stable_turn.
  - destruct (isActive s); [| now apply at_most_once_stable].
    destruct (handleOnline_state s) as [Hr Hs].
    rewrite (turn_returns _ _ Hr), Hs.
    apply (at_most_once_before _ (set_isOnline true (snd (log LogOnline s))));
      [| apply retryPendingRequests_once].
    change (transport_view (snd (log LogOnline s)) = transport_view s).
    apply log_transport.
  - destruct (isActive s); [| now apply at_most_once_stable].
    stable_turn.
  - destruct (retryTimer s); [| now apply at_most_once_stable].
    rewrite (turn_returns _ _ (proj1 (retryLoop_returns s))).
    apply retryLoop_once.
  - now apply at_most_once_stable.
  - stable_turn.
  - stable_turn.
  - stable_turn.
  - destruct (resume_once i outcome s) as [Hr Ho].
    now rewrite (turn_returns _ _ Hr).
Qed.

(* ------------------------------------------------------------------------- *)
(** ** When nothing is retried *)

Lemma idle_nth (s : State) (i : nat) : idle s = true -> nth i (sweeps s) None = None.
Proof.
  unfold idle. generalize (sweeps s). intros l. revert i.
  induction l as [|[w|] l IH]; intros [|i] H; simpl in *;
    try reflexivity; try discriminate.
  now apply IH.
Qed.

Lemma resume_idle (i : nat) (o : Completion Response) (s : State) :
  idle s = true -> step (DispatchSettles i o) s = s.
Proof.
  intros H. unfold step, turn, resume, bind, gets.
  now rewrite (idle_nth s i H).
Qed.

(** The turns that neither start nor stop anything and run no sweep. *)
Lemma quiet_turn (l : Label) (s : State) :
  match l with
  | CallUpdateConfig _ | CallClearPendingRequests | TimePasses _
  | FetchSettles _ _ _ _ | XhrError _ _ _ _ _ | XhrLoad _ _ _ _ _ _ => True
  | _ => False
  end ->
  quiet_view (step l s) = quiet_view s.
Proof.
  destruct l; intros H; try contradiction; unfold step;
    try (apply Stable_turn; [stable ltac:(trace_leaf) | intros; trace_leaf]).
  reflexivity.
Qed.

Lemma quiet_view_parts (s s' : State) :
  quiet_view s' = quiet_view s ->
  dispatches (trace s') = dispatches (trace s)
  /\ callbacks (trace s') = callbacks (trace s)
  /\ idle s' = idle s
  /\ isActive s' = isActive s /\ retryTimer s' = retryTimer s
  /\ isOnline s' = isOnline s.
Proof.
  unfold quiet_view, retry_view, idle. intros H.
  injection H as Hd Hc Hw Ha Ht Ho. rewrite Hw. now repeat split.
Qed.

Lemma at_rest_step (l : Label) (s : State) :
  at_rest s -> l <> CallStart ->
  at_rest (step l s)
  /\ dispatches (trace (step l s)) = dispatches (trace s)
  /\ callbacks (trace (step l s)) = callbacks (trace s).
Proof.
  intros [Ha [Ht Hi]] Hl.
  assert (Hsame : step l s = s -> at_rest (step l s)
                  /\ dispatches (trace (step l s)) = dispatches (trace s)
                  /\ callbacks (trace (step l s)) = callbacks (trace s)).
  { intros ->. split; [split; [| split]; assumption | split; reflexivity]. }
  assert (Hquiet : quiet_view (step l s) = quiet_view s ->
                   at_rest (step l s)
                   /\ dispatches (trace (step l s)) = dispatches (trace s)
                   /\ callbacks (trace (step l s)) = callbacks (trace s)).
  { intros H. apply quiet_view_parts in H as [Hd [Hc [Hi' [Ha' [Ht' _]]]]].
    unfold at_rest. rewrite Hi', Ha', Ht'. now repeat split. }
  destruct l; try (apply Hquiet, quiet_turn; exact I).
  - now contradiction Hl.
  - apply Hsame. unfold step, turn, stop, bind, gets. now rewrite Ha.
  - apply Hsame. unfold step. now rewrite Ha.
  - apply Hsame. unfold step. now rewrite Ha.
  - apply Hsame. unfold step. now rewrite Ht.
  - apply Hsame. now apply resume_idle.
Qed.

(** X14.  Once the interceptor is stopped and no sweep is suspended, nothing
    is retried until [start()] is called again: whatever else happens (timer
    ticks that were pending, window events, requests that were in flight
    through the wrappers and fail now, which are still queued, calls of
    [updateConfig], [clearPendingRequests] or [stop]), the transport is not
    called, neither [onRetry] nor [onMaxRetriesExceeded] is called, and the
    interceptor stays stopped. *)
Theorem nothing_is_retried_while_stopped (ls : list Label) (s : State) :
  at_rest s -> ~ In CallStart ls ->
  at_rest (run ls s)
  /\ dispatches (trace (run ls s)) = dispatches (trace s)
  /\ callbacks (trace (run ls s)) = callbacks (trace s).
Proof.
  revert s. induction ls as [|l ls IH]; intros s Hs Hno; simpl.
  - split; [exact Hs | split; reflexivity].
  - destruct (at_rest_step l s Hs) as [Hs1 [Hd1 Hc1]].
    { intros ->. apply Hno. now left. }
    destruct (IH (step l s) Hs1) as [Hs2 [Hd2 Hc2]].
    { intros Hin. apply Hno. now right. }
    split; [exact Hs2 |]. split; congruence.
Qed.

(** A request fails through the wrapper after [stop()]: it is queued, the
    timer fires, the network comes back, time passes; nothing is retried. *)
Lemma nothing_is_retried_while_stopped_witness :
  let ls := [FetchSettles "/api/users" no_init (Throw type_error) "r1";
             TimePasses 5000; TimerFires; WindowOnline; TimePasses 5000;
             TimerFires] in
  let s := run [CallStart; CallStop] fresh in
  getPendingRequestsCount (run ls s) = 1%nat
  /\ dispatches (trace (run ls s)) = dispatches (trace s).
Proof.
  intros ls s.
  destruct (nothing_is_retried_while_stopped ls s) as [_ [H _]].
  - repeat split.
  - intros H. repeat (destruct H as [H | H]; [discriminate |]). exact H.
  - split; [reflexivity | exact H].
Defined.

Lemma retryLoop_offline (s : State) :
  isOnline s = false -> retryLoop s = (Normal tt, set_retryTimer true s).
Proof. intros H. unfold retryLoop, bind, gets, when, modify, ret. now rewrite H. Qed.

Lemma log_quiet (m : LogMessage) : Stable quiet_view (log m).
Proof. stable ltac:(trace_leaf). Qed.

Lemma quiet_view_retry (s s' : State) :
  quiet_view s' = quiet_view s ->
  retry_view s' = retry_view s /\ isOnline s' = isOnline s.
Proof.
  intros H. split.
  - exact (f_equal (fun v => fst (fst (fst v))) H).
  - exact (f_equal snd H).
Qed.

Lemma cut_off_step (l : Label) (s : State) :
  cut_off s -> l <> WindowOnline ->
  cut_off (step l s)
  /\ dispatches (trace (step l s)) = dispatches (trace s)
  /\ callbacks (trace (step l s)) = callbacks (trace s).
Proof.
  intros [Ho Hi] Hl.
  assert (Hview : (retry_view (step l s), isOnline (step l s))
                  = (retry_view s, isOnline s) ->
                  cut_off (step l s)
                  /\ dispatches (trace (step l s)) = dispatches (trace s)
                  /\ callbacks (trace (step l s)) = callbacks (trace s)).
  { unfold retry_view, cut_off, idle. intros H. injection H as Hd Hc Hw Ho'.
    rewrite Hw, Ho'. now repeat split. }
  assert (Hquiet : forall s1 s0, quiet_view s1 = quiet_view s0 ->
                     (retry_view s1, isOnline s1) = (retry_view s0, isOnline s0)).
  { intros s1 s0 H. apply quiet_view_retry in H as [-> ->]. reflexivity. }
  destruct l; try (apply Hview, Hquiet, quiet_turn; exact I); apply Hview.
  - unfold step. rewrite (turn_returns _ _ (proj1 (start_returns s))), start_state.
    destruct (isActive s).
    + apply Hquiet, log_quiet.
    + rewrite (retryLoop_offline s Ho). cbn [snd].
      pose proof (log_quiet LogStarted (set_isActive true (set_retryTimer true s)))
        as H.
      apply quiet_view_retry in H as [-> ->]. reflexivity.
  - unfold step.
    apply (Stable_turn (fun s => (retry_view s, isOnline s)));
      [| intros; trace_leaf].
    unfold stop. stable ltac:(trace_leaf).
  - now contradiction Hl.
  - unfold step. destruct (isActive s); [| reflexivity].
    rewrite turn_returns.
    + unfold handleOffline.
      rewrite (bind_normal _ _ _ tt (proj1 (log_view LogOffline s))).
      unfold modify. cbn [snd].
      pose proof (log_quiet LogOffline s) as H.
      apply quiet_view_retry in H as [Hr _].
      change (retry_view (set_isOnline false (snd (log LogOffline s))))
        with (retry_view (snd (log LogOffline s))).
      rewrite Hr. cbn [isOnline set_isOnline]. now rewrite Ho.
    + unfold handleOffline.
      now rewrite (bind_normal _ _ _ tt (proj1 (log_view LogOffline s))).
  - unfold step. destruct (retryTimer s); [| reflexivity].
    unfold turn. rewrite (retryLoop_offline s Ho). reflexivity.
  - now rewrite (resume_idle i outcome s Hi).
Qed.

(** X15.  While the interceptor believes the network is down and no sweep is
    suspended, nothing is retried until an [online] event arrives: timer
    ticks do nothing, and [start()] does not look at the network again, so an
    interceptor that was stopped while offline and is started again stays
    idle although requests are queued. *)
Theorem nothing_is_retried_while_offline (ls : list Label) (s : State) :
  cut_off s -> ~ In WindowOnline ls ->
  cut_off (run ls s)
  /\ dispatches (trace (run ls s)) = dispatches (trace s)
  /\ callbacks (trace (run ls s)) = callbacks (trace s).
Proof.
  revert s. induction ls as [|l ls IH]; intros s Hs Hno; simpl.
  - split; [exact Hs | split; reflexivity].
  - destruct (cut_off_step l s Hs) as [Hs1 [Hd1 Hc1]].
    { intros ->. apply Hno. now left. }
    destruct (IH (step l s) Hs1) as [Hs2 [Hd2 Hc2]].
    { intros Hin. apply Hno. now right. }
    split; [exact Hs2 |]. split; congruence.
Qed.

(** The network goes down, the interceptor is stopped and started again,
    a request fails and is queued, the timer fires twice. *)
Lemma nothing_is_retried_while_offline_witness :
  let ls := [CallStop; CallStart;
             FetchSettles "/api/users" no_init (Throw type_error) "r1";
             TimePasses 5000; TimerFires; TimePasses 5000; TimerFires] in
  let s := run [CallStart; WindowOffline] fresh in
  getPendingRequestsCount (run ls s) = 1%nat
  /\ isActive (run ls s) = true
  /\ dispatches (trace (run ls s)) = [].
Proof.
  intros ls s.
  destruct (nothing_is_retried_while_offline ls s) as [_ [H _]].
  - split; reflexivity.
  - intros H. repeat (destruct H as [H | H]; [discriminate |]). exact H.
  - split; [reflexivity |]. split; [reflexivity | exact H].
Defined.

(* ------------------------------------------------------------------------- *)
(** ** The map and the sweeps hold addresses of objects, in every execution *)

Lemma Allocated_shape (s s' : State) :
  same_shape s s' -> Allocated s -> Allocated s'.
Proof.
  intros [Hh [Hw [Hm _]]]. unfold Allocated, active. now rewrite Hh, Hw, Hm.
Qed.

Lemma Allocated_view (s s' : State) : same_view s s' -> Allocated s -> Allocated s'.
Proof. intros H. apply Allocated_shape. now apply same_view_shape. Qed.

Lemma Allocated_enqueued (rid : string) (s s' : State) :
  enqueued rid s s' -> Allocated s -> Allocated s'.
Proof.
  intros [r [_ [_ [Hh [Hm [_ [Hw _]]]]]]] [HM HS].
  unfold Allocated, active. rewrite Hh, Hm, Hw, length_app. simpl. split.
  - intros a Ha. apply values_set_In in Ha as [-> | Ha]; [lia |].
    specialize (HM a Ha). lia.
  - intros w Hin a Ha. specialize (HS w Hin a Ha). lia.
Qed.

Lemma Allocated_cleared (s s' : State) :
  heap s' = heap s -> sweeps s' = sweeps s -> pendingRequests s' = [] ->
  Allocated s -> Allocated s'.
Proof.
  intros Hh Hw Hm [_ HS]. unfold Allocated, active. rewrite Hh, Hw, Hm.
  split; [intros a [] | exact HS].
Qed.

(** What the first half of the loop body leaves of heap, sweeps and map. *)
Lemma attempt_frame (a : nat) (s s' : State) (r : Completion Attempt) :
  attempt a s = (r, s') ->
  List.length (heap s') = List.length (heap s)
  /\ sweeps s' = sweeps s
  /\ incl (map_values (pendingRequests s')) (map_values (pendingRequests s)).
Proof.
  intros E. destruct (attempt_summary _ _ _ _ E) as [[_ ->] | [[_ Hv] | [_ Hh]]].
  - split; [reflexivity |]. split; [reflexivity | apply incl_refl].
  - destruct Hv as [_ [Hw [Hh [Hm _]]]]. rewrite Hh, Hw, Hm, length_bumped.
    split; [reflexivity |]. split; [reflexivity | apply incl_refl].
  - pose proof (fun b => handled_values a b _ _ Hh) as Hin.
    destruct Hh as [_ [Hw [Hh _]]]. rewrite Hh, Hw, length_bumped.
    split; [reflexivity |]. split; [reflexivity | exact Hin].
Qed.

Lemma sweep_loop_frame (l : list nat) (s s' : State)
    (r : Completion (option Sweep)) :
  sweep_loop l s = (r, s') ->
  List.length (heap s') = List.length (heap s)
  /\ sweeps s' = sweeps s
  /\ incl (map_values (pendingRequests s')) (map_values (pendingRequests s))
  /\ (forall w, r = Normal (Some w) -> incl (snapshot w) l).
Proof.
  revert s. induction l as [|a rest IH]; intros s Hrun; simpl in Hrun.
  - unfold ret in Hrun. injection Hrun as <- <-.
    split; [reflexivity |]. split; [reflexivity |].
    split; [apply incl_refl | discriminate].
  - unfold bind in Hrun. destruct (attempt a s) as [ra s1] eqn:E.
    destruct (attempt_frame _ _ _ _ E) as [Hh [Hw Hm]].
    assert (Hnext : sweep_loop rest s1 = (r, s') ->
              List.length (heap s') = List.length (heap s)
              /\ sweeps s' = sweeps s
              /\ incl (map_values (pendingRequests s'))
                      (map_values (pendingRequests s))
              /\ (forall w, r = Normal (Some w) -> incl (snapshot w) (a :: rest))).
    { intros H. destruct (IH _ H) as [Hh' [Hw' [Hm' Hs']]].
      split; [congruence |]. split; [congruence |].
      split; [exact (incl_tran Hm' Hm) |].
      intros w Hr. apply incl_tl. now apply Hs'. }
    destruct ra as [[| |]|e]; try (now apply Hnext).
    + unfold ret in Hrun. injection Hrun as <- <-.
      split; [exact Hh |]. split; [exact Hw |]. split; [exact Hm |].
      intros w Hr. injection Hr as <-. apply incl_refl.
    + injection Hrun as <- <-.
      split; [exact Hh |]. split; [exact Hw |]. split; [exact Hm | discriminate].
Qed.

Lemma active_park_In (slot : option nat) (w : option Sweep) (s : State)
    (x : Sweep) :
  In x (active (park slot w s)) -> In x (active s) \/ w = Some x.
Proof.
  unfold active, park. destruct slot as [i|].
  - simpl. generalize (sweeps s). intros l. revert i.
    induction l as [|y l IH]; intros i; simpl.
    + now destruct i.
    + destruct i as [|i]; simpl.
      * destruct w as [w|]; simpl.
        -- intros [-> | H]; [now right |]. left.
           destruct y; [now right | exact H].
        -- intros H. left. destruct y; [now right | exact H].
      * destruct y as [y|]; simpl.
        -- intros [-> | H]; [now left; left |].
           destruct (IH i H); [now left; right | now right].
        -- apply IH.
  - destruct w as [w|]; simpl; [| now left].
    rewrite flat_map_app. simpl. intros H.
    apply in_app_or in H as [H | [-> | []]]; [now left | now right].
Qed.

(** A sweep that has run over allocated requests, parked. *)
Lemma Allocated_parked (slot : option nat) (w : option Sweep) (l : list nat)
    (s s1 : State) :
  Allocated s ->
  List.length (heap s1) = List.length (heap s) -> sweeps s1 = sweeps s ->
  incl (map_values (pendingRequests s1)) (map_values (pendingRequests s)) ->
  (forall a, In a l -> (a < List.length (heap s))%nat) ->
  (forall sw, w = Some sw -> incl (snapshot sw) l) ->
  Allocated (park slot w s1).
Proof.
  intros [HM HS] Hh Hw Hm Hl Hsnap.
  assert (E1 : pendingRequests (park slot w s1) = pendingRequests s1)
    by (destruct slot, w; reflexivity).
  assert (E2 : heap (park slot w s1) = heap s1) by (destruct slot, w; reflexivity).
  unfold Allocated. rewrite E1, E2, Hh. split.
  - intros a Ha. apply HM. now apply Hm.
  - intros x Hx a Ha. apply active_park_In in Hx as [Hx | Hx].
    + unfold active in Hx. rewrite Hw in Hx. now apply (HS x).
    + apply Hl. now apply (Hsnap x).
Qed.

Lemma Allocated_uncaught (e : JsError) (s : State) :
  Allocated (set_trace (trace s ++ [EvUncaught e]) s) <-> Allocated s.
Proof. reflexivity. Qed.

Lemma retryPendingRequests_Allocated (s : State) :
  Allocated s -> Allocated (snd (retryPendingRequests s)).
Proof.
  intros HA. pose proof HA as [HM _].
  unfold retryPendingRequests, bind, gets, detached.
  destruct (sweep_loop (map_values (pendingRequests s)) s) as [r s1] eqn:E.
  destruct (sweep_loop_frame _ _ _ _ E) as [Hh [Hw [Hm Hs]]].
  destruct r as [w|e]; cbn [snd].
  - apply (Allocated_parked None w (map_values (pendingRequests s)) s);
      [exact HA | exact Hh | exact Hw | exact Hm | exact HM |].
    intros sw ->. now apply Hs.
  - apply (Allocated_parked None None (map_values (pendingRequests s)) s);
      [exact HA | exact Hh | exact Hw | exact Hm | exact HM | discriminate].
Qed.

Lemma resume_Allocated (i : nat) (o : Completion Response) (s : State) :
  Allocated s -> Allocated (snd (resume i o s)).
Proof.
  intros HA. pose proof HA as [HM HS].
  unfold resume, bind, gets.
  destruct (nth i (sweeps s) None) as [w|] eqn:Hn; [| exact HA].
  pose proof (HS w (active_In _ _ _ Hn)) as Hsnap.
  unfold detached.
  destruct (settle (current w) o s) as [r1 s1] eqn:E1.
  pose proof (settle_handled _ _ _ _ _ E1) as Hh.
  pose proof (fun b => handled_values (current w) b _ _ Hh) as Hm1.
  destruct Hh as [_ [Hw1 [Hh1 _]]].
  assert (Hrem : forall a, In a (remaining w) -> (a < List.length (heap s))%nat)
    by (intros a Ha; apply Hsnap; now right).
  destruct r1 as [[]|e]; cbn [snd].
  - destruct (sweep_loop (remaining w) s1) as [r2 s2] eqn:E2.
    destruct (sweep_loop_frame _ _ _ _ E2) as [Hh2 [Hw2 [Hm2 Hs2]]].
    destruct r2 as [w'|e]; cbn [snd].
    + apply (Allocated_parked (Some i) w' (remaining w) s);
        [exact HA | congruence | congruence | exact (incl_tran Hm2 Hm1)
         | exact Hrem |].
      intros sw ->. now apply Hs2.
    + apply (Allocated_parked (Some i) None (remaining w) s);
        [exact HA | simpl; congruence | simpl; congruence
         | exact (incl_tran Hm2 Hm1) | exact Hrem | discriminate].
  - apply (Allocated_parked (Some i) None (remaining w) s);
      [exact HA | simpl; congruence | simpl; congruence | exact Hm1
       | exact Hrem | discriminate].
Qed.

Lemma Allocated_step (l : Label) (s : State) : Allocated s -> Allocated (step l s).
Proof.
  intros HA. destruct l; unfold step.
  - rewrite (turn_returns _ _ (proj1 (start_returns s))), start_state.
    destruct (isActive s).
    + exact (Allocated_view _ _ (proj2 (log_view _ _)) HA).
    + apply (Allocated_view _ _ (proj2 (log_view _ _))).
      rewrite retryLoop_state.
      destruct (isOnline s && Nat.ltb 0 (getPendingRequestsCount s));
        [now apply retryPendingRequests_Allocated | exact HA].
  - rewrite (turn_returns _ _ (proj1 (stop_returns s))).
    destruct (isActive s) eqn:Ha.
    + rewrite (stop_active s Ha). now apply (Allocated_cleared s).
    + now rewrite (stop_inactive s Ha).
  - apply (Allocated_view _ _ (turn_view _ _)).
    exact (Allocated_shape _ _ (updateConfig_shape _ _) HA).
  - rewrite (turn_returns _ _ (f_equal fst (clearPendingRequests_run s))).
    rewrite clearPendingRequests_run. now apply (Allocated_cleared s).
  - destruct (isActive s); [| exact HA].
    destruct (handleOnline_state s) as [Hr Hs].
    rewrite (turn_returns _ _ Hr), Hs.
    apply retryPendingRequests_Allocated.
    exact (Allocated_view _ _ (proj2 (log_view _ _)) HA).
  - destruct (isActive s); [| exact HA].
    apply (Allocated_view _ _ (turn_view _ _)).
    exact (Allocated_view _ _ (handleOffline_view _) HA).
  - destruct (retryTimer s); [| exact HA].
    rewrite (turn_returns _ _ (proj1 (retryLoop_returns s))), retryLoop_state.
    destruct (isOnline s && Nat.ltb 0 (getPendingRequestsCount s));
      [now apply retryPendingRequests_Allocated | exact HA].
  - exact HA.
  - apply (Allocated_view _ _ (turn_view _ _)).
    unfold try_catch, bind.
    destruct (intercepted_fetch u init outcome rid s) as [r s1] eqn:E.
    apply intercepted_fetch_summary in E.
    assert (HA1 : Allocated s1).
    { destruct E as [E | E];
        [exact (Allocated_view _ _ E HA) | exact (Allocated_enqueued _ _ _ E HA)]. }
    destruct r as [x|e]; exact HA1.
  - apply (Allocated_view _ _ (turn_view _ _)).
    destruct (xhr_onerror xhr requestMethod requestUrl requestData rid s)
      as [r s1] eqn:E.
    apply xhr_onerror_summary in E. cbn [snd].
    destruct E as [E | E];
      [exact (Allocated_view _ _ E HA) | exact (Allocated_enqueued _ _ _ E HA)].
  - apply (Allocated_view _ _ (turn_view _ _)).
    destruct (xhr_onload xhr xhr_status requestMethod requestUrl requestData rid s)
      as [r s1] eqn:E.
    apply xhr_onload_summary in E. cbn [snd].
    destruct E as [E | E];
      [exact (Allocated_view _ _ E HA) | exact (Allocated_enqueued _ _ _ E HA)].
  - rewrite (turn_returns _ _ (proj1 (resume_once i outcome s))).
    now apply resume_Allocated.
Qed.

Lemma Allocated_run (ls : list Label) (s : State) :
  Allocated s -> Allocated (run ls s).
Proof.
  revert s. induction ls as [|l ls IH]; intros s H; simpl; [exact H |].
  apply IH. now apply Allocated_step.
Qed.

Lemma Allocated_constructor (c : RetryConfig.t) (online : bool) (now : Z) :
  Allocated (constructor c online now).
Proof. split; [intros a [] | intros w []]. Qed.

(* ------------------------------------------------------------------------- *)
(** ** The counter of a request counts its dispatches *)

Lemma retryCount_grown (h : list PendingRequest) (r : PendingRequest) (b : nat) :
  retryCount r = 0 ->
  retryCount (nth b (h ++ [r]) blank) = retryCount (nth b h blank).
Proof.
  intros Hr. destruct (Nat.lt_ge_cases b (List.length h)) as [Hb | Hb].
  - now rewrite app_nth1.
  - rewrite (nth_overflow h) by exact Hb. rewrite app_nth2 by exact Hb.
    destruct (b - List.length h)%nat as [|[|n]]; simpl; auto.
Qed.

Ltac slack_leaf :=
  unfold slack, object; simpl; rewrite ?attempts_app; simpl;
  rewrite ?Nat.add_0_r;
  first [reflexivity | rewrite retryCount_grown by reflexivity; reflexivity].

Lemma catch_block_slack (b a : nat) (e : JsError) :
  Stable (fun s => slack s b) (catch_block a e).
Proof. stable ltac:(slack_leaf). Qed.

Lemma settle_slack (b a : nat) (o : Completion Response) :
  Stable (fun s => slack s b) (settle a o).
Proof. stable ltac:(slack_leaf). Qed.

Lemma log_slack (b : nat) (m : LogMessage) : Stable (fun s => slack s b) (log m).
Proof. stable ltac:(slack_leaf). Qed.

Lemma slack_bumped (s : State) (a b : nat) :
  (a < List.length (heap s))%nat ->
  slack (bumped a s) b = if Nat.eqb a b then slack s b + 1 else slack s b.
Proof.
  intros Ha. unfold slack. change (trace (bumped a s)) with (trace s).
  destruct (Nat.eqb a b) eqn:E.
  - apply Nat.eqb_eq in E. subst b. rewrite retryCount_bumped by exact Ha. lia.
  - apply Nat.eqb_neq in E. now rewrite object_bumped_other.
Qed.

Lemma attempts_one (a b : nat) (u : string) (o : RequestInit) :
  attempts b [EvDispatch a u o] = if Nat.eqb a b then 1%nat else 0%nat.
Proof. unfold attempts. simpl. now destruct (Nat.eqb a b). Qed.

Lemma attempts_logged (s : State) (b : nat) (m : LogMessage) :
  attempts b (logged s m) = 0%nat.
Proof. unfold logged. now destruct (enableLogging (config s)). Qed.

(** The first half of the loop body never lets the number of dispatches of a
    request get ahead of its counter. *)
Lemma attempt_slack (a : nat) (s : State) (b : nat) :
  (a < List.length (heap s))%nat ->
  slack s b <= slack (snd (attempt a s)) b.
Proof.
  intros Ha. destruct (due s a) eqn:Hdue.
  - rewrite (attempt_run a s Hdue). cbv zeta.
    pose proof (slack_bumped s a b Ha) as Hb.
    match goal with
    | |- context [onRetry (config s) None ?n ?m] =>
        destruct (onRetry (config s) None n m) as [[]|e]
    end.
    + cbn [snd]. unfold slack in *. cbn [trace set_trace].
      change (object (set_trace ?t (set_trace ?t' (bumped a s))) b)
        with (object (bumped a s) b).
      change (trace (bumped a s)) with (trace s) in Hb.
      rewrite !attempts_app, attempts_logged, attempts_one.
      change (attempts b [EvOnRetry _ _]) with 0%nat.
      destruct (Nat.eqb a b); lia.
    + unfold bind, ret.
      match goal with
      | |- context [catch_block a e ?s1] =>
          pose proof (catch_block_slack b a e s1) as Hst;
          destruct (catch_block a e s1) as [[[]|e'] s2]
      end; cbn [snd] in *; rewrite Hst; unfold slack in *;
        cbn [trace set_trace];
        change (object (set_trace ?t (bumped a s)) b)
          with (object (bumped a s) b);
        change (trace (bumped a s)) with (trace s) in Hb;
        rewrite attempts_app; change (attempts b [EvOnRetry _ _]) with 0%nat;
        destruct (Nat.eqb a b); lia.
  - rewrite (attempt_not_due a s Hdue). simpl. lia.
Qed.

Lemma sweep_loop_slack (l : list nat) (s : State) (b : nat) :
  (forall a, In a l -> (a < List.length (heap s))%nat) ->
  slack s b <= slack (snd (sweep_loop l s)) b.
Proof.
  revert s. induction l as [|a rest IH]; intros s Hl; simpl; [lia |].
  unfold bind. pose proof (attempt_slack a s b (Hl a (or_introl eq_refl))) as Ha.
  destruct (attempt a s) as [r s1] eqn:E.
  destruct (attempt_frame _ _ _ _ E) as [Hh _]. cbn [snd] in Ha.
  assert (Hrest : forall x, In x rest -> (x < List.length (heap s1))%nat)
    by (intros x Hx; rewrite Hh; apply Hl; now right).
  specialize (IH s1 Hrest).
  destruct r as [[| |]|e]; cbn [snd]; try lia.
  unfold ret. cbn [snd]. lia.
Qed.

Lemma slack_parked (slot : option nat) (w : option Sweep) (s : State) (b : nat) :
  slack (park slot w s) b = slack s b.
Proof. destruct slot, w; reflexivity. Qed.

Lemma slack_uncaught (e : JsError) (s : State) (b : nat) :
  slack (set_trace (trace s ++ [EvUncaught e]) s) b = slack s b.
Proof. slack_leaf. Qed.

Lemma retryPendingRequests_slack (s : State) (b : nat) :
  Allocated s -> slack s b <= slack (snd (retryPendingRequests s)) b.
Proof.
  intros [HM _]. unfold retryPendingRequests, bind, gets, detached.
  pose proof (sweep_loop_slack (map_values (pendingRequests s)) s b HM) as H.
  destruct (sweep_loop (map_values (pendingRequests s)) s) as [[w|e] s1];
    cbn [snd] in *; rewrite slack_parked, ?slack_uncaught; exact H.
Qed.

Lemma resume_slack (i : nat) (o : Completion Response) (s : State) (b : nat) :
  Allocated s -> slack s b <= slack (snd (resume i o s)) b.
Proof.
  intros [_ HS]. unfold resume, bind, gets.
  destruct (nth i (sweeps s) None) as [w|] eqn:Hn; [| simpl; lia].
  pose proof (HS w (active_In _ _ _ Hn)) as Hsnap.
  unfold detached.
  pose proof (settle_slack b (current w) o s) as H1. cbv beta in H1.
  destruct (settle (current w) o s) as [r1 s1] eqn:E1. cbn [snd] in H1.
  pose proof (settle_handled _ _ _ _ _ E1) as [_ [_ [Hh1 _]]].
  destruct r1 as [[]|e]; cbn [snd].
  - assert (Hrem : forall a, In a (remaining w) -> (a < List.length (heap s1))%nat)
      by (intros a Ha; rewrite Hh1; apply Hsnap; now right).
    pose proof (sweep_loop_slack (remaining w) s1 b Hrem) as H2.
    destruct (sweep_loop (remaining w) s1) as [[w'|e] s2]; cbn [snd] in *;
      rewrite slack_parked, ?slack_uncaught; lia.
  - rewrite slack_parked, slack_uncaught. lia.
Qed.

Lemma slack_turn (m : Eng unit) (s : State) (b : nat) :
  Stable (fun s => slack s b) m -> slack (turn m s) b = slack s b.
Proof.
  intros H. apply (Stable_turn (fun s => slack s b)); [exact H |].
  intros s0 e. apply slack_uncaught.
Qed.

Lemma slack_step (l : Label) (s : State) (b : nat) :
  Allocated s -> slack s b <= slack (step l s) b.
Proof.
  intros HA.
  assert (Heq : forall s', slack s' b = slack s b -> slack s b <= slack s' b)
    by (intros s' ->; lia).
  destruct l; unfold step.
  - rewrite (turn_returns _ _ (proj1 (start_returns s))), start_state.
    destruct (isActive s).
    + apply Heq, log_slack.
    + rewrite log_slack, retryLoop_state.
      change (slack (set_isActive true (set_retryTimer true ?x)) b)
        with (slack x b).
      destruct (isOnline s && Nat.ltb 0 (getPendingRequestsCount s));
        [now apply retryPendingRequests_slack | lia].
  - apply Heq, slack_turn. unfold stop. stable ltac:(slack_leaf).
  - apply Heq, slack_turn. stable ltac:(slack_leaf).
  - apply Heq, slack_turn. stable ltac:(slack_leaf).
  - destruct (isActive s); [| lia].
    destruct (handleOnline_state s) as [Hr Hs].
    rewrite (turn_returns _ _ Hr), Hs.
    pose proof (retryPendingRequests_slack
                  (set_isOnline true (snd (log LogOnline s))) b) as H.
    change (slack (set_isOnline true (snd (log LogOnline s))) b)
      with (slack (snd (log LogOnline s)) b) in H.
    rewrite log_slack in H. apply H.
    apply (Allocated_view s); [| exact HA].
    apply (same_view_trans _ _ _ (proj2 (log_view LogOnline s))).
    now repeat split.
  - destruct (isActive s); [| lia].
    apply Heq, slack_turn. stable ltac:(slack_leaf).
  - destruct (retryTimer s); [| lia].
    rewrite (turn_returns _ _ (proj1 (retryLoop_returns s))), retryLoop_state.
    change (slack (set_retryTimer true ?x) b) with (slack x b).
    destruct (isOnline s && Nat.ltb 0 (getPendingRequestsCount s));
      [now apply retryPendingRequests_slack | lia].
  - apply Heq. reflexivity.
  - apply Heq, slack_turn. stable ltac:(slack_leaf).
  - apply Heq, slack_turn. stable ltac:(slack_leaf).
  - apply Heq, slack_turn. stable ltac:(slack_leaf).
  - rewrite (turn_returns _ _ (proj1 (resume_once i outcome s))).
    now apply resume_slack.
Qed.

Lemma Counted_run (ls : list Label) (s : State) :
  Allocated s -> Counted s -> Counted (run ls s).
Proof.
  revert s. induction ls as [|l ls IH]; intros s HA HC; simpl; [exact HC |].
  apply IH; [now apply Allocated_step |].
  intros b. specialize (HC b). pose proof (slack_step l s b HA). lia.
Qed.

(** X16.  In every execution, overlapping sweeps and throwing callbacks
    included, a request is never dispatched more often than its [retryCount]
    says: the counter is incremented before every call of the transport. *)
Theorem dispatches_never_exceed_retryCount
    (c : RetryConfig.t) (online : bool) (now : Z) (ls : list Label) (a : nat) :
  Z.of_nat (attempts a (trace (run ls (constructor c online now))))
  <= retryCount (object (run ls (constructor c online now)) a).
Proof.
  assert (H : Counted (run ls (constructor c online now))).
  { apply Counted_run; [apply Allocated_constructor |].
    intros b. unfold slack, object. simpl. now destruct b. }
  specialize (H a). unfold slack in H. lia.
Qed.



(* ------------------------------------------------------------------------- *)
(** ** The module-level interceptor *)

Lemma Stable_sweep_loop {X : Type} (view : State -> X) (l : list nat) :
  (forall a, Stable view (attempt a)) -> Stable view (sweep_loop l).
Proof.
  intros Ha. induction l as [|a rest IH]; simpl.
  - apply Stable_ret.
  - apply Stable_bind; [apply Ha |].
    intros [| |]; [exact IH | exact IH | apply Stable_ret].
Qed.

Lemma Stable_detached {X : Type} (view : State -> X) (slot : option nat)
    (m : Eng (option Sweep)) :
  (forall s w, view (park slot w s) = view s) ->
  (forall s e, view (set_trace (trace s ++ [EvUncaught e]) s) = view s) ->
  Stable view m -> Stable view (detached slot m).
Proof.
  intros Hpark Hev Hm s. unfold detached. specialize (Hm s).
  destruct (m s) as [[w|e] s1]; cbn [snd] in *.
  - now rewrite Hpark.
  - now rewrite Hpark, Hev.
Qed.

Ltac settings_leaf := unfold settings; simpl; reflexivity.

Lemma attempt_settings (a : nat) : Stable settings (attempt a).
Proof. unfold attempt. stable ltac:(settings_leaf). Qed.

Lemma retryPendingRequests_settings : Stable settings retryPendingRequests.
Proof.
  unfold retryPendingRequests.
  apply Stable_bind; [apply Stable_gets | intros l].
  apply Stable_detached.
  - intros s w. now destruct w.
  - reflexivity.
  - apply Stable_sweep_loop, attempt_settings.
Qed.

Lemma start_settings : Stable settings start.
Proof.
  unfold start, retryLoop.
  repeat (cbv beta; first [ apply retryPendingRequests_settings
                          | stable_step ltac:(settings_leaf) ]);
    stable ltac:(settings_leaf).
Qed.

Lemma stop_settings : Stable settings stop.
Proof. unfold stop. stable ltac:(settings_leaf). Qed.

(** X18.  The module keeps one interceptor for good.
    [startGlobalInterceptor] always leaves it active; it builds it only when
    there is none (it is then the interceptor that [createApiInterceptor]
    builds from the same configuration), so the configuration passed to a
    later call is ignored and [navigator.onLine] is not read again; and
    [stopGlobalInterceptor] stops it without forgetting it, so after a stop a
    later [startGlobalInterceptor(config2)] restarts the old interceptor with
    the configuration, and the belief about the network, that it had. *)
Theorem global_interceptor_is_created_once
    (config1 config2 : option RetryConfig.t) (online1 online2 : bool)
    (now1 now2 : Z) (globalInterceptor : option State) :
  let g1 := startGlobalInterceptor config1 online1 now1 globalInterceptor in
  let g2 := stopGlobalInterceptor g1 in
  let g3 := startGlobalInterceptor config2 online2 now2 g2 in
  exists i1 i2 i3,
    getGlobalInterceptor g1 = Some i1
    /\ getGlobalInterceptor g2 = Some i2
    /\ getGlobalInterceptor g3 = Some i3
    /\ isActive i1 = true /\ isActive i2 = false /\ isActive i3 = true
    /\ settings i1
       = match globalInterceptor with
         | Some i0 => settings i0
         | None => settings (createApiInterceptor config1 online1 now1)
         end
    /\ settings i2 = settings i1
    /\ settings i3 = settings i1.
Proof.
  intros g1 g2 g3. subst g1 g2 g3.
  unfold startGlobalInterceptor, stopGlobalInterceptor, getGlobalInterceptor.
  assert (Hstart : forall s, settings (step CallStart s) = settings s
                             /\ isActive (step CallStart s) = true).
  { intros s. unfold step. rewrite (turn_returns _ _ (proj1 (start_returns s))).
    split; [apply start_settings | apply start_returns]. }
  assert (Hstop : forall s, settings (step CallStop s) = settings s
                            /\ isActive (step CallStop s) = false).
  { intros s. unfold step. rewrite (turn_returns _ _ (proj1 (stop_returns s))).
    split; [apply stop_settings | apply stop_returns]. }
  eexists. eexists. eexists.
  split; [reflexivity |]. split; [reflexivity |]. split; [reflexivity |].
  split; [apply Hstart |]. split; [apply Hstop |]. split; [apply Hstart |].
  split; [| split].
  - rewrite (proj1 (Hstart _)). now destruct globalInterceptor.
  - apply Hstop.
  - rewrite (proj1 (Hstart _)). apply Hstop.
Qed.

(* ------------------------------------------------------------------------- *)
(** ** The promises of the callers *)

Ltac resolved_kept := left; split; reflexivity.

Ltac resolved_removed :=
  right; split;
  [ reflexivity
  | first [ left; reflexivity
          | right; eexists; reflexivity ] ].

Ltac finish_resolved_here :=
  unfold resolved, promise, object; simpl;
  (split; [reflexivity |]);
  first [resolved_kept | resolved_removed].

Lemma catch_block_resolved (a : nat) (e : JsError) (s s' : State)
    (r : Completion unit) :
  catch_block a e s = (r, s') -> resolved a s s'.
Proof.
  unfold catch_block. unfold bind at 1. unfold deref at 1, gets at 1.
  unfold bind at 1. unfold gets at 1.
  destruct (retryCount (object s a) >=? maxRetries (config s)) eqn:E.
  - run_engine. simpl.
    destruct (onMaxRetriesExceeded (config s) (Some e)
                (metadata (nth a (heap s) blank))) as [[]|e'];
      destruct (is_cleared e); simpl;
      destruct (enableLogging (config s)); simpl;
      intros H; injection H as Hr Hs; subst r s'; finish_resolved_here.
  - run_engine. simpl.
    destruct (retryCondition (config s) (Some e) None) as [[|]|e']; simpl;
      destruct (is_cleared e); simpl;
      destruct (enableLogging (config s)); simpl;
      intros H; injection H as Hr Hs; subst r s'; finish_resolved_here.
Qed.

Lemma resolved_after_delete (a : nat) (s s1 s' : State) :
  heap s1 = heap s -> promises s1 = promises s ->
  pendingRequests s1 = map_delete (id (object s a)) (pendingRequests s) ->
  resolved a s1 s' -> resolved a s s'.
Proof.
  intros Hh Hp Hm [Hh' H].
  assert (Ho : object s1 a = object s a) by (unfold object; now rewrite Hh).
  unfold resolved, promise in *. rewrite Ho, Hm, Hp, map_delete_idem in H.
  split; [congruence |]. right.
  destruct H as [[Hm' Hp'] | [Hm' Hp']]; (split; [exact Hm' |]);
    [now left | exact Hp'].
Qed.

Ltac finish_resolved :=
  let H := fresh "H" in
  intros H;
  first
    [ injection H as ? ?; subst; finish_resolved_here
    | apply catch_block_resolved in H; exact H
    | apply catch_block_resolved in H;
      revert H; apply resolved_after_delete; reflexivity ].

Ltac finish_resolved_by K :=
  let H := fresh "H" in
  intros H; injection H as ? ?; subst;
  unfold resolved, promise, object; simpl; rewrite K; simpl;
  (split; [reflexivity |]); resolved_removed.

Lemma settle_resolved (a : nat) (o : Completion Response) (s s' : State)
    (r : Completion unit) :
  settle a o s = (r, s') -> resolved a s s'.
Proof.
  destruct o as [response | e]; [| apply catch_block_resolved].
  run_settle. simpl.
  destruct (ok response); simpl.
  - destruct (continuations (nth a (heap s) blank)) eqn:K; simpl;
      destruct (enableLogging (config s)); simpl; finish_resolved_by K.
  - destruct (retryCondition (config s) None (Some response)) as [[|]|e']; simpl.
    + destruct (retryCount (nth a (heap s) blank) >=? maxRetries (config s))
        eqn:Erc; simpl.
      * destruct (onMaxRetriesExceeded (config s) None
                    (metadata (nth a (heap s) blank))) as [[]|e']; simpl.
        -- destruct (is_cleared
                       (new_Error
                          (String.append "Max retries exceeded for "
                             (url (nth a (heap s) blank))))); simpl;
             destruct (enableLogging (config s)); simpl; finish_resolved.
        -- finish_resolved.
      * finish_resolved.
    + destruct (continuations (nth a (heap s) blank)) eqn:K; simpl;
        destruct (enableLogging (config s)); simpl; finish_resolved_by K.
    + finish_resolved.
Qed.

Ltac store_leaf := unfold store_view; simpl; reflexivity.

Lemma log_store (m : LogMessage) : Stable store_view (log m).
Proof. stable ltac:(store_leaf). Qed.

Lemma store_view_parts (s s' : State) :
  store_view s' = store_view s ->
  heap s' = heap s /\ pendingRequests s' = pendingRequests s
  /\ promises s' = promises s.
Proof.
  intros H. split; [| split].
  - exact (f_equal (fun v => fst (fst v)) H).
  - exact (f_equal (fun v => snd (fst v)) H).
  - exact (f_equal snd H).
Qed.

Lemma Held_store (s s' : State) : store_view s' = store_view s -> Held s -> Held s'.
Proof.
  intros H. apply store_view_parts in H as [Hh [Hm Hp]].
  unfold Held, promise, object. now rewrite Hh, Hm, Hp.
Qed.

Lemma continuations_bumped (s : State) (a b : nat) :
  continuations (object (bumped a s) b) = continuations (object s b).
Proof.
  destruct (Nat.eq_dec a b) as [<- | Hab].
  - destruct (Nat.lt_ge_cases a (List.length (heap s))) as [Ha | Ha].
    + now rewrite object_bumped_same.
    + unfold object, bumped. simpl.
      rewrite !nth_overflow; rewrite ?length_update_nth; auto.
  - now rewrite object_bumped_other.
Qed.

Lemma Held_bumped (s : State) (a : nat) : Held s -> Held (bumped a s).
Proof.
  intros [W1 [W3 [W4 W5]]]. unfold Held, promise.
  rewrite length_bumped.
  change (pendingRequests (bumped a s)) with (pendingRequests s).
  change (promises (bumped a s)) with (promises s).
  split; [| split; [| split]].
  - intros k b Hin. rewrite id_bumped. now apply W1.
  - intros b Hb. rewrite continuations_bumped. now apply W3.
  - intros b c Hb Hc. rewrite !continuations_bumped. now apply W4.
  - intros k b Hin. rewrite continuations_bumped. now apply (W5 k).
Qed.

Lemma nth_error_settled_other (p q : nat) (v : Promise) (l : list Promise) :
  p <> q ->
  nth_error (update_nth p (settled_with v) l) q = nth_error l q.
Proof. apply nth_error_update_nth_neq. Qed.

Lemma Held_resolved (a : nat) (s s' : State) :
  resolved a s s' -> (a < List.length (heap s))%nat -> Held s -> Held s'.
Proof.
  intros [Hh H] Ha [W1 [W3 [W4 W5]]].
  destruct H as [[Hm Hp] | [Hm Hp]].
  - unfold Held, promise, object in *. now rewrite Hh, Hm, Hp.
  - assert (Hlen : List.length (promises s') = List.length (promises s)).
    { destruct Hp as [-> | [v ->]]; [reflexivity | apply length_update_nth]. }
    unfold Held, promise, object in *. rewrite Hh, Hm, Hlen.
    split; [| split; [exact W3 | split; [exact W4 |]]].
    + intros k b Hin. apply map_delete_In in Hin as [Hin _]. now apply W1.
    + intros k b Hin. apply map_delete_In in Hin as [Hin Hk]. simpl in Hk.
      destruct (W1 k b Hin) as [Hb Hid].
      destruct Hp as [-> | [v ->]]; [now apply (W5 k) |].
      rewrite nth_error_settled_other; [now apply (W5 k) |].
      intros E. apply W4 in E; [| exact Ha | exact Hb]. subst b. congruence.
Qed.

Lemma Held_queued (rid : string) (s s' : State) :
  queued rid s s' -> Held s -> Held s'.
Proof.
  intros [r [Hid [Hpr [Hh [Hm Hp]]]]] [W1 [W3 [W4 W5]]].
  assert (Hold : forall b, (b < List.length (heap s))%nat ->
                   object s' b = object s b).
  { intros b Hb. unfold object. rewrite Hh. now apply app_nth1. }
  assert (Hnew : object s' (List.length (heap s)) = r).
  { unfold object. rewrite Hh, app_nth2 by lia. now rewrite Nat.sub_diag. }
  assert (Hcase : forall b, (b < List.length (heap s'))%nat ->
                    (b < List.length (heap s))%nat \/ b = List.length (heap s)).
  { intros b Hb. rewrite Hh, length_app in Hb. simpl in Hb. lia. }
  assert (Hprom : forall b, (b < List.length (heap s))%nat ->
                    promise s' b = promise s b)
    by (intros b Hb; unfold promise; now rewrite Hold).
  assert (Hpnew : promise s' (List.length (heap s)) = List.length (promises s))
    by (unfold promise; now rewrite Hnew).
  unfold Held. rewrite Hm, Hp, length_app. simpl.
  split; [| split; [| split]].
  - intros k b Hin. apply map_set_In in Hin as [E | Hin].
    + injection E as -> ->. rewrite Hh, length_app, Hnew. simpl. split; [lia | exact Hid].
    + destruct (W1 k b Hin) as [Hb Hk]. rewrite Hh, length_app, Hold by exact Hb.
      simpl. split; [lia | exact Hk].
  - intros b Hb. destruct (Hcase b Hb) as [Hb' | ->].
    + rewrite Hprom by exact Hb'. specialize (W3 b Hb'). lia.
    + rewrite Hpnew. lia.
  - intros b c Hb Hc E.
    destruct (Hcase b Hb) as [Hb' | ->], (Hcase c Hc) as [Hc' | ->].
    + rewrite (Hprom b Hb'), (Hprom c Hc') in E. now apply W4.
    + rewrite (Hprom b Hb'), Hpnew in E. specialize (W3 b Hb'). lia.
    + rewrite (Hprom c Hc'), Hpnew in E. specialize (W3 c Hc'). lia.
    + reflexivity.
  - intros k b Hin. apply map_set_In in Hin as [E | Hin].
    + injection E as -> ->. rewrite Hpnew, nth_error_app2, Nat.sub_diag by lia.
      reflexivity.
    + destruct (W1 k b Hin) as [Hb _]. rewrite Hprom by exact Hb.
      rewrite nth_error_app1 by now apply W3. now apply (W5 k).
Qed.

Lemma Held_cleared (s s' : State) :
  heap s' = heap s -> promises s' = promises s -> pendingRequests s' = [] ->
  Held s -> Held s'.
Proof.
  intros Hh Hp Hm [W1 [W3 [W4 W5]]]. unfold Held, promise, object in *.
  rewrite Hh, Hp, Hm. split; [intros k a [] |].
  split; [exact W3 |]. split; [exact W4 | intros k a []].
Qed.

Ltac solve_queued :=
  first
    [ left; reflexivity
    | right; unfold queued; simpl; eexists;
      (split; [| split; [| split; [reflexivity |]]]);
      [ reflexivity | reflexivity | ]; split; reflexivity ].

(** The wrappers either leave the store alone or queue one request. *)
Lemma intercepted_fetch_store (u : string) (init : RequestInit)
    (o : Completion Response) (rid : string) (s s' : State)
    (r : Completion FetchResult) :
  intercepted_fetch u init o rid s = (r, s') ->
  store_view s' = store_view s \/ queued rid s s'.
Proof.
  run_all. simpl. destruct o as [response | e]; simpl.
  - destruct (ok response); simpl.
    + intros H; injection H as <- <-. solve_queued.
    + destruct (retryCondition (config s) None (Some response)) as [[|]|e'];
        simpl.
      * destruct (enableLogging (config s)); simpl;
          intros H; injection H as <- <-; solve_queued.
      * intros H; injection H as <- <-. solve_queued.
      * destruct (retryCondition (config s) (Some e') None) as [[|]|e'']; simpl;
          try (destruct (enableLogging (config s)); simpl);
          intros H; injection H as <- <-; solve_queued.
  - destruct (retryCondition (config s) (Some e) None) as [[|]|e'']; simpl;
      try (destruct (enableLogging (config s)); simpl);
      intros H; injection H as <- <-; solve_queued.
Qed.

Lemma xhr_onerror_store (xhr : nat) (m u : string) (d : option string)
    (rid : string) (s s' : State) (r : Completion unit) :
  xhr_onerror xhr m u d rid s = (r, s') ->
  store_view s' = store_view s \/ queued rid s s'.
Proof.
  run_all. simpl.
  match goal with
  | |- context [retryCondition (config s) ?e ?o] =>
      destruct (retryCondition (config s) e o) as [[|]|e']
  end;
    simpl; try (destruct (enableLogging (config s)); simpl);
    intros H; injection H as <- <-; solve_queued.
Qed.

Lemma xhr_onload_store (xhr : nat) (st : Z) (m u : string) (d : option string)
    (rid : string) (s s' : State) (r : Completion unit) :
  xhr_onload xhr st m u d rid s = (r, s') ->
  store_view s' = store_view s \/ queued rid s s'.
Proof.
  run_all. simpl. destruct (st >=? 400); simpl.
  - destruct (retryCondition (config s) None
                (Some {| status := st; statusText := ""; ok := false |}))
      as [[|]|e];
      simpl; try (destruct (enableLogging (config s)); simpl);
      intros H; injection H as <- <-; solve_queued.
  - intros H; injection H as <- <-; solve_queued.
Qed.

Lemma Held_store_or_queued (rid : string) (s s' : State) :
  store_view s' = store_view s \/ queued rid s s' -> Held s -> Held s'.
Proof.
  intros [H | H]; [now apply Held_store | now apply (Held_queued rid)].
Qed.

(** The first half of the loop body, as the store sees it. *)
Lemma attempt_resolved (a : nat) (s s' : State) (r : Completion Attempt) :
  attempt a s = (r, s') ->
  s' = s
  \/ store_view s' = store_view (bumped a s)
  \/ resolved a (bumped a s) s'.
Proof.
  destruct (due s a) eqn:Hdue.
  - rewrite (attempt_run a s Hdue). cbv zeta.
    match goal with
    | |- context [onRetry (config s) None ?n ?m] =>
        destruct (onRetry (config s) None n m) as [[]|e]
    end.
    + intros H. injection H as <- <-. right. left. reflexivity.
    + unfold bind, ret.
      match goal with
      | |- context [catch_block a e ?s1] =>
          destruct (catch_block a e s1) as [r1 s2] eqn:E
      end.
      apply catch_block_resolved in E.
      intros H. right. right.
      assert (s2 = s') by (destruct r1 as [[]|e']; now injection H).
      subst s2. exact E.
  - rewrite (attempt_not_due a s Hdue). intros H. injection H as <- <-. now left.
Qed.

Lemma sweep_loop_Held (l : list nat) (s : State) :
  (forall a, In a l -> (a < List.length (heap s))%nat) ->
  Held s -> Held (snd (sweep_loop l s)).
Proof.
  revert s. induction l as [|a rest IH]; intros s Hl HH; simpl; [exact HH |].
  unfold bind. destruct (attempt a s) as [r s1] eqn:E.
  destruct (attempt_frame _ _ _ _ E) as [Hh _].
  assert (HH1 : Held s1).
  { destruct (attempt_resolved _ _ _ _ E) as [-> | [H | H]].
    - exact HH.
    - apply (Held_store _ _ H). now apply Held_bumped.
    - apply (Held_resolved a (bumped a s)); [exact H | | now apply Held_bumped].
      rewrite length_bumped. apply Hl. now left. }
  assert (Hrest : forall x, In x rest -> (x < List.length (heap s1))%nat)
    by (intros x Hx; rewrite Hh; apply Hl; now right).
  destruct r as [[| |]|e]; cbn [snd]; try (now apply IH); exact HH1.
Qed.

Lemma Held_parked (slot : option nat) (w : option Sweep) (s : State) :
  Held (park slot w s) <-> Held s.
Proof. destruct slot, w; reflexivity. Qed.

Lemma Held_uncaught (e : JsError) (s : State) :
  Held (set_trace (trace s ++ [EvUncaught e]) s) <-> Held s.
Proof. reflexivity. Qed.

Lemma retryPendingRequests_Held (s : State) :
  Allocated s -> Held s -> Held (snd (retryPendingRequests s)).
Proof.
  intros [HM _] HH. unfold retryPendingRequests, bind, gets, detached.
  pose proof (sweep_loop_Held (map_values (pendingRequests s)) s HM HH) as H.
  destruct (sweep_loop (map_values (pendingRequests s)) s) as [[w|e] s1];
    cbn [snd] in *; apply Held_parked; [exact H | now apply Held_uncaught].
Qed.

Lemma resume_Held (i : nat) (o : Completion Response) (s : State) :
  Allocated s -> Held s -> Held (snd (resume i o s)).
Proof.
  intros [_ HS] HH. unfold resume, bind, gets.
  destruct (nth i (sweeps s) None) as [w|] eqn:Hn; [| exact HH].
  pose proof (HS w (active_In _ _ _ Hn)) as Hsnap.
  unfold detached.
  destruct (settle (current w) o s) as [r1 s1] eqn:E1.
  pose proof (settle_resolved _ _ _ _ _ E1) as Hres.
  assert (HH1 : Held s1).
  { apply (Held_resolved (current w) s); [exact Hres | | exact HH].
    apply Hsnap. now left. }
  destruct Hres as [Hh1 _].
  destruct r1 as [[]|e]; cbn [snd].
  - assert (Hrem : forall a, In a (remaining w) -> (a < List.length (heap s1))%nat)
      by (intros a Ha; rewrite Hh1; apply Hsnap; now right).
    pose proof (sweep_loop_Held (remaining w) s1 Hrem HH1) as H2.
    destruct (sweep_loop (remaining w) s1) as [[w'|e] s2]; cbn [snd] in *;
      apply Held_parked; [exact H2 | now apply Held_uncaught].
  - apply Held_parked. now apply Held_uncaught.
Qed.

Lemma Held_turn (m : Eng unit) (s : State) :
  Held (snd (m s)) -> Held (turn m s).
Proof. unfold turn. now destruct (m s) as [[[]|e] s1]. Qed.

Lemma Held_step (l : Label) (s : State) :
  Allocated s -> Held s -> Held (step l s).
Proof.
  intros HA HH. destruct l; unfold step.
  - rewrite (turn_returns _ _ (proj1 (start_returns s))), start_state.
    destruct (isActive s).
    + exact (Held_store _ _ (log_store _ _) HH).
    + apply (Held_store _ _ (log_store _ _)).
      rewrite retryLoop_state.
      destruct (isOnline s && Nat.ltb 0 (getPendingRequestsCount s));
        [now apply retryPendingRequests_Held | exact HH].
  - rewrite (turn_returns _ _ (proj1 (stop_returns s))).
    destruct (isActive s) eqn:Ha.
    + rewrite (stop_active s Ha). now apply (Held_cleared s).
    + now rewrite (stop_inactive s Ha).
  - apply Held_turn. revert HH. apply Held_store.
    apply (Stable_bind store_view); [| intros _; apply log_store].
    apply Stable_modify. reflexivity.
  - rewrite (turn_returns _ _ (f_equal fst (clearPendingRequests_run s))).
    rewrite clearPendingRequests_run. now apply (Held_cleared s).
  - destruct (isActive s); [| exact HH].
    destruct (handleOnline_state s) as [Hr Hs].
    rewrite (turn_returns _ _ Hr), Hs.
    apply retryPendingRequests_Held.
    + apply (Allocated_view s); [| exact HA].
      apply (same_view_trans _ _ _ (proj2 (log_view LogOnline s))).
      now repeat split.
    + change (Held (snd (log LogOnline s))).
      exact (Held_store _ _ (log_store _ _) HH).
  - destruct (isActive s); [| exact HH].
    apply Held_turn. revert HH. apply Held_store.
    assert (Hst : Stable store_view handleOffline)
      by (unfold handleOffline; stable ltac:(store_leaf)).
    apply Hst.
  - destruct (retryTimer s); [| exact HH].
    rewrite (turn_returns _ _ (proj1 (retryLoop_returns s))), retryLoop_state.
    destruct (isOnline s && Nat.ltb 0 (getPendingRequestsCount s));
      [now apply retryPendingRequests_Held | exact HH].
  - exact HH.
  - apply Held_turn. unfold try_catch, bind.
    destruct (intercepted_fetch u init outcome rid s) as [r s1] eqn:E.
    apply intercepted_fetch_store in E.
    pose proof (Held_store_or_queued _ _ _ E HH) as HH1.
    destruct r as [x|e]; exact HH1.
  - apply Held_turn.
    destruct (xhr_onerror xhr requestMethod requestUrl requestData rid s)
      as [r s1] eqn:E.
    apply xhr_onerror_store in E. exact (Held_store_or_queued _ _ _ E HH).
  - apply Held_turn.
    destruct (xhr_onload xhr xhr_status requestMethod requestUrl requestData rid s)
      as [r s1] eqn:E.
    apply xhr_onload_store in E. exact (Held_store_or_queued _ _ _ E HH).
  - rewrite (turn_returns _ _ (proj1 (resume_once i outcome s))).
    now apply resume_Held.
Qed.

Lemma Held_run (ls : list Label) (s : State) :
  Allocated s -> Held s -> Held (run ls s) /\ Allocated (run ls s).
Proof.
  revert s. induction ls as [|l ls IH]; intros s HA HH; simpl; [now split |].
  apply IH; [now apply Allocated_step | now apply Held_step].
Qed.

Lemma Held_constructor (c : RetryConfig.t) (online : bool) (now : Z) :
  Held (constructor c online now).
Proof.
  unfold Held. simpl. split; [intros k a [] |].
  split; [intros a Ha; lia |]. split; [intros a b Ha; lia | intros k a []].
Qed.

Lemma pending_caller (s : State) (p : nat) (g : bool) :
  nth_error (promises s) p = Some Pending ->
  caller_outcome s (Deferred p g) = None.
Proof.
  intros H. unfold caller_outcome. now rewrite (nth_error_nth _ _ _ H).
Qed.

(** X19.  In every execution, overlapping sweeps and throwing callbacks
    included: a request that is in the map is filed under its own id, the
    promise of its caller is still pending (the caller of a queued fetch has
    no outcome yet), and no other request in the map shares that promise. *)
Theorem queued_requests_have_pending_promises
    (c : RetryConfig.t) (online : bool) (now : Z) (ls : list Label)
    (k : string) (a : nat) :
  let s := run ls (constructor c online now) in
  In (k, a) (pendingRequests s) ->
  id (object s a) = k
  /\ nth_error (promises s) (promise s a) = Some Pending
  /\ (forall g, caller_outcome s (Deferred (promise s a) g) = None)
  /\ (forall k' b, In (k', b) (pendingRequests s) ->
                   promise s b = promise s a -> b = a).
Proof.
  intros s Hin.
  destruct (Held_run ls (constructor c online now)
              (Allocated_constructor c online now)
              (Held_constructor c online now)) as [[W1 [W3 [W4 W5]]] _].
  fold s in W1, W3, W4, W5.
  destruct (W1 k a Hin) as [Ha Hid].
  split; [exact Hid |]. split; [now apply (W5 k) |]. split.
  - intros g. apply pending_caller. now apply (W5 k).
  - intros k' b Hb E. destruct (W1 k' b Hb) as [Hb' _]. now apply W4.
Qed.

Lemma queued_requests_have_pending_promises_witness :
  caller_outcome (run one_retried fresh) (Deferred 0 true) = None.
Proof.
  destruct (queued_requests_have_pending_promises RetryConfig.empty true 0
              one_retried "r1" 0) as [_ [_ [H _]]].
  - left. reflexivity.
  - exact (H true).
Defined.

(* ------------------------------------------------------------------------- *)
(** ** What is settled stays settled, what has happened has happened *)

Lemma settled_as_settle (p q : nat) (v v' : Promise) (s : State) :
  settled_as p v s ->
  settled_as p v (set_promises (update_nth q (settled_with v') (promises s)) s).
Proof.
  intros [Hv H]. split; [exact Hv |]. simpl.
  destruct (Nat.eq_dec q p) as [-> | Hne].
  - rewrite (nth_error_update_nth_eq _ _ _ _ H).
    destruct v; [now contradiction Hv | reflexivity | reflexivity].
  - now rewrite nth_error_update_nth_neq.
Qed.

Lemma settled_as_new (p : nat) (v : Promise) (s : State) :
  settled_as p v s ->
  settled_as p v (set_promises (promises s ++ [Pending]) s).
Proof.
  intros [Hv H]. split; [exact Hv |]. simpl.
  rewrite nth_error_app1; [exact H |]. apply nth_error_Some. congruence.
Qed.

Lemma happened_more (e x : Event) (s : State) :
  happened e s -> happened e (set_trace (trace s ++ [x]) s).
Proof. unfold happened. simpl. intros H. apply in_or_app. now left. Qed.

Ltac keeps_step_by leaf :=
  match goal with
  | |- Keeps _ (bind _ _) => apply Keeps_bind; [| intro]
  | |- Keeps _ (try_catch _ _) => apply Keeps_try_catch; [| intro]
  | |- Keeps _ (ret _) => apply Keeps_ret
  | |- Keeps _ (complete _) => apply Keeps_complete
  | |- Keeps _ (gets _) => apply Keeps_gets
  | |- Keeps _ (when _ _) => apply Keeps_when
  | |- Keeps _ (for_each _ _) => apply Keeps_for_each; intro
  | |- Keeps _ (modify _) => intros ? ?; unfold modify; cbn [snd]; cbv beta; leaf
  | |- Keeps _ (allocate _) => intros ? ?; unfold allocate; cbn [snd]; leaf
  | |- Keeps _ new_Promise => intros ? ?; unfold new_Promise; cbn [snd]; leaf
  | |- Keeps _ (if ?b then _ else _) => destruct b
  | |- Keeps _ (match ?x with _ => _ end) => destruct x
  end.

Ltac keeps_by leaf :=
  unfold attempt; open_engine; repeat (cbv beta; keeps_step_by leaf).

Ltac lasting_leaf :=
  first [ assumption
        | apply settled_as_settle; assumption
        | apply settled_as_new; assumption
        | apply happened_more; assumption ].

Lemma Keeps_sweep_loop (P : State -> Prop) (l : list nat) :
  (forall a, Keeps P (attempt a)) -> Keeps P (sweep_loop l).
Proof.
  intros Ha. induction l as [|a rest IH]; simpl.
  - apply Keeps_ret.
  - apply Keeps_bind; [apply Ha |].
    intros [| |]; [exact IH | exact IH | apply Keeps_ret].
Qed.

Lemma sweep_loop_settled_as (p : nat) (v : Promise) (l : list nat) :
  Keeps (settled_as p v) (sweep_loop l).
Proof. apply Keeps_sweep_loop. intros a. keeps_by ltac:(lasting_leaf). Qed.



Lemma not_queued_after_delete (s : State) (a : nat) (m : list (string * nat)) :
  Held s ->
  incl (map_values m)
       (map_values (map_delete (id (object s a)) (pendingRequests s))) ->
  ~ In a (map_values m).
Proof.
  intros [W1 _] Hincl Hin. apply Hincl in Hin.
  unfold map_values in Hin. apply in_map_iff in Hin as [[k b] [Hb Hin]].
  simpl in Hb. subst b. apply map_delete_In in Hin as [Hin Hk]. simpl in Hk.
  destruct (W1 k a Hin) as [_ E]. congruence.
Qed.

(** The state that the rest of a resumed sweep leaves. *)
Lemma resume_after_settle (i : nat) (w : Sweep) (o : Completion Response)
    (s s1 : State) :
  nth i (sweeps s) None = Some w ->
  settle (current w) o s = (Normal tt, s1) ->
  exists s2 slot,
    step (DispatchSettles i o) s = park (Some i) slot s2
    /\ (s2 = snd (sweep_loop (remaining w) s1)
        \/ exists e, s2 = set_trace (trace (snd (sweep_loop (remaining w) s1))
                                     ++ [EvUncaught e])
                                    (snd (sweep_loop (remaining w) s1))).
Proof.
  intros Hn E. unfold step.
  rewrite (turn_returns _ _ (proj1 (resume_once i o s))).
  unfold resume, bind, gets. rewrite Hn. unfold detached. rewrite E.
  destruct (sweep_loop (remaining w) s1) as [[w'|e] s2]; cbn [snd].
  - exists s2, w'. split; [reflexivity | now left].
  - eexists. exists None. split; [reflexivity |]. right. now exists e.
Qed.



(** The [catch] block at the ceiling, as the store sees it. *)
Lemma catch_block_exhausted_store (s : State) (a : nat) (error : JsError) :
  retryCount (object s a) >= maxRetries (config s) ->
  onMaxRetriesExceeded (config s) (Some error) (metadata (object s a))
  = Normal tt ->
  exists s',
    catch_block a error s = (Normal tt, s')
    /\ pendingRequests s' = map_delete (id (object s a)) (pendingRequests s)
    /\ promises s'
       = if is_cleared error then promises s
         else update_nth (promise s a) (settled_with (Rejected error))
                         (promises s).
Proof.
  intros Hrc Hcb.
  assert (E : (retryCount (object s a) >=? maxRetries (config s)) = true)
    by (apply Z.geb_le; lia).
  unfold catch_block. unfold bind at 1. unfold deref at 1, gets at 1.
  unfold bind at 1. unfold gets at 1. rewrite E.
  run_engine. simpl. fold (object s a). rewrite Hcb.
  destruct (is_cleared error); simpl;
    destruct (enableLogging (config s)); simpl;
    eexists; (split; [reflexivity |]); simpl; split; reflexivity.
Qed.

(** The second half of the loop body for a retryable failure response at the
    ceiling, as the store sees it. *)
Lemma settle_exhausted_store (s : State) (a : nat) (response : Response) :
  ok response = false ->
  retryCondition (config s) None (Some response) = Normal true ->
  retryCount (object s a) >= maxRetries (config s) ->
  onMaxRetriesExceeded (config s) None (metadata (object s a)) = Normal tt ->
  exists s',
    settle a (Normal response) s = (Normal tt, s')
    /\ pendingRequests s' = map_delete (id (object s a)) (pendingRequests s)
    /\ promises s'
       = update_nth (promise s a)
           (settled_with
              (Rejected (new_Error (String.append "Max retries exceeded for "
                                                  (url (object s a))))))
           (promises s).
Proof.
  intros Hok Hpol Hrc Hcb.
  pose proof (retryable_response s response Hok Hpol) as E.
  assert (E' : (retryCount (object s a) >=? maxRetries (config s)) = true)
    by (apply Z.geb_le; lia).
  unfold settle, try_catch. unfold bind at 1. unfold complete at 1.
  unfold bind at 1. unfold deref at 1, gets at 1.
  unfold bind at 1. rewrite E.
  unfold bind at 1. unfold gets at 1. rewrite E'.
  run_engine. simpl. fold (object s a). rewrite Hcb.
  destruct (enableLogging (config s)); simpl;
    eexists; (split; [reflexivity |]); simpl; split; reflexivity.
Qed.

(** What the turn in which a sweep is resumed keeps of the settling of its
    request. *)
Lemma settled_in_turn (i : nat) (w : Sweep) (o : Completion Response)
    (s s1 : State) (p : nat) (v : Promise) :
  nth i (sweeps s) None = Some w ->
  settle (current w) o s = (Normal tt, s1) ->
  settled_as p v s1 ->
  nth_error (promises (step (DispatchSettles i o) s)) p = Some v
  /\ incl (map_values (pendingRequests (step (DispatchSettles i o) s)))
          (map_values (pendingRequests s1)).
Proof.
  intros Hn E H1.
  destruct (resume_after_settle i w _ s s1 Hn E) as [s2 [slot [-> Hs2]]].
  apply (sweep_loop_settled_as p v (remaining w)) in H1.
  destruct (sweep_loop (remaining w) s1) as [r3 s3] eqn:E3.
  destruct (sweep_loop_frame _ _ _ _ E3) as [_ [_ [Hm3 _]]].
  destruct H1 as [_ H1]. cbn [snd] in *.
  destruct Hs2 as [-> | [e ->]]; destruct slot; now split.
Qed.

Lemma rejected_caller (s : State) (p : nat) (g : bool) (e : JsError) :
  nth_error (promises s) p = Some (Rejected e) ->
  is_cleared e = false -> name e <> Some "MaxRetriesExceeded" ->
  caller_outcome s (Deferred p g) = Some (Throw e).
Proof.
  intros H Hc Hn. unfold caller_outcome. rewrite (nth_error_nth _ _ _ H), Hc.
  destruct g; [| reflexivity].
  destruct (opt_string_eqb (name e) "MaxRetriesExceeded") eqn:E; [| reflexivity].
  unfold opt_string_eqb in E. destruct (name e) as [n|]; [| discriminate].
  apply String.eqb_eq in E. congruence.
Qed.

(** X21.  In every execution: when the dispatch that a suspended sweep
    awaits fails for a request that is still in the map and has reached the
    ceiling (a failure response that the retry condition accepts, or an
    error of the transport), and [onMaxRetriesExceeded] returns, then at the
    end of that turn the request is out of the map and the promise of its
    caller is rejected: with a new error [Max retries exceeded for <url>]
    after a response, with the error of the transport after an error.  The
    caller of a queued fetch gets exactly that error, unless the error is
    named [MaxRetriesExceeded]. *)
Theorem exhaustion_rejects_the_caller
    (c : RetryConfig.t) (online : bool) (now : Z) (ls : list Label)
    (i : nat) (w : Sweep) (outcome : Completion Response) :
  let s := run ls (constructor c online now) in
  let s' := step (DispatchSettles i outcome) s in
  let request := object s (current w) in
  let error :=
    match outcome with
    | Normal _ => new_Error (String.append "Max retries exceeded for "
                                           (url request))
    | Throw e => e
    end in
  nth i (sweeps s) None = Some w ->
  In (current w) (map_values (pendingRequests s)) ->
  retryCount request >= maxRetries (config s) ->
  match outcome with
  | Normal response =>
      ok response = false
      /\ retryCondition (config s) None (Some response) = Normal true
      /\ onMaxRetriesExceeded (config s) None (metadata request) = Normal tt
  | Throw e =>
      is_cleared e = false
      /\ onMaxRetriesExceeded (config s) (Some e) (metadata request) = Normal tt
  end ->
  ~ In (current w) (map_values (pendingRequests s'))
  /\ nth_error (promises s') (promise s (current w)) = Some (Rejected error)
  /\ (name error <> Some "MaxRetriesExceeded" ->
      forall g, caller_outcome s' (Deferred (promise s (current w)) g)
                = Some (Throw error)).
Proof.
  intros s s' request error Hn Hin Hrc Hout.
  destruct (Held_run ls (constructor c online now)
              (Allocated_constructor c online now)
              (Held_constructor c online now)) as [HH _].
  fold s in HH. pose proof HH as [W1 [W3 [W4 W5]]].
  unfold map_values in Hin. apply in_map_iff in Hin as [[k a] [Ha Hin]].
  simpl in Ha. subst a. pose proof (W5 k _ Hin) as Hpend.
  assert (Hsettle : exists s1,
            settle (current w) outcome s = (Normal tt, s1)
            /\ pendingRequests s1
               = map_delete (id request) (pendingRequests s)
            /\ settled_as (promise s (current w)) (Rejected error) s1
            /\ is_cleared error = false).
  { destruct outcome as [response | e].
    - destruct Hout as [Hok [Hpol Hcb]].
      destruct (settle_exhausted_store s (current w) response Hok Hpol Hrc Hcb)
        as [s1 [E [Hm Hp]]].
      exists s1. split; [exact E |]. split; [exact Hm |]. split; [| reflexivity].
      split; [discriminate |]. rewrite Hp.
      now rewrite (nth_error_update_nth_eq _ _ _ _ Hpend).
    - destruct Hout as [Hc Hcb].
      destruct (catch_block_exhausted_store s (current w) e Hrc Hcb)
        as [s1 [E [Hm Hp]]].
      exists s1. rewrite settle_throw. split; [exact E |]. split; [exact Hm |].
      split; [| exact Hc]. split; [discriminate |]. rewrite Hp, Hc.
      now rewrite (nth_error_update_nth_eq _ _ _ _ Hpend). }
  destruct Hsettle as [s1 [E [Hm1 [H1 Hc]]]].
  destruct (settled_in_turn i w outcome s s1 _ _ Hn E H1) as [Hp' Hm'].
  fold s' in Hp', Hm'.
  split; [| split; [exact Hp' |]].
  - apply (not_queued_after_delete s); [exact HH |]. fold request.
    now rewrite <- Hm1.
  - intros Hname g. now apply rejected_caller.
Qed.

(** Under a ceiling of 1 the first retry answers 503. *)
Lemma exhaustion_rejects_the_caller_witness :
  caller_outcome
    (step (DispatchSettles 0 (Normal response_503))
          (run one_in_flight (constructor ceiling_1 true 0)))
    (Deferred 0 true)
  = Some (Throw (new_Error "Max retries exceeded for /api/users")).
Proof.
  destruct (exhaustion_rejects_the_caller ceiling_1 true 0 one_in_flight 0
              {| current := 0; remaining := [] |} (Normal response_503))
    as [_ [_ H]].
  - reflexivity.
  - left. reflexivity.
  - vm_compute. discriminate.
  - repeat split.
  - apply H. discriminate.
Defined.

(* ------------------------------------------------------------------------- *)
(** ** The handlers of the application's XHR objects *)

Section Sweeping.

Context {X : Type}.
Variable view : State -> X.
Hypothesis view_attempt : forall a, Stable view (attempt a).
Hypothesis view_settle : forall a o, Stable view (settle a o).
Hypothesis view_park : forall slot w s, view (park slot w s) = view s.
Hypothesis view_uncaught :
  forall s e, view (set_trace (trace s ++ [EvUncaught e]) s) = view s.



End Sweeping.









